(** * scooper.ts: account scan, quote pipeline and sweep executor

    A shallow embedding of [src/scooper.ts].  The exported functions
    [getTokenAccounts], [findQuotes], [sweepTokens] and
    [loadJupyterApi] are translated as follows.

    - A JavaScript value that may be thrown or returned is a [result].
    - The collaborators the functions receive (ledger connection,
      wallet, aggregator client) are records of functions that answer
      each request with a [result]: the answer is what the returned
      promise settles to.  All of them are [async] functions of their
      libraries, so none throws before its first [await].
    - The callbacks are observers: a call appends an event to a trace
      and returns normally.
    - The concurrent part ([Promise.all] over [map (async ...)]) is a
      transition system: every branch runs synchronously up to its
      first [await] when the fan-out starts, and one transition resumes
      one suspended branch with the answer to its request and runs it
      to its next [await] or to its end.  Which branch is resumed next is
      not determined: theorems quantify over every sequence.
    - A token directory is a plain object: a read goes through its
      own properties and then its prototype chain, so that it answers
      the names of the members of [Object.prototype] too.
    - [Number] on a string is left open: a parameter of the
      development.
    - [console.log] is not modelled; [console.error] is an event. *)

From Stdlib Require Import Ascii String DecimalString DecimalZ DecimalN SpecFloat.
From stdpp Require Import base tactics option list strings gmap.

Open Scope string_scope.
Open Scope list_scope.

(** ** Values thrown and returned *)

(** The value an exception or a rejected promise carries. *)
Inductive JsError :=
  | TypeError
  | SyntaxError
  | DOMException
  | Reason (msg : string).

Inductive result (A : Type) :=
  | Ok (a : A)
  | Throw (e : JsError).
Arguments Ok {A} a.
Arguments Throw {A} e.

Definition result_bind {A B} (f : A → result B) (r : result A) : result B :=
  match r with
  | Ok a => f a
  | Throw e => Throw e
  end.

Notation "'let*' x ':=' m 'in' k" := (result_bind (λ x, k) m)
  (at level 10, x pattern, m at level 100, k at level 200).

(** [for (x of l) { f x }] where [f] may throw: the results in order, or
    the first exception. *)
Fixpoint mapR {A B} (f : A → result B) (l : list A) : result (list B) :=
  match l with
  | [] => Ok []
  | x :: l' => let* y := f x in let* ys := mapR f l' in Ok (y :: ys)
  end.

(** ** BigInt and its conversions

    [BigInt(s)] on a string is the abstract operation StringToBigInt:
    white space is trimmed; the empty string is [0n]; a decimal literal
    may carry a sign; a [0b], [0o] or [0x] literal may not; anything
    else is a SyntaxError.  A character is a code unit below 256; the
    white space among these is TAB, LF, VT, FF, CR, SP and NBSP. *)

Definition is_white_space (c : ascii) : bool :=
  match Ascii.nat_of_ascii c with
  | 9 | 10 | 11 | 12 | 13 | 32 | 160 => true
  | _ => false
  end.

Fixpoint trim_start (s : string) : string :=
  match s with
  | String c s' => if is_white_space c then trim_start s' else s
  | EmptyString => EmptyString
  end.

Fixpoint trim_end (s : string) : string :=
  match s with
  | String c s' =>
      match trim_end s' with
      | EmptyString => if is_white_space c then EmptyString else String c EmptyString
      | t => String c t
      end
  | EmptyString => EmptyString
  end.

Definition trim (s : string) : string := trim_end (trim_start s).

Definition digit_value (c : ascii) : option N :=
  let n := Ascii.N_of_ascii c in
  if decide (48 ≤ n ≤ 57)%N then Some (n - 48)%N
  else if decide (97 ≤ n ≤ 102)%N then Some (n - 87)%N
  else if decide (65 ≤ n ≤ 70)%N then Some (n - 55)%N
  else None.

Fixpoint digits_radix (radix : N) (acc : N) (s : string) : option N :=
  match s with
  | EmptyString => Some acc
  | String c s' =>
      d ← digit_value c;
      if decide (d < radix)%N then digits_radix radix (radix * acc + d) s' else None
  end.

(** A literal with a radix prefix needs at least one digit. *)
Definition non_decimal (radix : N) (s : string) : option Z :=
  match s with
  | EmptyString => None
  | _ => Z.of_N <$> digits_radix radix 0 s
  end.

Definition decimal_digits (s : string) : option Z :=
  (λ d, Z.of_N (N.of_uint d)) <$> NilZero.uint_of_string s.

Definition StringToBigInt (s : string) : option Z :=
  match trim s with
  | EmptyString => Some 0%Z
  | String "0" (String ("b" | "B") r) => non_decimal 2 r
  | String "0" (String ("o" | "O") r) => non_decimal 8 r
  | String "0" (String ("x" | "X") r) => non_decimal 16 r
  | String "+" r => decimal_digits r
  | String "-" r => Z.opp <$> decimal_digits r
  | t => decimal_digits t
  end.

(** [BigInt(s)] *)
Definition BigInt (s : string) : result Z :=
  match StringToBigInt s with
  | Some z => Ok z
  | None => Throw SyntaxError
  end.

(** [z.toString()] *)
Definition toString (z : Z) : string := NilZero.string_of_int (Z.to_int z).

(** [s == 0n] for a string [s]: loose equality converts the string with
    StringToBigInt and is false when that fails. *)
Definition loosely_equals_0n (s : string) : bool :=
  match StringToBigInt s with
  | Some z => bool_decide (z = 0%Z)
  | None => false
  end.

(** ** Data model *)

Record TokenInfo := {
  address : string;
  chainId : Z;
  decimals : Z;
  name : string;
  symbol : string;
  logoURI : string;
  tags : list string;
  strict : option bool
}.

(** [account.account.data] of an entry of [getParsedProgramAccounts]:
    the two fields the scan reads, [parsed.info.mint] and
    [parsed.info.tokenAmount.amount] (the field [tokenAmount] below). *)
Record ParsedInfo := {
  mint : string;
  tokenAmount : string
}.

(** One entry of the ledger's answer.  [data] is [None] when the account
    data did not come back in parsed form (a raw buffer): reading
    [parsed.info] of it throws a TypeError. *)
Record ProgramAccount := {
  pubkey : string;
  data : option ParsedInfo
}.

(** The record of the interface [TokenBalance].  [getTokenAccounts]
    pushes the ledger entry itself, whatever the directory gave for
    its mint and [tokenBalance.toString()]; [T] is the type of the
    member [token]: a value read off the directory for a record of
    the scan, a descriptor for a record a caller hands to
    [sweepTokens], which reads [token.address] as a string. *)
Record TokenBalance (T : Type) := {
  account : ProgramAccount;
  token : T;
  balance : string
}.
Arguments Build_TokenBalance {T} _ _ _.
Arguments account {T} _.
Arguments token {T} _.
Arguments balance {T} _.

(** ** The token directory as an object

    [tokenList] and [tokenMap] are plain objects used as dictionaries
    from mint address to descriptor.  A read [o[k]] finds an own
    property first and then walks the prototype chain; [__proto__] is
    an accessor of [Object.prototype] that reads and sets the
    prototype of the object it is used on. *)

(** What a read of the directory can give. *)
Inductive Value :=
  | Undefined
  | Str (s : string)
  | Num (z : Z)
  | Bool (b : bool)
  | Tags (l : list string)
  | Descriptor (t : TokenInfo)
  | Builtin (member : string)
  | ObjectPrototype.

(** The function-valued members of [Object.prototype]. *)
Definition OBJECT_PROTOTYPE_FUNCTIONS : list string :=
  ["constructor"; "__defineGetter__"; "__defineSetter__"; "hasOwnProperty";
   "__lookupGetter__"; "__lookupSetter__"; "isPrototypeOf";
   "propertyIsEnumerable"; "toString"; "valueOf"; "toLocaleString"].

(** A directory object: its own properties, which are descriptors;
    its prototype when that is a descriptor ([None] for
    [Object.prototype], the prototype of an object literal); and
    whether [Object.prototype] has been given a property [strict]
    (with value [true]), the one change this program can make to
    it. *)
Record TokenDirectory := {
  own : gmap string TokenInfo;
  prototype : option TokenInfo;
  inherited_strict : bool
}.

(** An own property of a descriptor. *)
Definition field (t : TokenInfo) (k : string) : option Value :=
  if decide (k = "address") then Some (Str (address t))
  else if decide (k = "chainId") then Some (Num (chainId t))
  else if decide (k = "decimals") then Some (Num (decimals t))
  else if decide (k = "name") then Some (Str (name t))
  else if decide (k = "symbol") then Some (Str (symbol t))
  else if decide (k = "logoURI") then Some (Str (logoURI t))
  else if decide (k = "tags") then Some (Tags (tags t))
  else if decide (k = "strict") then Bool <$> strict t
  else None.

(** [Object.prototype[k]] for [k] other than [__proto__]. *)
Definition object_prototype (polluted : bool) (k : string) : Value :=
  if bool_decide (k ∈ OBJECT_PROTOTYPE_FUNCTIONS) then Builtin k
  else if bool_decide (k = "strict") && polluted then Bool true
  else Undefined.

(** [tokenList[k]] *)
Definition get (tokenList : TokenDirectory) (k : string) : Value :=
  match own tokenList !! k with
  | Some t => Descriptor t
  | None =>
      if decide (k = "__proto__") then
        match prototype tokenList with
        | Some t0 => Descriptor t0
        | None => ObjectPrototype
        end
      else
        match prototype tokenList with
        | Some t0 =>
            default (object_prototype (inherited_strict tokenList) k) (field t0 k)
        | None => object_prototype (inherited_strict tokenList) k
        end
  end.

(** ToBoolean *)
Definition truthy (v : Value) : bool :=
  match v with
  | Undefined => false
  | Str s => negb (bool_decide (s = ""))
  | Num z => negb (bool_decide (z = 0%Z))
  | Bool b => b
  | Tags _ | Descriptor _ | Builtin _ | ObjectPrototype => true
  end.

(** [v.address]: the address of a descriptor; no other value has a
    property of that name. *)
Definition address_of (v : Value) : option string :=
  match v with
  | Descriptor t => Some (address t)
  | _ => None
  end.

(** The object literal [{}] in a realm whose [Object.prototype] is as
    the language defines it, and a directory that has the given
    entries and nothing else. *)
Definition empty_object : TokenDirectory :=
  {| own := ∅; prototype := None; inherited_strict := false |}.

Definition directory (entries : gmap string TokenInfo) : TokenDirectory :=
  {| own := entries; prototype := None; inherited_strict := false |}.

Inductive GetProgramAccountsFilter :=
  | dataSize (n : N)
  | memcmp (offset : N) (bytes : string).

Definition TOKEN_PROGRAM_ID : string := "TokenkegQfeZyiNwAJbNbGKPFXCWuBvf9Ss623VQ5DA".
Definition TOKEN_2022_PROGRAM_ID : string := "TokenzQdBNbLqP5VEhdkAS6EPFLC1PHnBqCXEpPxuEb".

Record BlockhashWithExpiryBlockHeight := {
  blockhash : string;
  lastValidBlockHeight : Z
}.

(** What the returned promise of an [async] function has become. *)
Inductive Promise :=
  | Pending
  | Resolved
  | Rejected (e : JsError).

(** The ledger connection.  [sendAndConfirmRawTransaction] is the
    library function of that name applied to this connection; its first
    argument numbers the call (the position of the transaction in the
    signed batch), so that two calls with the same bytes may settle
    differently. *)
Record Connection := {
  getParsedProgramAccounts :
    string → list GetProgramAccountsFilter → result (list ProgramAccount);
  getLatestBlockhash : result BlockhashWithExpiryBlockHeight;
  sendAndConfirmRawTransaction : nat → list Byte.byte → result string
}.

(** ** getTokenAccounts *)

(** The body of [accounts.forEach]: the record pushed for one account,
    if any.  Both fields are read and the amount converted before the
    directory is consulted; the record is pushed when the read of the
    directory is truthy, and carries what that read gave. *)
Definition scan_account (tokenList : TokenDirectory) (acc : ProgramAccount)
    : result (option (TokenBalance Value)) :=
  match data acc with
  | None => Throw TypeError
  | Some parsedAccountInfo =>
      let mintAddress := mint parsedAccountInfo in
      let* tokenBalance := BigInt (tokenAmount parsedAccountInfo) in
      if truthy (get tokenList mintAddress) then
        Ok (Some {| account := acc; token := get tokenList mintAddress;
                    balance := toString tokenBalance |})
      else Ok None
  end.

Definition getTokenAccounts (wallet : string) (solanaConnection : Connection)
    (tokenList : TokenDirectory) : result (list (TokenBalance Value)) :=
  let filters := [dataSize 165; memcmp 32 wallet] in
  let* accountsOld := getParsedProgramAccounts solanaConnection TOKEN_PROGRAM_ID filters in
  let filtersOld := [dataSize 182; memcmp 32 wallet] in
  let* accountsNew := getParsedProgramAccounts solanaConnection TOKEN_2022_PROGRAM_ID filtersOld in
  let accounts := accountsOld ++ accountsNew in
  let* tokens := mapR (scan_account tokenList) accounts in
  Ok (omap id tokens).

(** ** What the account scan is compared with *)

(** An account of a known token: its mint address is a key of the
    directory. *)
Definition known (tokenList : TokenDirectory) (acc : ProgramAccount) : bool :=
  match data acc with
  | Some info => bool_decide (is_Some (own tokenList !! mint info))
  | None => false
  end.


(** An account the loop keeps: the read of the directory at its mint
    address is truthy. *)
Definition kept (tokenList : TokenDirectory) (acc : ProgramAccount) : bool :=
  match data acc with
  | Some info => truthy (get tokenList (mint info))
  | None => false
  end.



(** What [scan_account] pushes for an account it accepts. *)
Definition scanned (tokenList : TokenDirectory) (t : TokenBalance Value) : Prop :=
  ∃ info z,
    data (account t) = Some info
    ∧ token t = get tokenList (mint info)
    ∧ truthy (token t) = true
    ∧ StringToBigInt (tokenAmount info) = Some z
    ∧ balance t = toString z.
(** ** Traces of concurrent branches

    An event is tagged with the branch that produced it: [Some i] for
    the [i]-th callback of the [map], [None] for the enclosing function
    body.  The tag is not visible to the program; it lets a statement
    speak about one branch. *)

Definition tagged {E} (i : nat) (evs : list E) : list (option nat * E) :=
  map (pair (Some i)) evs.

Definition top {E} (evs : list E) : list (option nat * E) :=
  map (pair None) evs.

(** The events of branch [i], in order. *)
Definition of_branch {E} (i : nat) (tr : list (option nat * E)) : list E :=
  omap (λ p, if decide (p.1 = Some i) then Some p.2 else None) tr.

(** All events, tags dropped. *)
Definition untagged {E} (tr : list (option nat * E)) : list E := map snd tr.

(** [l.map(async (x, i) => ...)]: the synchronous prefixes [g i x] of
    the branches, one after the other from index [k] on. *)
Fixpoint fan_out {E A} (g : nat → A → list E) (k : nat) (l : list A)
    : list (option nat * E) :=
  match l with
  | [] => []
  | x :: l' => tagged k (g k x) ++ fan_out g (S k) l'
  end.

(** The values [g i x] of the same [map], from index [k] on. *)
Fixpoint branches_from {A B} (g : nat → A → B) (k : nat) (l : list A) : list B :=
  match l with
  | [] => []
  | x :: l' => g k x :: branches_from g (S k) l'
  end.

(** The events of the enclosing function body, in order. *)
Definition of_top {E} (tr : list (option nat * E)) : list E :=
  omap (λ p, if decide (p.1 = None) then Some p.2 else None) tr.

(** ** findQuotes *)

(** The conversion of the language that the program calls and the
    development does not fix: [Number], here on a string.  Every
    statement holds for whatever number it gives. *)
Record Language := {
  Number : string → spec_float
}.

(** A request for a quote.  [inputMint] is [asset.token.address],
    which is [undefined] ([None]) when the token is no descriptor;
    [amount] is a number, a double. *)
Record QuoteGetRequest := {
  inputMint : option string;
  outputMint : string;
  amount : spec_float
}.

Record QuoteResponse := {
  inAmount : string;
  outAmount : string
}.

Record SwapResponse := {
  swapTransaction : string;
  swapLastValidBlockHeight : Z
}.

Record SwapPostRequest := {
  userPublicKey : string;
  quoteResponse : QuoteResponse
}.

(** The aggregator client.  The first argument of a method numbers the
    call (the index of the asset whose branch makes it), so that equal
    requests may be answered differently. *)
Record DefaultApi := {
  quoteGet : nat → QuoteGetRequest → result QuoteResponse;
  swapPost : nat → SwapPostRequest → result SwapResponse
}.

(** The events of [findQuotes].  The id a callback is given is
    [asset.token.address]. *)
Inductive QEvent :=
  | FoundAssetCallback (id : option string) (asset : TokenBalance Value)
  | FoundQuoteCallback (id : option string) (quote : QuoteResponse)
  | FoundSwapCallback (id : option string) (swap : SwapResponse)
  | ErrorCallback (id : option string) (err : string)
  | QuoteGet (rq : QuoteGetRequest)
  | SwapPost (rq : SwapPostRequest)
  | ConsoleError (e : JsError).

(** Where the branch of one asset is suspended. *)
Inductive QBranch :=
  | AwaitQuote
  | AwaitSwap (quote : QuoteResponse)
  | Settled.

Record QState := {
  q_assets : list (TokenBalance Value);
  q_branches : list QBranch;
  q_trace : list (option nat * QEvent);
  q_promise : Promise
}.

Definition q_settled (b : QBranch) : bool :=
  match b with Settled => true | _ => false end.

Definition is_callback (e : QEvent) : bool :=
  match e with
  | FoundAssetCallback _ _ | FoundQuoteCallback _ _
  | FoundSwapCallback _ _ | ErrorCallback _ _ => true
  | _ => false
  end.


(** The callbacks of a trace, in order, and those given one id. *)
Definition callbacks (tr : list (option nat * QEvent)) : list QEvent :=
  filter (λ e, is_callback e) (untagged tr).


(** What the caller of [findQuotes] can observe: what the returned
    promise has become and the callbacks made so far. *)
Definition caller_view (st : QState) : Promise * list QEvent :=
  (q_promise st, callbacks (q_trace st)).

Definition ends_branch (e : QEvent) : bool :=
  match e with
  | FoundSwapCallback _ _ | ErrorCallback _ _ => true
  | _ => false
  end.

(** ** loadJupyterApi *)

Definition ALL_TOKENS : string := "https://token.jup.ag/all".
Definition STRICT_TOKENS : string := "https://token.jup.ag/strict".

(** [token.strict = true] *)
Definition set_strict (t : TokenInfo) : TokenInfo :=
  {| address := address t; chainId := chainId t; decimals := decimals t;
     name := name t; symbol := symbol t; logoURI := logoURI t; tags := tags t;
     strict := Some true |}.

(** [tokenMap[token.address] = token]: an assignment to [__proto__]
    on an object that has no own property of that name goes to the
    accessor and makes the descriptor the prototype of the object; any
    other assignment creates or replaces an own property (every
    inherited property of another name is a writable data property). *)
Definition file (tokenMap : TokenDirectory) (token : TokenInfo) : TokenDirectory :=
  if bool_decide (address token = "__proto__")
     && bool_decide (own tokenMap !! "__proto__" = None)
  then {| own := own tokenMap; prototype := Some token;
          inherited_strict := inherited_strict tokenMap |}
  else {| own := <[address token := token]> (own tokenMap);
          prototype := prototype tokenMap;
          inherited_strict := inherited_strict tokenMap |}.

(** [allList.forEach((token) => { tokenMap[token.address] = token; })]
    from the object literal [{}]. *)
Definition index_tokens (allList : list TokenInfo) : TokenDirectory :=
  foldl file empty_object allList.

(** [tokenMap[token.address].strict = true], in strict-mode code (the
    file is a module).  The read gives an object or not.  A descriptor
    is changed in place: it is an own property under its address, or
    the prototype; on [Object.prototype] the assignment adds the
    property for every object; on the array of tags of the prototype
    and on a function of [Object.prototype] it adds a property that
    nothing here reads.  On [undefined] and on a primitive value the
    assignment throws a TypeError. *)
Definition mark (tokenMap : TokenDirectory) (token : TokenInfo)
    : result TokenDirectory :=
  let k := address token in
  match own tokenMap !! k with
  | Some t =>
      Ok {| own := <[k := set_strict t]> (own tokenMap);
            prototype := prototype tokenMap;
            inherited_strict := inherited_strict tokenMap |}
  | None =>
      match get tokenMap k with
      | Descriptor t0 =>
          Ok {| own := own tokenMap; prototype := Some (set_strict t0);
                inherited_strict := inherited_strict tokenMap |}
      | ObjectPrototype =>
          Ok {| own := own tokenMap; prototype := prototype tokenMap;
                inherited_strict := true |}
      | Tags _ | Builtin _ => Ok tokenMap
      | Undefined | Str _ | Num _ | Bool _ => Throw TypeError
      end
  end.

(** [strictList.forEach((token) => { tokenMap[token.address].strict = true; })] *)
Fixpoint mark_strict (strictList : list TokenInfo) (tokenMap : TokenDirectory)
    : result TokenDirectory :=
  match strictList with
  | [] => Ok tokenMap
  | token :: strictList' =>
      let* tokenMap := mark tokenMap token in
      mark_strict strictList' tokenMap
  end.

(** [loadJupyterApi()]: the URLs fetched, in order, and what the promise
    settles to.  [createJupiterApiClient] is the client the library
    call of that name returns.  [fetch_json url] is the outcome of
    [await (await fetch(url)).json()] read as a list of descriptors: the
    list, or what is thrown on the way, the TypeError of [forEach] on a
    body that is not an array included. *)
Definition loadJupyterApi (createJupiterApiClient : DefaultApi)
    (fetch_json : string → result (list TokenInfo))
    : list string * result (DefaultApi * TokenDirectory) :=
  let quoteApi := createJupiterApiClient in
  match fetch_json ALL_TOKENS with
  | Throw e => ([ALL_TOKENS], Throw e)
  | Ok allList =>
      let tokenMap := index_tokens allList in
      match fetch_json STRICT_TOKENS with
      | Throw e => ([ALL_TOKENS; STRICT_TOKENS], Throw e)
      | Ok strictList =>
          ([ALL_TOKENS; STRICT_TOKENS],
           let* tokenMap := mark_strict strictList tokenMap in
           Ok (quoteApi, tokenMap))
      end
  end.

(** ** What the account scan needs of the ledger's answer *)

(** An account the loop body gets through: its data came back parsed
    and its amount converts to a BigInt. *)
Definition readable (acc : ProgramAccount) : bool :=
  match data acc with
  | Some info => bool_decide (is_Some (StringToBigInt (tokenAmount info)))
  | None => false
  end.

(** The exception the loop body throws on an account. *)
Definition scan_error (acc : ProgramAccount) : JsError :=
  match data acc with
  | Some _ => SyntaxError
  | None => TypeError
  end.

(** An account whose mint is an address of a token list. *)
Definition listed (allList : list TokenInfo) (acc : ProgramAccount) : bool :=
  match data acc with
  | Some info => bool_decide (mint info ∈ address <$> allList)
  | None => false
  end.


(** The names of the members of a descriptor. *)
Definition TOKEN_FIELDS : list string :=
  ["address"; "chainId"; "decimals"; "name"; "symbol"; "logoURI"; "tags"; "strict"].

(** A name that no directory object answers unless it is one of its
    keys: not a member of [Object.prototype], not a member of a
    descriptor.  A mint address, the base58 form of 32 bytes, is such
    a name. *)
Definition plain (k : string) : bool :=
  negb (bool_decide (k ∈ OBJECT_PROTOTYPE_FUNCTIONS))
  && negb (bool_decide (k = "__proto__"))
  && negb (bool_decide (k ∈ TOKEN_FIELDS)).
(** ** atob

    The forgiving-base64 decoding [atob] performs: ASCII white space is
    removed; with a length divisible by four, one or two final [=] are
    removed; a length of one modulo four, or a character outside the
    alphabet, is a DOMException; the sextets are joined into bytes and
    the bits left over are dropped. *)

Definition is_base64_space (c : ascii) : bool :=
  match Ascii.nat_of_ascii c with
  | 9 | 10 | 12 | 13 | 32 => true
  | _ => false
  end.

Definition sextet (c : ascii) : option N :=
  let n := Ascii.N_of_ascii c in
  if decide (65 ≤ n ≤ 90)%N then Some (n - 65)%N
  else if decide (97 ≤ n ≤ 122)%N then Some (n - 71)%N
  else if decide (48 ≤ n ≤ 57)%N then Some (n + 4)%N
  else if decide (n = 43)%N then Some 62%N
  else if decide (n = 47)%N then Some 63%N
  else None.

Definition strip_padding (l : list ascii) : list ascii :=
  if decide (length l `mod` 4 = 0) then
    match reverse l with
    | "="%char :: "="%char :: r => reverse r
    | "="%char :: r => reverse r
    | _ => l
    end
  else l.

Fixpoint join_sextets (l : list N) : list N :=
  match l with
  | a :: b :: c :: d :: r =>
      let n := (a * 262144 + b * 4096 + c * 64 + d)%N in
      (n / 65536)%N :: ((n / 256) `mod` 256)%N :: (n `mod` 256)%N :: join_sextets r
  | [a; b; c] =>
      let n := ((a * 4096 + b * 64 + c) / 4)%N in
      [(n / 256)%N; (n `mod` 256)%N]
  | [a; b] => [((a * 64 + b) / 16)%N]
  | _ => []
  end.

Definition atob (s : string) : result string :=
  let l := strip_padding (filter (λ c, is_base64_space c = false) (list_ascii_of_string s)) in
  if decide (length l `mod` 4 = 1) then Throw DOMException
  else
    match mapM sextet l with
    | Some sextets =>
        Ok (string_of_list_ascii (Ascii.ascii_of_N <$> join_sextets sextets))
    | None => Throw DOMException
    end.

(** [new Uint8Array(buf.length)] filled with [buf.charCodeAt(i)]. *)
Definition char_codes (buf : string) : list Byte.byte :=
  Ascii.byte_of_ascii <$> list_ascii_of_string buf.

(** ** Transactions *)

Record AccountMeta := {
  meta_pubkey : string;
  isSigner : bool;
  isWritable : bool
}.

Record TransactionInstruction := {
  programId : string;
  keys : list AccountMeta;
  ix_data : list N
}.

(** A version-0 message: the fields [new TransactionMessage] is given.
    The compilation to the compact account table is not modelled. *)
Record MessageV0 := {
  payerKey : string;
  recentBlockhash : string;
  instructions : list TransactionInstruction
}.

Record VersionedTransaction := {
  message : MessageV0;
  signatures : list string
}.

(** [createCloseAccountInstruction(account, destination, authority,
    multiSigners)] of spl-token with an empty [multiSigners] and the
    default program: instruction 9 of the token program. *)
Definition createCloseAccountInstruction (account' destination authority : string)
    : TransactionInstruction :=
  {| programId := TOKEN_PROGRAM_ID;
     keys := [ {| meta_pubkey := account'; isSigner := false; isWritable := true |};
               {| meta_pubkey := destination; isSigner := false; isWritable := true |};
               {| meta_pubkey := authority; isSigner := true; isWritable := false |} ];
     ix_data := [9%N] |}.

Record Asset := {
  asset : TokenBalance TokenInfo;
  swap : option SwapResponse;
  checked : option bool
}.

(** The two members of [WalletContextState] the sweep reads. *)
Record WalletContextState := {
  publicKey : option string;
  signAllTransactions :
    option (list VersionedTransaction → result (list VersionedTransaction))
}.

(** The argument [errorCallback] receives: a caught value or a literal. *)
Inductive ErrorValue :=
  | Caught (err : JsError)
  | Literal (msg : string).

Inductive SEvent :=
  | TransactionStateCallback (id : string) (state : string)
  | TransactionIdCallback (id : string) (txid : string)
  | SweepErrorCallback (id : string) (error : ErrorValue)
  | GetLatestBlockhash
  | SignAllTransactions (txs : list VersionedTransaction)
  | SendAndConfirmRawTransaction (i : nat) (raw : list Byte.byte)
  | SweepConsoleError (e : JsError).

Definition is_error_callback (e : SEvent) : bool :=
  match e with SweepErrorCallback _ _ => true | _ => false end.

Definition is_sweep_callback (e : SEvent) : bool :=
  match e with
  | TransactionStateCallback _ _ | TransactionIdCallback _ _
  | SweepErrorCallback _ _ => true
  | _ => false
  end.

(** The asset id a callback of the sweep is given. *)
Definition s_event_id (e : SEvent) : option string :=
  match e with
  | TransactionStateCallback id _ | TransactionIdCallback id _
  | SweepErrorCallback id _ => Some id
  | _ => None
  end.

(** A terminal state reported for [id]. *)
Definition is_terminal_for (id : string) (e : SEvent) : bool :=
  match e with
  | TransactionStateCallback id' state =>
      bool_decide (id' = id ∧ (state = "Scooped" ∨ state = "Error"))
  | _ => false
  end.

Definition terminal_states (id : string) (tr : list (option nat * SEvent)) : list SEvent :=
  filter (λ e, is_terminal_for id e) (untagged tr).

(** Where the branch of one signed transaction is. *)
Inductive SBranch :=
  | AwaitConfirm (assetId : string) (raw : list Byte.byte)
  | Finished.

Record SState := {
  s_branches : list SBranch;
  s_trace : list (option nat * SEvent);
  s_promise : Promise
}.

Definition s_finished (b : SBranch) : bool :=
  match b with Finished => true | _ => false end.

(** One for a branch that awaits the confirmation of a transaction of
    [id], zero for any other. *)
Definition awaiting_for (id : string) (b : SBranch) : nat :=
  match b with
  | AwaitConfirm id' _ => if bool_decide (id' = id) then 1 else 0
  | Finished => 0
  end.

(** What one turn of [assets.forEach] builds: the account-closure
    transaction, a local constant that nothing reads, and the entry
    pushed on [transactions]. *)
Record Assembled := {
  closeAccountTx : option VersionedTransaction;
  pushed : option (string * VersionedTransaction)
}.

(** The signature slot of a transaction that has not been signed:
    [SIGNATURE_LENGTH_IN_BYTES] zero bytes. *)
Definition SIGNATURE_LENGTH_IN_BYTES : nat := 64.

Definition unsigned_slot : string :=
  string_of_list_ascii (replicate SIGNATURE_LENGTH_IN_BYTES Ascii.zero).

(** The account-closure transaction of the loop: the close
    instruction is given the token program as the account to close.
    The compiled message requires one signature, that of the wallet
    (payer and authority), and [new VersionedTransaction(message)]
    has an unsigned slot for each required signature. *)
Definition build_closeAccountTx (pk blockHash : string) : VersionedTransaction :=
  let closeAccountIx := createCloseAccountInstruction TOKEN_PROGRAM_ID pk pk in
  {| message := {| payerKey := pk;
                   recentBlockhash := blockHash;
                   instructions := [closeAccountIx] |};
     signatures := [unsigned_slot] |}.
(** ** Events by kind *)

(** What a branch of [findQuotes] does before its first [await]. *)
Definition is_discovery (e : QEvent) : bool :=
  match e with
  | FoundAssetCallback _ _ | QuoteGet _ => true
  | _ => false
  end.

(** [transactionStateCallback(id, 'Scooping')], for any id and for one. *)
Definition is_scooping (e : SEvent) : bool :=
  match e with
  | TransactionStateCallback _ state => bool_decide (state = "Scooping")
  | _ => false
  end.

Definition is_scooping_for (id : string) (e : SEvent) : bool :=
  match e with
  | TransactionStateCallback id' state =>
      bool_decide (id' = id ∧ state = "Scooping")
  | _ => false
  end.

(** What a branch of [sweepTokens] does before its [await] when the
    transaction serializes. *)
Definition is_submission_start (e : SEvent) : bool :=
  match e with
  | TransactionStateCallback _ state => bool_decide (state = "Scooping")
  | SendAndConfirmRawTransaction _ _ => true
  | _ => false
  end.

(** * Worked examples

    A wallet that holds 50 units of a listed token X, nothing of a
    listed token Y and 7 units of an unlisted token; an aggregator that
    prices X and fails on Y; a ledger that confirms the first
    submission and rejects any other. *)

Module Demo.
Definition tokenX : TokenInfo :=
  {| address := "MintX"; chainId := 101; decimals := 6; name := "Token X";
     symbol := "X"; logoURI := ""; tags := []; strict := Some true |}.

Definition tokenY : TokenInfo :=
  {| address := "MintY"; chainId := 101; decimals := 9; name := "Token Y";
     symbol := "Y"; logoURI := ""; tags := []; strict := None |}.

Definition tokens : TokenDirectory :=
  directory (<["MintX" := tokenX]> (<["MintY" := tokenY]> ∅)).

Definition accountX : ProgramAccount :=
  {| pubkey := "AccountX"; data := Some {| mint := "MintX"; tokenAmount := "50" |} |}.

Definition accountU : ProgramAccount :=
  {| pubkey := "AccountU"; data := Some {| mint := "MintU"; tokenAmount := "7" |} |}.

Definition accountY : ProgramAccount :=
  {| pubkey := "AccountY"; data := Some {| mint := "MintY"; tokenAmount := "0" |} |}.

Definition latest : BlockhashWithExpiryBlockHeight :=
  {| blockhash := "Fetched"; lastValidBlockHeight := 1000 |}.

Definition connection : Connection :=
  {| getParsedProgramAccounts := λ program _,
       if decide (program = TOKEN_PROGRAM_ID) then Ok [accountX; accountU]
       else Ok [accountY];
     getLatestBlockhash := Ok latest;
     sendAndConfirmRawTransaction := λ i _,
       match i with
       | 0 => Ok "Signature0"
       | _ => Throw (Reason "blockhash not found")
       end |}.

(** A ledger that cannot be reached. *)
Definition offline : Connection :=
  {| getParsedProgramAccounts := λ _ _, Throw (Reason "fetch failed");
     getLatestBlockhash := Throw (Reason "fetch failed");
     sendAndConfirmRawTransaction := λ _ _, Throw (Reason "fetch failed") |}.

(** A ledger on which the wallet holds no token account. *)
Definition empty : Connection :=
  {| getParsedProgramAccounts := λ _ _, Ok [];
     getLatestBlockhash := Ok latest;
     sendAndConfirmRawTransaction := λ _ _, Ok "" |}.

Definition quote : QuoteResponse := {| inAmount := "50"; outAmount := "12" |}.

(** The payload is the base64 form of the seven bytes "Payload". *)
Definition swapX : SwapResponse :=
  {| swapTransaction := "UGF5bG9hZA=="; swapLastValidBlockHeight := 990 |}.

(** A stand-in for [Number] on the strings the scan produces: the
    double nearest to the integer a string of digits denotes. *)
Definition js : Language :=
  {| Number := λ s,
       match StringToBigInt s with
       | Some z => binary_normalize 53 1024 z 0 false
       | None => S754_nan
       end |}.

Definition quoteApi : DefaultApi :=
  {| quoteGet := λ i _,
       match i with 0 => Ok quote | _ => Throw (Reason "no route") end;
     swapPost := λ _ _, Ok swapX |}.

(** A stand-in for the wire format, which the development leaves
    open: the bytes of a transaction are the characters of the block
    reference it was built against. *)
Definition deserialize (raw : list Byte.byte) : result VersionedTransaction :=
  Ok {| message := {| payerKey := "Aggregator";
                      recentBlockhash :=
                        string_of_list_ascii (Ascii.ascii_of_byte <$> raw);
                      instructions := [] |};
        signatures := [] |}.

Definition serialize (tx : VersionedTransaction) : result (list Byte.byte) :=
  Ok (char_codes (recentBlockhash (message tx))).

Definition sign (tx : VersionedTransaction) : VersionedTransaction :=
  {| message := message tx; signatures := ["Signed"] |}.

Definition wallet : WalletContextState :=
  {| publicKey := Some "Wallet"; signAllTransactions := Some (λ txs, Ok (sign <$> txs)) |}.

(** A wallet that refuses to sign. *)
Definition refusing : WalletContextState :=
  {| publicKey := Some "Wallet";
     signAllTransactions := Some (λ _, Throw (Reason "User rejected the request")) |}.



(** What the scan returns for X and for Y. *)
Definition scannedX : TokenBalance Value :=
  {| account := accountX; token := Descriptor tokenX; balance := "50" |}.

Definition scannedY : TokenBalance Value :=
  {| account := accountY; token := Descriptor tokenY; balance := "0" |}.

(** The same records as a caller hands them to [sweepTokens]. *)
Definition balanceX : TokenBalance TokenInfo :=
  {| account := accountX; token := tokenX; balance := "50" |}.

Definition balanceY : TokenBalance TokenInfo :=
  {| account := accountY; token := tokenY; balance := "0" |}.

Definition assetX : Asset :=
  {| asset := balanceX; swap := Some swapX; checked := Some true |}.

Definition assetY : Asset :=
  {| asset := balanceY; swap := None; checked := Some true |}.

Definition assets : list Asset := [assetX; assetY].

(** The transaction decoded from the payload of X. *)
Definition payloadTx : VersionedTransaction :=
  {| message := {| payerKey := "Aggregator"; recentBlockhash := "Payload";
                   instructions := [] |};
     signatures := [] |}.

(** What the loop builds for [assets] against the fetched reference. *)
Definition built : list Assembled :=
  [ {| closeAccountTx := Some (build_closeAccountTx "Wallet" "Fetched");
       pushed := Some ("MintX", payloadTx) |};
    {| closeAccountTx := Some (build_closeAccountTx "Wallet" "Fetched");
       pushed := None |} ].

End Demo.

(** The token service of the examples: it lists X and Y, and X is on
    its strict list. *)
Module Market.
Definition listedX : TokenInfo :=
  {| address := "MintX"; chainId := 101; decimals := 6; name := "Token X";
     symbol := "X"; logoURI := ""; tags := []; strict := None |}.

Definition fetch_json (url : string) : result (list TokenInfo) :=
  if decide (url = ALL_TOKENS) then Ok [listedX; Demo.tokenY]
  else if decide (url = STRICT_TOKENS) then Ok [listedX]
  else Throw (Reason "404").


(** Descriptors whose addresses are names that every object answers. *)
Definition proto : TokenInfo :=
  {| address := "__proto__"; chainId := 101; decimals := 0; name := "P";
     symbol := "P"; logoURI := ""; tags := []; strict := None |}.

Definition constructor : TokenInfo :=
  {| address := "constructor"; chainId := 101; decimals := 0; name := "C";
     symbol := "C"; logoURI := ""; tags := []; strict := None |}.

End Market.

(** A ledger whose second account came back unparsed, and one whose
    unlisted account has an amount that is no integer. *)
Module Ledger.
Definition raw : ProgramAccount := {| pubkey := "AccountR"; data := None |}.

Definition unparsed : Connection :=
  {| getParsedProgramAccounts := λ program _,
       if decide (program = TOKEN_PROGRAM_ID) then Ok [Demo.accountX; raw]
       else Ok [Demo.accountY];
     getLatestBlockhash := Ok Demo.latest;
     sendAndConfirmRawTransaction := λ _ _, Ok "" |}.

Definition accountF : ProgramAccount :=
  {| pubkey := "AccountF"; data := Some {| mint := "MintU"; tokenAmount := "1.5" |} |}.

Definition fractional : Connection :=
  {| getParsedProgramAccounts := λ program _,
       if decide (program = TOKEN_PROGRAM_ID) then Ok [Demo.accountX]
       else Ok [accountF; Demo.accountY];
     getLatestBlockhash := Ok Demo.latest;
     sendAndConfirmRawTransaction := λ _ _, Ok "" |}.
End Ledger.

(** A wallet with two token accounts of X; the first asset gets no
    quote, the second a quote and a swap.  And a ledger that reports
    an account whose mint is a name every object answers. *)
Module Twins.
Definition accountX2 : ProgramAccount :=
  {| pubkey := "AccountX2"; data := Some {| mint := "MintX"; tokenAmount := "5" |} |}.

Definition connection : Connection :=
  {| getParsedProgramAccounts := λ program _,
       if decide (program = TOKEN_PROGRAM_ID) then Ok [Demo.accountX; accountX2]
       else Ok [];
     getLatestBlockhash := Ok Demo.latest;
     sendAndConfirmRawTransaction := λ _ _, Ok "" |}.



Definition quoteApi : DefaultApi :=
  {| quoteGet := λ i _,
       match i with 0 => Throw (Reason "no route") | _ => Ok Demo.quote end;
     swapPost := λ _ _, Ok Demo.swapX |}.



End Twins.

(** A second token with a swap payload (the base64 form of "Other"),
    a payload that is not base64, and wallets and a codec that
    misbehave. *)
Module Batch.
Definition tokenZ : TokenInfo :=
  {| address := "MintZ"; chainId := 101; decimals := 6; name := "Token Z";
     symbol := "Z"; logoURI := ""; tags := []; strict := None |}.

Definition accountZ : ProgramAccount :=
  {| pubkey := "AccountZ"; data := Some {| mint := "MintZ"; tokenAmount := "3" |} |}.

Definition balanceZ : TokenBalance TokenInfo :=
  {| account := accountZ; token := tokenZ; balance := "3" |}.

Definition swapZ : SwapResponse :=
  {| swapTransaction := "T3RoZXI="; swapLastValidBlockHeight := 991 |}.

Definition assetZ : Asset :=
  {| asset := balanceZ; swap := Some swapZ; checked := Some true |}.

Definition otherTx : VersionedTransaction :=
  {| message := {| payerKey := "Aggregator"; recentBlockhash := "Other";
                   instructions := [] |};
     signatures := [] |}.

Definition assets : list Asset := [Demo.assetX; Demo.assetY; assetZ].

Definition built : list Assembled :=
  [ {| closeAccountTx := Some (build_closeAccountTx "Wallet" "Fetched");
       pushed := Some ("MintX", Demo.payloadTx) |};
    {| closeAccountTx := Some (build_closeAccountTx "Wallet" "Fetched");
       pushed := None |};
    {| closeAccountTx := Some (build_closeAccountTx "Wallet" "Fetched");
       pushed := Some ("MintZ", otherTx) |} ].

Definition garbled : SwapResponse :=
  {| swapTransaction := "not base64!"; swapLastValidBlockHeight := 992 |}.

(** The same garbled payload on an approved asset and on one the
    user did not approve. *)
Definition assetG : Asset :=
  {| asset := Demo.balanceY; swap := Some garbled; checked := Some true |}.

Definition ignoredG : Asset :=
  {| asset := Demo.balanceY; swap := Some garbled; checked := Some false |}.

Definition with_garbled : list Asset := [ignoredG; Demo.assetX; assetG; assetZ].

(** A wallet that returns one transaction more than it was given. *)
Definition generous : WalletContextState :=
  {| publicKey := Some "Wallet";
     signAllTransactions :=
       Some (λ txs, Ok (Demo.sign <$> txs ++ [Demo.payloadTx])) |}.

(** A wallet that signs only the first transaction. *)
Definition partial : WalletContextState :=
  {| publicKey := Some "Wallet";
     signAllTransactions := Some (λ txs, Ok (Demo.sign <$> take 1 txs)) |}.

(** A wallet that returns the transactions unsigned, and a codec that
    refuses to serialize an unsigned transaction. *)
Definition lazy : WalletContextState :=
  {| publicKey := Some "Wallet"; signAllTransactions := Some (λ txs, Ok txs) |}.

Definition serialize (tx : VersionedTransaction) : result (list Byte.byte) :=
  match signatures tx with
  | [] => Throw (Reason "Signature verification failed")
  | _ => Demo.serialize tx
  end.
End Batch.

(** * The two pipelines

    The parameters of [findQuotes] and [sweepTokens] other than the
    lists they iterate over. *)

Section Scooper.
Variable outputMint' : string.
Variable walletAddress : string.
Variable quoteApi : DefaultApi.

Variable js : Language.

(** The wire codec of web3.js, [VersionedTransaction.deserialize] and
    [transaction.serialize()]; either may throw. *)
Variable deserialize : list Byte.byte → result VersionedTransaction.
Variable serialize : VersionedTransaction → result (list Byte.byte).

Variable wallet : WalletContextState.
Variable connection : Connection.

(** ** findQuotes *)

Definition quoteRequest (asset : TokenBalance Value) : QuoteGetRequest :=
  {| inputMint := address_of (token asset);
     outputMint := outputMint';
     amount := Number js (balance asset) |}.

Definition rq (quote : QuoteResponse) : SwapPostRequest :=
  {| userPublicKey := walletAddress; quoteResponse := quote |}.

(** A branch up to [await quoteApi.quoteGet(quoteRequest)]. *)
Definition q_start (i : nat) (asset : TokenBalance Value) : list QEvent :=
  [FoundAssetCallback (address_of (token asset)) asset; QuoteGet (quoteRequest asset)].

(** [await Promise.all(assets.map(async (asset) => ...))] at the point
    where every branch is suspended on its quote request. *)
Definition q_fan_out (assets : list (TokenBalance Value)) : QState :=
  {| q_assets := assets;
     q_branches := map (λ _, AwaitQuote) assets;
     q_trace := fan_out q_start 0 assets;
     q_promise := if assets is [] then Resolved else Pending |}.

(** The state in which [findQuotes] first waits for the aggregator. *)
Definition findQuotes (connection : Connection) (tokens : TokenDirectory)
    : QState :=
  match getTokenAccounts walletAddress connection tokens with
  | Ok assets => q_fan_out assets
  | Throw error =>
      {| q_assets := []; q_branches := [];
         q_trace := top [ConsoleError error];
         q_promise := Resolved |}
  end.

(** The request of branch [i] settles: what the branch does until it
    suspends again or ends, and where it is then. *)
Definition q_continue (i : nat) (asset : TokenBalance Value) (b : QBranch)
    : option (list QEvent * QBranch) :=
  let id := address_of (token asset) in
  match b with
  | AwaitQuote =>
      match quoteGet quoteApi i (quoteRequest asset) with
      | Ok quote => Some ([FoundQuoteCallback id quote; SwapPost (rq quote)], AwaitSwap quote)
      | Throw quoteErr => Some ([ErrorCallback id "Couldn't get quote"], Settled)
      end
  | AwaitSwap quote =>
      match swapPost quoteApi i (rq quote) with
      | Ok swap => Some ([FoundSwapCallback id swap], Settled)
      | Throw swapErr => Some ([ErrorCallback id "Couldn't get swap transaction"], Settled)
      end
  | Settled => None
  end.

Definition q_resume (i : nat) (st : QState) : option QState :=
  asset ← q_assets st !! i;
  b ← q_branches st !! i;
  '(evs, b') ← q_continue i asset b;
  let branches := <[i := b']> (q_branches st) in
  Some {| q_assets := q_assets st;
          q_branches := branches;
          q_trace := q_trace st ++ tagged i evs;
          q_promise := if forallb q_settled branches then Resolved else Pending |}.

Definition q_step (st st' : QState) : Prop := ∃ i, q_resume i st = Some st'.

(** Runs the branches in the order a schedule names them; a name that
    is not a suspended branch is skipped. *)
Definition q_run (schedule : list nat) (st : QState) : QState :=
  foldl (λ st i, default st (q_resume i st)) st schedule.

(** What branch [i] does from start to end, as the answers to its own
    two requests decide. *)
Definition q_script (i : nat) (asset : TokenBalance Value) : list QEvent :=
  let id := address_of (token asset) in
  q_start i asset ++
  match quoteGet quoteApi i (quoteRequest asset) with
  | Throw _ => [ErrorCallback id "Couldn't get quote"]
  | Ok quote =>
      [FoundQuoteCallback id quote; SwapPost (rq quote)] ++
      match swapPost quoteApi i (rq quote) with
      | Ok swap => [FoundSwapCallback id swap]
      | Throw _ => [ErrorCallback id "Couldn't get swap transaction"]
      end
  end.

(** Requests still to be answered before every branch has ended. *)
Definition q_pending (b : QBranch) : nat :=
  match b with AwaitQuote => 2 | AwaitSwap _ => 1 | Settled => 0 end.

Definition q_measure (st : QState) : nat := sum_list (q_pending <$> q_branches st).

(** The events of a branch suspended at [b]. *)
Definition q_view (i : nat) (asset : TokenBalance Value) (b : QBranch) : list QEvent :=
  match b with
  | AwaitQuote => q_start i asset
  | AwaitSwap quote =>
      q_start i asset ++
      [FoundQuoteCallback (address_of (token asset)) quote; SwapPost (rq quote)]
  | Settled => q_script i asset
  end.

Record q_inv (assets : list (TokenBalance Value)) (st : QState) : Prop := {
  q_inv_assets : q_assets st = assets;
  q_inv_length : length (q_branches st) = length assets;
  q_inv_top : ∀ e, (None, e) ∉ q_trace st;
  q_inv_promise :
    q_promise st = if forallb q_settled (q_branches st) then Resolved else Pending;
  q_inv_outside : ∀ i, assets !! i = None → of_branch i (q_trace st) = [];
  q_inv_branch : ∀ i asset b,
    assets !! i = Some asset → q_branches st !! i = Some b →
    of_branch i (q_trace st) = q_view i asset b
    ∧ ∀ quote, b = AwaitSwap quote →
        quoteGet quoteApi i (quoteRequest asset) = Ok quote
}.

(** ** sweepTokens *)

(** The swap payload decoded as the loop does: [atob], the character
    codes, [deserialize]. *)
Definition decode_swap (s : SwapResponse) : result VersionedTransaction :=
  let* swapTransactionBuf := atob (swapTransaction s) in
  deserialize (char_codes swapTransactionBuf).

(** The body of [assets.forEach]. *)
Definition assemble_asset (blockHash : string) (a : Asset) : result Assembled :=
  match checked a, publicKey wallet with
  | Some true, Some pk =>
      let closure :=
        if bool_decide (is_Some (swap a)) || loosely_equals_0n (balance (asset a))
        then Some (build_closeAccountTx pk blockHash) else None in
      match swap a with
      | Some s =>
          let* transaction := decode_swap s in
          Ok {| closeAccountTx := closure;
                pushed := Some (address (token (asset a)), transaction) |}
      | None => Ok {| closeAccountTx := closure; pushed := None |}
      end
  | _, _ => Ok {| closeAccountTx := None; pushed := None |}
  end.

Definition assemble (blockHash : string) (assets : list Asset) : result (list Assembled) :=
  mapR (assemble_asset blockHash) assets.

(** The array [transactions] after the loop. *)
Definition queue (built : list Assembled) : list (string * VersionedTransaction) :=
  omap pushed built.

(** The branch of the [i]-th signed transaction up to its [await], or
    to its end when [serialize] throws.  [transactions[i]] is missing
    when the wallet returned more transactions than it was given:
    reading its first component throws, before any callback. *)
Definition s_start (transactions : list (string * VersionedTransaction))
    (i : nat) (transaction : VersionedTransaction) : list SEvent :=
  match transactions !! i with
  | None => []
  | Some (assetId, _) =>
      TransactionStateCallback assetId "Scooping" ::
      match serialize transaction with
      | Ok raw => [SendAndConfirmRawTransaction i raw]
      | Throw err =>
          [TransactionStateCallback assetId "Error";
           SweepErrorCallback assetId (Caught err)]
      end
  end.

Definition s_branch (transactions : list (string * VersionedTransaction))
    (i : nat) (transaction : VersionedTransaction) : SBranch :=
  match transactions !! i, serialize transaction with
  | Some (assetId, _), Ok raw => AwaitConfirm assetId raw
  | _, _ => Finished
  end.

(** The [catch] of the signing block. *)
Definition caught_signing (error : JsError) : list SEvent :=
  [SweepConsoleError error;
   SweepErrorCallback "" (Literal "Failed signing transactions!")].

Definition signing_failed (error : JsError) : list (option nat * SEvent) :=
  top (caught_signing error).

(** [await Promise.all(signedTransactions.map(async ...))] at the
    point where every branch is suspended or has ended.  A branch
    that threw rejects the [Promise.all] at once: the [catch] runs
    while the other submissions are still in flight. *)
Definition s_fan_out (before : list SEvent)
    (transactions : list (string * VersionedTransaction))
    (signedTransactions : list VersionedTransaction) : SState :=
  let branches := branches_from (s_branch transactions) 0 signedTransactions in
  let started := top before ++ fan_out (s_start transactions) 0 signedTransactions in
  if decide (length transactions < length signedTransactions) then
    {| s_branches := branches;
       s_trace := started ++ signing_failed TypeError;
       s_promise := Resolved |}
  else
    {| s_branches := branches;
       s_trace := started;
       s_promise := if forallb s_finished branches then Resolved else Pending |}.

(** The state in which [sweepTokens] first waits for a submission, or
    has ended. *)
Definition sweepTokens (assets : list Asset) : SState :=
  match getLatestBlockhash connection with
  | Throw e =>
      {| s_branches := []; s_trace := top [GetLatestBlockhash]; s_promise := Rejected e |}
  | Ok latest =>
      let blockHash := blockhash latest in
      match assemble blockHash assets with
      | Throw e =>
          {| s_branches := []; s_trace := top [GetLatestBlockhash]; s_promise := Rejected e |}
      | Ok built =>
          let transactions := queue built in
          match signAllTransactions wallet with
          | None =>
              {| s_branches := []; s_trace := top [GetLatestBlockhash];
                 s_promise := Resolved |}
          | Some sign =>
              let unsigned := transactions.*2 in
              let before := [GetLatestBlockhash; SignAllTransactions unsigned] in
              match sign unsigned with
              | Throw error =>
                  {| s_branches := [];
                     s_trace := top before ++ signing_failed error;
                     s_promise := Resolved |}
              | Ok signedTransactions =>
                  s_fan_out before transactions signedTransactions
              end
          end
      end
  end.

(** The submission of branch [i] settles. *)
Definition s_continue (i : nat) (b : SBranch) : option (list SEvent) :=
  match b with
  | AwaitConfirm assetId raw =>
      match sendAndConfirmRawTransaction connection i raw with
      | Ok result => Some [TransactionStateCallback assetId "Scooped"]
      | Throw err =>
          Some [TransactionStateCallback assetId "Error";
                SweepErrorCallback assetId (Caught err)]
      end
  | Finished => None
  end.

Definition s_resume (i : nat) (st : SState) : option SState :=
  b ← s_branches st !! i;
  evs ← s_continue i b;
  let branches := <[i := Finished]> (s_branches st) in
  Some {| s_branches := branches;
          s_trace := s_trace st ++ tagged i evs;
          s_promise :=
            match s_promise st with
            | Pending => if forallb s_finished branches then Resolved else Pending
            | p => p
            end |}.

Definition s_step (st st' : SState) : Prop := ∃ i, s_resume i st = Some st'.

Definition s_run (schedule : list nat) (st : SState) : SState :=
  foldl (λ st i, default st (s_resume i st)) st schedule.

(** What the branch of the [i]-th signed transaction does from start
    to end, as [serialize] and the answer to its own submission decide. *)
Definition s_script (transactions : list (string * VersionedTransaction))
    (i : nat) (transaction : VersionedTransaction) : list SEvent :=
  s_start transactions i transaction ++
  match transactions !! i, serialize transaction with
  | Some (assetId, _), Ok raw =>
      match sendAndConfirmRawTransaction connection i raw with
      | Ok _ => [TransactionStateCallback assetId "Scooped"]
      | Throw err =>
          [TransactionStateCallback assetId "Error";
           SweepErrorCallback assetId (Caught err)]
      end
  | _, _ => []
  end.

(** The events of a branch that is at [b]. *)
Definition s_view (transactions : list (string * VersionedTransaction))
    (i : nat) (transaction : VersionedTransaction) (b : SBranch) : list SEvent :=
  match b with
  | AwaitConfirm _ _ => s_start transactions i transaction
  | Finished => s_script transactions i transaction
  end.

Record s_inv (before : list SEvent)
    (transactions : list (string * VersionedTransaction))
    (signed : list VersionedTransaction) (st : SState) : Prop := {
  s_inv_length : length (s_branches st) = length signed;
  s_inv_head : ∃ rest, s_trace st = top before ++ rest;
  s_inv_top :
    of_top (s_trace st) =
    before ++ if decide (length transactions < length signed)
              then caught_signing TypeError else [];
  s_inv_promise :
    s_promise st =
    if decide (length transactions < length signed) then Resolved
    else if forallb s_finished (s_branches st) then Resolved else Pending;
  s_inv_outside : ∀ i, signed !! i = None → of_branch i (s_trace st) = [];
  s_inv_branch : ∀ i tx b,
    signed !! i = Some tx → s_branches st !! i = Some b →
    of_branch i (s_trace st) = s_view transactions i tx b
    ∧ ∀ assetId raw, b = AwaitConfirm assetId raw →
        (∃ t, transactions !! i = Some (assetId, t)) ∧ serialize tx = Ok raw
}.

(** How far [sweepTokens] got, and the state it is in. *)
Inductive s_reached (assets : list Asset) (st : SState) : Prop :=
  | reached_no_blockhash e :
      getLatestBlockhash connection = Throw e →
      st = {| s_branches := []; s_trace := top [GetLatestBlockhash];
              s_promise := Rejected e |} →
      s_reached assets st
  | reached_no_assembly latest e :
      getLatestBlockhash connection = Ok latest →
      assemble (blockhash latest) assets = Throw e →
      st = {| s_branches := []; s_trace := top [GetLatestBlockhash];
              s_promise := Rejected e |} →
      s_reached assets st
  | reached_no_signer latest built :
      getLatestBlockhash connection = Ok latest →
      assemble (blockhash latest) assets = Ok built →
      signAllTransactions wallet = None →
      st = {| s_branches := []; s_trace := top [GetLatestBlockhash];
              s_promise := Resolved |} →
      s_reached assets st
  | reached_signing_failed latest built sign error :
      getLatestBlockhash connection = Ok latest →
      assemble (blockhash latest) assets = Ok built →
      signAllTransactions wallet = Some sign →
      sign (queue built).*2 = Throw error →
      st = {| s_branches := [];
              s_trace := top [GetLatestBlockhash; SignAllTransactions (queue built).*2]
                         ++ signing_failed error;
              s_promise := Resolved |} →
      s_reached assets st
  | reached_submitting latest built sign signed :
      getLatestBlockhash connection = Ok latest →
      assemble (blockhash latest) assets = Ok built →
      signAllTransactions wallet = Some sign →
      sign (queue built).*2 = Ok signed →
      s_inv [GetLatestBlockhash; SignAllTransactions (queue built).*2]
            (queue built) signed st →
      s_reached assets st.

(** ** The input seen from the loop's guards *)

(** An asset for which the loop of [sweepTokens] reaches the decoding
    of a swap payload: approved, with a wallet that has a public key,
    and carrying a payload. *)
Definition enqueued (a : Asset) : bool :=
  bool_decide (checked a = Some true)
  && bool_decide (is_Some (publicKey wallet))
  && bool_decide (is_Some (swap a)).

(** * Facts *)

Lemma sum_list_insert (l : list nat) i x y :
  l !! i = Some x → sum_list (<[i:=y]> l) + x = sum_list l + y.
Proof.
  revert i. induction l as [|z l IH]; intros i; [done|].
  destruct i as [|i]; intros H.
  - injection H as ->. cbn. lia.
  - specialize (IH i H).
    change (z + sum_list (<[i:=y]> l) + x = z + sum_list l + y). lia.
Qed.

Lemma forallb_false_lookup {A} (f : A → bool) (l : list A) :
  forallb f l = false → ∃ i x, l !! i = Some x ∧ f x = false.
Proof.
  induction l as [|x l IH]; cbn; [done|].
  destruct (f x) eqn:Hx; cbn.
  - intros (i & y & Hi & Hy)%IH. by exists (S i), y.
  - intros _. by exists 0, x.
Qed.

Lemma forallb_true_lookup {A} (f : A → bool) (l : list A) i x :
  forallb f l = true → l !! i = Some x → f x = true.
Proof.
  revert i. induction l as [|y l IH]; intros i; cbn; [done|].
  intros [Hy Hl]%andb_prop. destruct i; cbn; [by intros [= <-]|by apply IH].
Qed.

Lemma mapR_Ok {A B} (f : A → result B) (l : list A) (r : list B) :
  mapR f l = Ok r → Forall2 (λ x y, f x = Ok y) l r.
Proof.
  revert r. induction l as [|x l IH]; intros r; cbn.
  - intros [= <-]. constructor.
  - destruct (f x) as [y|] eqn:Hx; [|done]. cbn.
    destruct (mapR f l) as [ys|]; [|done]. cbn.
    intros [= <-]. constructor; [done|by apply IH].
Qed.

Lemma mapR_returns {A B} (f : A → result B) (l : list A) :
  Forall (λ x, ∃ y, f x = Ok y) l → ∃ r, mapR f l = Ok r.
Proof.
  induction 1 as [|x l [y Hy] _ [r Hr]]; cbn; [by eexists|].
  rewrite Hy, Hr. cbn. by eexists.
Qed.

Section TraceFacts.
Context {E : Type}.
Implicit Types (tr : list (option nat * E)) (evs : list E).

Lemma length_branches_from {A B} (g : nat → A → B) k (l : list A) :
  length (branches_from g k l) = length l.
Proof. revert k. induction l as [|x l IH]; intros k; cbn; [done|]. by rewrite IH. Qed.

Lemma lookup_branches_from {A B} (g : nat → A → B) k (l : list A) i :
  branches_from g k l !! i = g (k + i) <$> l !! i.
Proof.
  revert k i. induction l as [|x l IH]; intros k i; [done|].
  destruct i as [|i]; cbn.
  - by rewrite Nat.add_0_r.
  - rewrite IH. by replace (S k + i) with (k + S i) by lia.
Qed.

Lemma of_top_app tr1 tr2 : of_top (tr1 ++ tr2) = of_top tr1 ++ of_top tr2.
Proof. apply omap_app. Qed.

Lemma of_top_top evs : of_top (top evs) = evs.
Proof. induction evs as [|e evs IH]; [done|]. cbn. by f_equal. Qed.

Lemma of_top_tagged i evs : of_top (tagged i evs) = [].
Proof. induction evs as [|e evs IH]; [done|]. cbn. exact IH. Qed.

Lemma of_top_fan_out {A} (g : nat → A → list E) k (l : list A) :
  of_top (fan_out g k l) = [].
Proof.
  revert k. induction l as [|x l IH]; intros k; cbn [fan_out]; [done|].
  by rewrite of_top_app, of_top_tagged, IH.
Qed.

Lemma elem_of_of_top tr e : e ∈ of_top tr ↔ (None, e) ∈ tr.
Proof.
  unfold of_top. rewrite list_elem_of_omap. split.
  - intros ([o e'] & Hin & Hd). cbn in Hd. case_decide; [|done].
    cbn in *. by simplify_eq.
  - intros Hin. exists (None, e). split; [done|]. cbn. by rewrite decide_True.
Qed.


Lemma of_branch_app i tr1 tr2 :
  of_branch i (tr1 ++ tr2) = of_branch i tr1 ++ of_branch i tr2.
Proof. apply omap_app. Qed.

Lemma of_branch_tagged i evs : of_branch i (tagged i evs) = evs.
Proof.
  induction evs as [|e evs IH]; [done|].
  cbn. rewrite decide_True by done. cbn. f_equal. exact IH.
Qed.

Lemma of_branch_tagged_ne i j evs : i ≠ j → of_branch i (tagged j evs) = [].
Proof.
  intros Hne. induction evs as [|e evs IH]; [done|].
  cbn. rewrite decide_False by congruence. exact IH.
Qed.

Lemma of_branch_top i evs : of_branch i (top evs) = [].
Proof. induction evs as [|e evs IH]; [done|]. cbn. exact IH. Qed.

Lemma of_branch_fan_out {A} (g : nat → A → list E) i k (l : list A) :
  of_branch i (fan_out g k l) =
  if decide (k ≤ i)%nat then from_option (g i) [] (l !! (i - k)) else [].
Proof.
  revert k. induction l as [|x l IH]; intros k; cbn [fan_out].
  - cbn. by case_decide.
  - rewrite of_branch_app, IH.
    destruct (decide (i = k)) as [->|Hne].
    + rewrite of_branch_tagged, decide_False by lia.
      rewrite decide_True by lia. rewrite Nat.sub_diag. cbn.
      by rewrite app_nil_r.
    + rewrite of_branch_tagged_ne by done. cbn.
      repeat case_decide; try lia; [|done].
      replace (i - k) with (S (i - S k)) by lia. done.
Qed.
Lemma fan_out_no_top {A} (g : nat → A → list E) k (l : list A) e :
  (None, e) ∉ fan_out g k l.
Proof.
  revert k. induction l as [|x l IH]; intros k; cbn [fan_out].
  - apply not_elem_of_nil.
  - rewrite elem_of_app. intros [H|H]; [|by eapply IH].
    unfold tagged in H. apply list_elem_of_fmap in H as (? & [=] & _).
Qed.

Lemma tagged_no_top i evs e : (None, e) ∉ tagged i evs.
Proof. unfold tagged. intros H. apply list_elem_of_fmap in H as (? & [=] & _). Qed.

(** An event of the trace is an event of the branch that carries its tag. *)
Lemma elem_of_of_branch i tr e : e ∈ of_branch i tr ↔ (Some i, e) ∈ tr.
Proof.
  unfold of_branch. rewrite list_elem_of_omap. split.
  - intros ([o e'] & Hin & Hd). cbn in Hd. case_decide; [|done].
    cbn in *. by simplify_eq.
  - intros Hin. exists (Some i, e). split; [done|]. cbn. by rewrite decide_True.
Qed.

(** Every event of a trace belongs to the body or to a branch. *)
Lemma elem_of_untagged tr e :
  e ∈ untagged tr ↔ e ∈ of_top tr ∨ ∃ i, e ∈ of_branch i tr.
Proof.
  unfold untagged. rewrite list_elem_of_fmap. split.
  - intros ([[i|] e'] & -> & Hin); cbn.
    + right. exists i. by apply elem_of_of_branch.
    + left. by apply elem_of_of_top.
  - intros [H|[i H]].
    + exists (None, e). split; [done|]. by apply elem_of_of_top.
    + exists (Some i, e). split; [done|]. by apply elem_of_of_branch.
Qed.
End TraceFacts.

Arguments of_branch {E} i tr : simpl never.
Arguments of_top {E} tr : simpl never.


Lemma mapR_Throw {A B} (f : A → result B) (before : list A) x after e :
  Forall (λ y, ∃ r, f y = Ok r) before → f x = Throw e →
  mapR f (before ++ x :: after) = Throw e.
Proof.
  intros Hbefore Hx. induction Hbefore as [|y before [r Hy] _ IH]; cbn.
  - by rewrite Hx.
  - by rewrite Hy, IH.
Qed.

Lemma mapR_Throw_inv {A B} (f : A → result B) (l : list A) e :
  mapR f l = Throw e →
  ∃ before x after,
    l = before ++ x :: after ∧ Forall (λ y, ∃ r, f y = Ok r) before ∧ f x = Throw e.
Proof.
  induction l as [|x l IH]; cbn; [done|].
  destruct (f x) as [y|e'] eqn:Hx; cbn.
  - destruct (mapR f l) as [ys|e'] eqn:Hl; cbn; [done|]. intros [= ->].
    destruct (IH eq_refl) as (before & x' & after & -> & Hbefore & Hx').
    exists (x :: before), x', after. split; [done|]. split; [|done].
    constructor; [by eexists|done].
  - intros [= ->]. exists [], x, l. by repeat split.
Qed.

Lemma forallb_true_Forall {A} (f : A → bool) (l : list A) :
  forallb f l = true ↔ Forall (λ x, f x = true) l.
Proof.
  induction l as [|x l IH]; cbn; [done|].
  rewrite andb_true_iff, Forall_cons. by rewrite IH.
Qed.

Section MoreTraceFacts.
Context {E : Type}.
Implicit Types (tr : list (option nat * E)) (evs : list E).

Lemma untagged_app tr1 tr2 : untagged (tr1 ++ tr2) = untagged tr1 ++ untagged tr2.
Proof. apply map_app. Qed.

Lemma untagged_of_tagged i evs : untagged (tagged i evs) = evs.
Proof. unfold untagged, tagged. rewrite map_map. cbn. apply map_id. Qed.

Lemma untagged_of_top evs : untagged (top evs) = evs.
Proof. unfold untagged, top. rewrite map_map. cbn. apply map_id. Qed.

Lemma untagged_fan_out {A} (g : nat → A → list E) k (l : list A) :
  untagged (fan_out g k l) = mjoin (imap (λ i, g (k + i)) l).
Proof.
  revert k. induction l as [|x l IH]; intros k; [done|].
  cbn [fan_out imap mjoin list_join].
  rewrite untagged_app, untagged_of_tagged, IH, Nat.add_0_r. f_equal. f_equal.
  apply imap_ext. intros i y _. cbn. f_equal. lia.
Qed.
End MoreTraceFacts.
(** ** The quote pipeline: what every reachable state looks like *)


Lemma q_inv_fan_out assets : q_inv assets (q_fan_out assets).
Proof.
  split; cbn.
  - done.
  - by rewrite length_map.
  - intros e. apply fan_out_no_top.
  - by destruct assets.
  - intros i Hi. rewrite of_branch_fan_out. case_decide; [|done].
    by rewrite Nat.sub_0_r, Hi.
  - intros i asset b Hi Hb.
    rewrite list_lookup_fmap, Hi in Hb. injection Hb as <-.
    split; [|done]. rewrite of_branch_fan_out, decide_True by lia.
    by rewrite Nat.sub_0_r, Hi.
Qed.

Lemma q_view_continue i asset b evs b' :
  (∀ quote, b = AwaitSwap quote → quoteGet quoteApi i (quoteRequest asset) = Ok quote) →
  q_continue i asset b = Some (evs, b') →
  q_view i asset b ++ evs = q_view i asset b'
  ∧ ∀ quote, b' = AwaitSwap quote → quoteGet quoteApi i (quoteRequest asset) = Ok quote.
Proof.
  intros Hq Hc. destruct b as [|quote|]; cbn in Hc.
  - destruct (quoteGet _ _ _) as [quote|e] eqn:Hget; injection Hc as <- <-.
    + split; [done|]. by intros ? [= <-].
    + split; [|done]. cbn. unfold q_script. by rewrite Hget.
  - specialize (Hq quote eq_refl).
    assert (q_view i asset Settled =
            q_view i asset (AwaitSwap quote) ++ evs) as Heq.
    { cbn. unfold q_script. rewrite Hq.
      destruct (swapPost _ _ _); by injection Hc as <- <-. }
    destruct (swapPost _ _ _); injection Hc as <- <-; by split.
  - done.
Qed.

Lemma q_resume_inv assets i st st' :
  q_inv assets st → q_resume i st = Some st' → q_inv assets st'.
Proof.
  intros [Ha Hl Ht Hp Hout Hb] Hr. unfold q_resume in Hr.
  destruct (q_assets st !! i) as [asset|] eqn:Hi; [|done].
  destruct (q_branches st !! i) as [b|] eqn:Hbi; [|done].
  cbn in Hr. destruct (q_continue i asset b) as [[evs b']|] eqn:Hc; [|done].
  cbn in Hr. injection Hr as <-. rewrite Ha in Hi.
  destruct (Hb i asset b Hi Hbi) as [Hview Hq].
  destruct (q_view_continue _ _ _ _ _ Hq Hc) as [Hview' Hq'].
  split; cbn.
  - done.
  - by rewrite length_insert.
  - intros e. rewrite elem_of_app. intros [H|H]; [by eapply Ht|by eapply tagged_no_top].
  - done.
  - intros j Hj. rewrite of_branch_app, Hout by done.
    rewrite of_branch_tagged_ne; [done|]. intros ->. by rewrite Hj in Hi.
  - intros j asset' bj Hj Hbj. rewrite of_branch_app.
    destruct (decide (j = i)) as [->|Hne].
    + rewrite list_lookup_insert_eq in Hbj by (by eapply lookup_lt_Some).
      injection Hbj as <-. rewrite Hi in Hj. injection Hj as <-.
      rewrite of_branch_tagged, Hview. done.
    + rewrite list_lookup_insert_ne in Hbj by done.
      rewrite of_branch_tagged_ne, app_nil_r by done. by apply Hb.
Qed.

Lemma q_reachable_inv assets st :
  rtc q_step (q_fan_out assets) st → q_inv assets st.
Proof.
  revert st. apply rtc_ind_r.
  - apply q_inv_fan_out.
  - intros st st' _ [i Hi] IH. by eapply q_resume_inv.
Qed.

Lemma findQuotes_reachable conn tokens st :
  rtc q_step (findQuotes conn tokens) st →
  (∃ assets, getTokenAccounts walletAddress conn tokens = Ok assets
             ∧ q_inv assets st)
  ∨ (∃ error, getTokenAccounts walletAddress conn tokens = Throw error
              ∧ st = findQuotes conn tokens).
Proof.
  unfold findQuotes.
  destruct (getTokenAccounts _ _ _) as [assets|error]; intros H.
  - left. exists assets. split; [done|]. by apply q_reachable_inv.
  - right. exists error. split; [done|].
    apply rtc_inv in H as [<-|(st' & [i Hi] & _)]; [done|].
    unfold q_resume in Hi. cbn in Hi. by rewrite lookup_nil in Hi.
Qed.

Lemma q_view_prefix i asset b :
  (∀ quote, b = AwaitSwap quote → quoteGet quoteApi i (quoteRequest asset) = Ok quote) →
  q_view i asset b `prefix_of` q_script i asset.
Proof.
  intros Hq. destruct b as [|quote|]; cbn.
  - by eexists.
  - unfold q_script. rewrite (Hq quote eq_refl). by eexists.
  - done.
Qed.




(** *** Progress and termination *)

Lemma q_continue_pending i asset b evs b' :
  q_continue i asset b = Some (evs, b') → q_pending b' < q_pending b.
Proof.
  destruct b; cbn; [destruct (quoteGet _ _ _)|destruct (swapPost _ _ _)|];
    intros [= <- <-] || intros [=]; cbn; lia.
Qed.

Lemma q_resume_measure i st st' :
  q_resume i st = Some st' → q_measure st' < q_measure st.
Proof.
  unfold q_resume, q_measure. intros Hr.
  destruct (q_assets st !! i) as [asset|]; [|done].
  destruct (q_branches st !! i) as [b|] eqn:Hb; [|done].
  cbn in Hr. destruct (q_continue i asset b) as [[evs b']|] eqn:Hc; [|done].
  cbn in Hr. injection Hr as <-. cbn.
  apply q_continue_pending in Hc.
  rewrite list_fmap_insert.
  pose proof (sum_list_insert (q_pending <$> q_branches st) i (q_pending b)
                (q_pending b')) as Hs.
  rewrite list_lookup_fmap, Hb in Hs. specialize (Hs eq_refl). lia.
Qed.

Lemma q_resume_enabled assets st i asset b :
  q_inv assets st → assets !! i = Some asset → q_branches st !! i = Some b →
  b ≠ Settled →
  ∃ st', q_resume i st = Some st'
         ∧ ∀ k, k ≠ i → q_branches st' !! k = q_branches st !! k.
Proof.
  intros Hinv Hi Hb Hne. unfold q_resume.
  rewrite (q_inv_assets _ _ Hinv), Hi, Hb. cbn.
  destruct b; [| |done]; cbn;
    [destruct (quoteGet _ _ _)|destruct (swapPost _ _ _)]; cbn;
    eexists; (split; [done|]); intros k Hk; cbn;
    by rewrite list_lookup_insert_ne.
Qed.

Lemma q_run_reachable schedule st : rtc q_step st (q_run schedule st).
Proof.
  revert st. induction schedule as [|i schedule IH]; intros st; [done|].
  cbn. destruct (q_resume i st) as [st'|] eqn:Hr; cbn; [|apply IH].
  eapply rtc_l; [by exists i|apply IH].
Qed.

Lemma q_run_inv assets schedule st :
  q_inv assets st → q_inv assets (q_run schedule st).
Proof.
  revert st. induction schedule as [|i schedule IH]; intros st Hinv; [done|].
  cbn. apply IH. destruct (q_resume i st) eqn:Hr; [by eapply q_resume_inv|done].
Qed.

(** Resuming a branch brings it one request closer to its end. *)
Lemma q_resume_advances assets st i asset b :
  q_inv assets st → assets !! i = Some asset → q_branches st !! i = Some b →
  ∃ b', q_branches (default st (q_resume i st)) !! i = Some b'
        ∧ (q_pending b' ≤ q_pending b - 1)%nat.
Proof.
  intros Hinv Hi Hb. unfold q_resume.
  rewrite (q_inv_assets _ _ Hinv), Hi, Hb. cbn.
  destruct (q_continue i asset b) as [[evs b']|] eqn:Hc; cbn.
  - exists b'. rewrite list_lookup_insert_eq by (by eapply lookup_lt_Some).
    split; [done|]. apply q_continue_pending in Hc. lia.
  - exists b. split; [done|].
    destruct b; cbn in Hc;
      [by destruct (quoteGet _ _ _)|by destruct (swapPost _ _ _)|cbn; lia].
Qed.

Lemma q_twice_settles assets st i asset :
  q_inv assets st → assets !! i = Some asset →
  q_branches (q_run [i; i] st) !! i = Some Settled.
Proof.
  intros Hinv Hi.
  destruct (lookup_lt_is_Some_2 (q_branches st) i) as [b Hb].
  { rewrite (q_inv_length _ _ Hinv). by eapply lookup_lt_Some. }
  destruct (q_resume_advances _ _ _ _ _ Hinv Hi Hb) as (b1 & Hb1 & Hp1).
  assert (q_inv assets (default st (q_resume i st))) as Hinv1.
  { destruct (q_resume i st) eqn:Hr; [by eapply q_resume_inv|done]. }
  destruct (q_resume_advances _ _ _ _ _ Hinv1 Hi Hb1) as (b2 & Hb2 & Hp2).
  cbn. rewrite Hb2. f_equal.
  destruct b2; [| |done]; destruct b, b1; cbn in *; lia.
Qed.

Lemma q_resume_other i j st st' :
  q_resume i st = Some st' → j ≠ i → q_branches st' !! j = q_branches st !! j.
Proof.
  unfold q_resume. intros Hr Hne.
  destruct (q_assets st !! i) as [asset|]; [|done].
  destruct (q_branches st !! i) as [b|]; [|done]. cbn in Hr.
  destruct (q_continue i asset b) as [[evs b']|]; [|done]. cbn in Hr.
  injection Hr as <-. cbn. by apply list_lookup_insert_ne.
Qed.

(** Along a schedule, a branch comes one request closer to its end each
    time the schedule names it. *)
Lemma q_run_pending assets schedule st j asset b :
  q_inv assets st → assets !! j = Some asset → q_branches st !! j = Some b →
  ∃ b', q_branches (q_run schedule st) !! j = Some b'
        ∧ (q_pending b' ≤ q_pending b - length (filter (λ k, k = j) schedule))%nat.
Proof.
  revert st b. induction schedule as [|k schedule IH]; intros st b Hinv Hj Hb.
  - exists b. split; [done|]. cbn. lia.
  - assert (q_inv assets (default st (q_resume k st))) as Hinv1.
    { destruct (q_resume k st) eqn:Hr; [by eapply q_resume_inv|done]. }
    assert (∃ b1, q_branches (default st (q_resume k st)) !! j = Some b1
                  ∧ (q_pending b1 ≤ q_pending b
                                    - length (filter (λ k', k' = j) [k]))%nat)
      as (b1 & Hb1 & Hp1).
    { destruct (decide (k = j)) as [->|Hne].
      - destruct (q_resume_advances _ _ _ _ _ Hinv Hj Hb) as (b1 & ? & ?).
        exists b1. split; [done|]. rewrite filter_cons, decide_True by done. cbn. lia.
      - exists b. rewrite filter_cons, decide_False by done. cbn.
        split; [|lia].
        destruct (q_resume k st) eqn:Hr; cbn; [|done].
        rewrite <- Hb. by eapply q_resume_other. }
    destruct (IH _ b1 Hinv1 Hj Hb1) as (b' & Hb' & Hp').
    exists b'. split; [exact Hb'|].
    change (k :: schedule) with ([k] ++ schedule).
    rewrite filter_app, length_app. lia.
Qed.

(** Once the schedule has answered both requests of every asset, the
    promise is resolved. *)
Lemma q_run_resolves assets schedule st :
  q_inv assets st →
  (∀ j, j < length assets → (2 ≤ length (filter (λ k, k = j) schedule))%nat) →
  q_promise (q_run schedule st) = Resolved.
Proof.
  intros Hinv Hfair.
  pose proof (q_run_inv assets schedule st Hinv) as Hinv'.
  rewrite (q_inv_promise _ _ Hinv').
  destruct (forallb q_settled (q_branches (q_run schedule st))) eqn:Hall; [done|].
  apply forallb_false_lookup in Hall as (j & b' & Hb' & Hf).
  assert (j < length assets) as Hlt.
  { rewrite <- (q_inv_length _ _ Hinv'). by eapply lookup_lt_Some. }
  destruct (lookup_lt_is_Some_2 assets j Hlt) as [asset Hj].
  destruct (lookup_lt_is_Some_2 (q_branches st) j) as [b Hb].
  { by rewrite (q_inv_length _ _ Hinv). }
  destruct (q_run_pending _ schedule _ _ _ _ Hinv Hj Hb) as (b'' & Hb'' & Hp).
  rewrite Hb' in Hb''. injection Hb'' as <-.
  specialize (Hfair j Hlt). destruct b, b'; cbn in *; try done; lia.
Qed.

(** *** The claims about the quote pipeline *)


(** C4.  Whatever the requests of the other assets do, the branch of
    asset [j] is never held back.  In every reachable state its
    found-asset callback has already fired; while it is suspended it
    can be resumed, and resuming it leaves the other branches where
    they are; resumed twice it has run to its end, and what it has
    then done is the script that the answers to its own two requests
    decide, as it is once the pipeline's promise has resolved.  The
    script calls the quote callback when the quote request succeeds
    and the swap callback when the swap request succeeds too. *)
Theorem findQuotes_branches_isolated conn tokens st j asset :
  rtc q_step (findQuotes conn tokens) st → q_assets st !! j = Some asset →
  let id := address_of (token asset) in
  (Some j, FoundAssetCallback id asset) ∈ q_trace st
  ∧ (∀ b, q_branches st !! j = Some b → b ≠ Settled →
       ∃ st', q_resume j st = Some st'
              ∧ ∀ k, k ≠ j → q_branches st' !! k = q_branches st !! k)
  ∧ of_branch j (q_trace (q_run [j; j] st)) = q_script j asset
  ∧ (q_promise st = Resolved → of_branch j (q_trace st) = q_script j asset)
  ∧ (∀ quote, quoteGet quoteApi j (quoteRequest asset) = Ok quote →
       FoundQuoteCallback id quote ∈ q_script j asset
       ∧ ∀ swap, swapPost quoteApi j (rq quote) = Ok swap →
           FoundSwapCallback id swap ∈ q_script j asset).
Proof.
  intros Hreach Hj id.
  destruct (findQuotes_reachable _ _ st Hreach) as [(assets & Hscan & Hinv)|(e & He & ->)];
    [|unfold findQuotes in Hj; rewrite He in Hj; cbn in Hj; by rewrite lookup_nil in Hj].
  rewrite (q_inv_assets _ _ Hinv) in Hj.
  destruct (lookup_lt_is_Some_2 (q_branches st) j) as [b Hb].
  { rewrite (q_inv_length _ _ Hinv). by eapply lookup_lt_Some. }
  destruct (q_inv_branch _ _ Hinv j asset b Hj Hb) as [Hview Hq].
  repeat split.
  - apply elem_of_of_branch. rewrite Hview.
    destruct (q_view_prefix j asset AwaitQuote) as [k Hk]; [done|].
    destruct b; cbn; unfold q_script, q_start; set_solver.
  - intros b' Hb' Hne. by eapply q_resume_enabled.
  - assert (q_inv assets (q_run [j; j] st)) as Hinv2.
    { by apply q_run_inv. }
    pose proof (q_twice_settles _ _ _ _ Hinv Hj) as Hs.
    by destruct (q_inv_branch _ _ Hinv2 j asset Settled Hj Hs) as [-> _].
  - intros Hres. rewrite (q_inv_promise _ _ Hinv) in Hres.
    destruct (forallb q_settled (q_branches st)) eqn:Hall; [|done].
    pose proof (forallb_true_lookup _ _ _ _ Hall Hb) as Hset.
    destruct b; try done.
  - unfold q_script. rewrite H. set_solver.
  - intros swap Hswap. unfold q_script. rewrite H, Hswap. set_solver.
Qed.

(** C7.  The promise [findQuotes] returns never rejects.  It is
    resolved exactly when every branch has ended, and then the last
    thing each branch did was to call the swap callback or the error
    callback.  Until then some branch can be resumed, and every
    resumption lowers the number of requests still to be answered, so
    the promise resolves once the aggregator has answered them.  When
    the scan fails, the error is logged, the promise is resolved, no
    callback is made, and nothing further happens: the caller sees
    exactly what it sees after a scan that returned no asset.
    Whatever the order of the answers, the promise is resolved as soon
    as both requests of every asset have been answered.  When the
    scan returns, there is one branch for every asset it returned:
    the promise is pending as long as one of them has not ended, at
    the start in particular unless the scan returned nothing, and
    when it is resolved every asset's branch has run its whole
    script. *)
Theorem findQuotes_promise_resolves conn tokens st :
  rtc q_step (findQuotes conn tokens) st →
  (∀ e, q_promise st ≠ Rejected e)
  ∧ (q_promise st = Resolved ↔ ∀ i b, q_branches st !! i = Some b → b = Settled)
  ∧ (q_promise st = Resolved → ∀ i asset, q_assets st !! i = Some asset →
       ∃ e, last (of_branch i (q_trace st)) = Some e ∧ ends_branch e)
  ∧ (q_promise st ≠ Resolved → ∃ st', q_step st st')
  ∧ (∀ st', q_step st st' → q_measure st' < q_measure st)
  ∧ (∀ schedule,
       (∀ j, j < length (q_assets st) →
             (2 ≤ length (filter (λ k, k = j) schedule))%nat) →
       q_promise (q_run schedule st) = Resolved)
  ∧ (∀ error, getTokenAccounts walletAddress conn tokens = Throw error →
       q_trace st = top [ConsoleError error]
       ∧ q_promise st = Resolved
       ∧ callbacks (q_trace st) = []
       ∧ (∀ st', ¬ q_step st st')
       ∧ ∀ conn' st',
           getTokenAccounts walletAddress conn' tokens = Ok [] →
           rtc q_step (findQuotes conn' tokens) st' →
           caller_view st = caller_view st')
  ∧ (∀ assets, getTokenAccounts walletAddress conn tokens = Ok assets →
       q_assets st = assets
       ∧ length (q_branches st) = length assets
       ∧ (assets ≠ [] → q_promise (findQuotes conn tokens) = Pending)
       ∧ (q_promise st = Resolved → ∀ i asset, assets !! i = Some asset →
            q_branches st !! i = Some Settled
            ∧ of_branch i (q_trace st) = q_script i asset)).
Proof.
  intros Hreach.
  assert (∀ st', q_step st st' → q_measure st' < q_measure st) as Hdec
    by (intros st' [i Hi]; by eapply q_resume_measure).
  destruct (findQuotes_reachable _ _ st Hreach)
    as [(assets & Hscan & Hinv)|(e & He & ->)].
  - pose proof (q_inv_promise _ _ Hinv) as Hp.
    split; [|split; [|split; [|split; [|split; [|split; [|split]]]]]].
    + intros e. rewrite Hp. by destruct (forallb _ _).
    + rewrite Hp. destruct (forallb q_settled (q_branches st)) eqn:Hall.
      * split; [|done]. intros _ i b Hb.
        pose proof (forallb_true_lookup _ _ _ _ Hall Hb). by destruct b.
      * split; [done|]. intros Hset.
        apply forallb_false_lookup in Hall as (i & b & Hb & Hf).
        by rewrite (Hset i b Hb) in Hf.
    + intros Hres i asset Hi. rewrite Hp in Hres.
      destruct (forallb q_settled (q_branches st)) eqn:Hall; [|done].
      rewrite (q_inv_assets _ _ Hinv) in Hi.
      destruct (lookup_lt_is_Some_2 (q_branches st) i) as [b Hb].
      { rewrite (q_inv_length _ _ Hinv). by eapply lookup_lt_Some. }
      pose proof (forallb_true_lookup _ _ _ _ Hall Hb) as Hset.
      destruct b; try done.
      destruct (q_inv_branch _ _ Hinv i asset Settled Hi Hb) as [-> _].
      unfold q_view, q_script, q_start.
      destruct (quoteGet _ _ _); [destruct (swapPost _ _ _)|]; cbn; by eexists.
    + intros Hres. rewrite Hp in Hres.
      destruct (forallb q_settled (q_branches st)) eqn:Hall; [done|].
      apply forallb_false_lookup in Hall as (i & b & Hb & Hf).
      destruct (lookup_lt_is_Some_2 assets i) as [asset Hi].
      { rewrite <- (q_inv_length _ _ Hinv). by eapply lookup_lt_Some. }
      destruct (q_resume_enabled _ _ _ _ _ Hinv Hi Hb) as (st' & Hst' & _);
        [by destruct b|].
      exists st'. by exists i.
    + done.
    + intros schedule Hfair. apply (q_run_resolves assets); [done|].
      by rewrite <- (q_inv_assets _ _ Hinv).
    + intros error Herr. congruence.
    + intros assets' Hscan'. rewrite Hscan in Hscan'. injection Hscan' as <-.
      split; [apply (q_inv_assets _ _ Hinv)|].
      split; [apply (q_inv_length _ _ Hinv)|]. split.
      * intros Hne. unfold findQuotes. rewrite Hscan. cbn. by destruct assets.
      * intros Hres i asset Hi. rewrite Hp in Hres.
        destruct (forallb q_settled (q_branches st)) eqn:Hall; [|done].
        destruct (lookup_lt_is_Some_2 (q_branches st) i) as [b Hb].
        { rewrite (q_inv_length _ _ Hinv). by eapply lookup_lt_Some. }
        pose proof (forallb_true_lookup _ _ _ _ Hall Hb) as Hset.
        destruct b; try done. split; [done|].
        by destruct (q_inv_branch _ _ Hinv i asset Settled Hi Hb) as [-> _].
  - assert (∀ st', ¬ q_step (findQuotes conn tokens) st') as Hstuck.
    { intros st' [i Hi]. unfold q_resume, findQuotes in Hi. rewrite He in Hi.
      cbn in Hi. by rewrite lookup_nil in Hi. }
    unfold findQuotes in *. rewrite He in *. cbn.
    split; [done|]. split; [|split; [|split; [|split; [|split; [|split]]]]].
    + split; [|done]. intros _ i b Hb. by rewrite lookup_nil in Hb.
    + intros _ i asset Hi. by rewrite lookup_nil in Hi.
    + done.
    + done.
    + intros schedule _. induction schedule as [|k schedule IH]; [done|].
      cbn. unfold q_resume at 2. cbn. by rewrite lookup_nil.
    + intros error [= <-]. repeat split; [done|].
      intros conn' st' Hempty Hreach'.
      destruct (findQuotes_reachable _ _ st' Hreach')
        as [(assets & Hscan & Hinv)|(e' & He' & _)]; [|congruence].
      rewrite Hempty in Hscan. injection Hscan as <-.
      assert (st' = q_fan_out []) as ->; [|done].
      unfold findQuotes in Hreach'. rewrite Hempty in Hreach'.
      apply rtc_inv in Hreach' as [<-|(st1 & [i Hi] & _)]; [done|].
      unfold q_resume in Hi. cbn in Hi. by rewrite lookup_nil in Hi.
    + intros assets [=].
Qed.

(** ** The sweep: what every reachable state looks like *)

Lemma s_inv_fan_out before transactions signed :
  s_inv before transactions signed (s_fan_out before transactions signed).
Proof.
  unfold s_fan_out. set (branches := branches_from _ _ _).
  set (started := top before ++ _).
  assert (length branches = length signed) as Hlen
    by apply length_branches_from.
  assert (of_top started = before) as Htop.
  { unfold started. by rewrite of_top_app, of_top_top, of_top_fan_out, app_nil_r. }
  assert (∀ i, of_branch i started = from_option (s_start transactions i) [] (signed !! i))
    as Hbr.
  { intros i. unfold started.
    rewrite of_branch_app, of_branch_top, of_branch_fan_out, decide_True by lia.
    by rewrite Nat.sub_0_r. }
  assert (∀ i tx b, signed !! i = Some tx → branches !! i = Some b →
            s_start transactions i tx = s_view transactions i tx b
            ∧ ∀ assetId raw, b = AwaitConfirm assetId raw →
                (∃ t, transactions !! i = Some (assetId, t)) ∧ serialize tx = Ok raw)
    as Hview.
  { intros i tx b Hi Hb. unfold branches in Hb.
    rewrite lookup_branches_from, Hi in Hb. cbn in Hb. injection Hb as <-.
    unfold s_branch, s_view, s_script.
    destruct (transactions !! i) as [[assetId t]|]; [|by rewrite app_nil_r].
    destruct (serialize tx) as [raw|]; [|by rewrite app_nil_r].
    split; [done|]. intros ?? [= <- <-]. split; [by eexists|done]. }
  case_decide as Hlt; split; cbn [s_branches s_trace s_promise];
    rewrite ?decide_True, ?decide_False by done; try done.
  - unfold started. rewrite <- app_assoc. by eexists.
  - unfold signing_failed. by rewrite of_top_app, of_top_top, Htop.
  - intros i Hi. unfold signing_failed.
    by rewrite of_branch_app, of_branch_top, app_nil_r, Hbr, Hi.
  - intros i tx b Hi Hb. unfold signing_failed.
    rewrite of_branch_app, of_branch_top, app_nil_r, Hbr, Hi. cbn. by apply Hview.
  - unfold started. by eexists.
  - by rewrite app_nil_r.
  - intros i Hi. by rewrite Hbr, Hi.
  - intros i tx b Hi Hb. rewrite Hbr, Hi. cbn. by apply Hview.
Qed.

Lemma s_resume_inv before transactions signed i st st' :
  s_inv before transactions signed st → s_resume i st = Some st' →
  s_inv before transactions signed st'.
Proof.
  intros [Hl [rest Hhead] Ht Hp Hout Hb] Hr. unfold s_resume in Hr.
  destruct (s_branches st !! i) as [b|] eqn:Hbi; [|done]. cbn in Hr.
  destruct (s_continue i b) as [evs|] eqn:Hc; [|done]. cbn in Hr.
  injection Hr as <-.
  destruct (lookup_lt_is_Some_2 signed i) as [tx Hi].
  { rewrite <- Hl. by eapply lookup_lt_Some. }
  destruct (Hb i tx b Hi Hbi) as [Hview Hawait].
  destruct b as [assetId raw|]; [|done].
  destruct (Hawait assetId raw eq_refl) as [[t Ht'] Hser].
  assert (s_start transactions i tx ++ evs = s_script transactions i tx) as Hfull.
  { unfold s_script. rewrite Ht', Hser. f_equal. cbn in Hc.
    destruct (sendAndConfirmRawTransaction _ _ _); by injection Hc as <-. }
  split; cbn.
  - by rewrite length_insert.
  - rewrite Hhead, <- app_assoc. by eexists.
  - by rewrite of_top_app, of_top_tagged, app_nil_r.
  - rewrite Hp. case_decide; [done|].
    destruct (forallb s_finished (s_branches st)) eqn:Hall; [|done].
    by pose proof (forallb_true_lookup _ _ _ _ Hall Hbi).
  - intros j Hj. rewrite of_branch_app, Hout by done.
    rewrite of_branch_tagged_ne; [done|]. intros ->. by rewrite Hj in Hi.
  - intros j tx' bj Hj Hbj. rewrite of_branch_app.
    destruct (decide (j = i)) as [->|Hne].
    + rewrite list_lookup_insert_eq in Hbj by (by eapply lookup_lt_Some).
      injection Hbj as <-. rewrite Hi in Hj. injection Hj as <-.
      rewrite of_branch_tagged, Hview. cbn. split; [done|]. by intros.
    + rewrite list_lookup_insert_ne in Hbj by done.
      rewrite of_branch_tagged_ne, app_nil_r by done. by apply Hb.
Qed.

Lemma s_reachable_inv before transactions signed st :
  rtc s_step (s_fan_out before transactions signed) st →
  s_inv before transactions signed st.
Proof.
  revert st. apply rtc_ind_r.
  - apply s_inv_fan_out.
  - intros st st' _ [i Hi] IH. by eapply s_resume_inv.
Qed.

Lemma s_no_branches_stuck st st' : s_branches st = [] → ¬ s_step st st'.
Proof.
  intros Hnil [i Hi]. unfold s_resume in Hi. rewrite Hnil in Hi.
  by rewrite lookup_nil in Hi.
Qed.

Lemma s_no_branches_final st st' :
  s_branches st = [] → rtc s_step st st' → st' = st.
Proof.
  intros Hnil H. apply rtc_inv in H as [<-|(st1 & Hstep & _)]; [done|].
  by destruct (s_no_branches_stuck _ _ Hnil Hstep).
Qed.

Lemma sweep_reachable assets st :
  rtc s_step (sweepTokens assets) st → s_reached assets st.
Proof.
  unfold sweepTokens.
  destruct (getLatestBlockhash connection) as [latest|e] eqn:Hlatest;
    [|intros ->%s_no_branches_final; [by eapply reached_no_blockhash|done]].
  destruct (assemble (blockhash latest) assets) as [built|e] eqn:Hbuilt;
    [|intros ->%s_no_branches_final; [by eapply reached_no_assembly|done]].
  destruct (signAllTransactions wallet) as [sign|] eqn:Hsign;
    [|intros ->%s_no_branches_final; [by eapply reached_no_signer|done]].
  destruct (sign (queue built).*2) as [signed|error] eqn:Hsigned;
    [|intros ->%s_no_branches_final; [by eapply reached_signing_failed|done]].
  intros H%s_reachable_inv. by eapply reached_submitting.
Qed.

Lemma s_run_reachable schedule st : rtc s_step st (s_run schedule st).
Proof.
  revert st. induction schedule as [|i schedule IH]; intros st; [done|].
  cbn. destruct (s_resume i st) as [st'|] eqn:Hr; cbn; [|apply IH].
  eapply rtc_l; [by exists i|apply IH].
Qed.

(** The events a branch can produce. *)
Lemma s_script_events transactions i tx e :
  e ∈ s_script transactions i tx →
  ∃ assetId t, transactions !! i = Some (assetId, t)
    ∧ (e = TransactionStateCallback assetId "Scooping"
       ∨ (∃ raw, e = SendAndConfirmRawTransaction i raw ∧ serialize tx = Ok raw)
       ∨ e = TransactionStateCallback assetId "Scooped"
       ∨ e = TransactionStateCallback assetId "Error"
       ∨ ∃ err, e = SweepErrorCallback assetId (Caught err)).
Proof.
  unfold s_script, s_start.
  destruct (transactions !! i) as [[assetId t]|]; [|by intros ?%elem_of_nil].
  intros H. exists assetId, t. split; [done|].
  destruct (serialize tx) as [raw|err];
    [destruct (sendAndConfirmRawTransaction connection i raw) as [r|err]|];
    cbn in H; set_unfold; naive_solver.
Qed.

Lemma s_view_prefix transactions i tx b :
  s_view transactions i tx b `prefix_of` s_script transactions i tx.
Proof. destruct b; cbn; [by eexists|done]. Qed.

Lemma s_branch_events before transactions signed st i e :
  s_inv before transactions signed st → (Some i, e) ∈ s_trace st →
  ∃ tx, signed !! i = Some tx ∧ e ∈ s_script transactions i tx.
Proof.
  intros Hinv Hin. apply elem_of_of_branch in Hin.
  destruct (signed !! i) as [tx|] eqn:Hi;
    [|rewrite (s_inv_outside _ _ _ _ Hinv i Hi) in Hin; by apply elem_of_nil in Hin].
  exists tx. split; [done|].
  destruct (lookup_lt_is_Some_2 (s_branches st) i) as [b Hb].
  { rewrite (s_inv_length _ _ _ _ Hinv). by eapply lookup_lt_Some. }
  destruct (s_inv_branch _ _ _ _ Hinv i tx b Hi Hb) as [Hview _].
  rewrite Hview in Hin. destruct (s_view_prefix transactions i tx b) as [k ->].
  set_solver.
Qed.

Lemma s_top_events before transactions signed st e :
  s_inv before transactions signed st → (None, e) ∈ s_trace st →
  e ∈ before ∨ e ∈ caught_signing TypeError.
Proof.
  intros Hinv Hin. apply elem_of_of_top in Hin.
  rewrite (s_inv_top _ _ _ _ Hinv) in Hin. case_decide; set_solver.
Qed.

(** *** What the loop over the assets builds *)

Lemma assemble_asset_pushed blockHash a r key tx :
  assemble_asset blockHash a = Ok r → pushed r = Some (key, tx) →
  checked a = Some true ∧ is_Some (publicKey wallet)
  ∧ ∃ s, swap a = Some s ∧ decode_swap s = Ok tx
         ∧ key = address (token (asset a)).
Proof.
  unfold assemble_asset.
  destruct (checked a) as [[]|]; [|by intros [= <-]..].
  destruct (publicKey wallet) as [pk|]; [|by intros [= <-]].
  destruct (swap a) as [s|]; [|by intros [= <-]].
  destruct (decode_swap s) as [transaction|] eqn:Hdec; [|done]. cbn.
  intros [= <-] [= <- <-]. repeat split; [by eexists|]. by exists s.
Qed.


Lemma assemble_asset_closure blockHash a r tx :
  assemble_asset blockHash a = Ok r → closeAccountTx r = Some tx →
  recentBlockhash (message tx) = blockHash
  ∧ checked a = Some true
  ∧ ∃ pk, publicKey wallet = Some pk ∧ tx = build_closeAccountTx pk blockHash.
Proof.
  unfold assemble_asset.
  destruct (checked a) as [[]|]; [|by intros [= <-]..].
  destruct (publicKey wallet) as [pk|]; [|by intros [= <-]].
  assert (∀ c : option VersionedTransaction,
            (c = Some (build_closeAccountTx pk blockHash) ∨ c = None) →
            c = Some tx →
            recentBlockhash (message tx) = blockHash
            ∧ Some true = Some true
            ∧ ∃ pk', Some pk = Some pk' ∧ tx = build_closeAccountTx pk' blockHash)
    as Hc.
  { intros c [-> | ->] [= <-]. repeat split. by exists pk. }
  destruct (swap a) as [s|]; [destruct (decode_swap s); [|done]|];
    cbn; intros [= <-]; cbn; apply Hc;
    try match goal with |- context [if ?b then _ else _] => destruct b end; auto.
Qed.

(** The entry pushed for an asset does not depend on the block
    reference. *)
Lemma assemble_asset_pushed_indep blockHash blockHash' a r r' :
  assemble_asset blockHash a = Ok r → assemble_asset blockHash' a = Ok r' →
  pushed r' = pushed r.
Proof.
  unfold assemble_asset.
  destruct (checked a) as [[]|]; [|by intros [= <-] [= <-]..].
  destruct (publicKey wallet) as [pk|]; [|by intros [= <-] [= <-]].
  destruct (swap a) as [s|]; [destruct (decode_swap s); [|done]|];
    cbn; by intros [= <-] [= <-].
Qed.

Lemma queue_indep blockHash blockHash' assets built built' :
  assemble blockHash assets = Ok built → assemble blockHash' assets = Ok built' →
  queue built' = queue built.
Proof.
  unfold assemble. intros H%mapR_Ok H'%mapR_Ok. revert built' H'.
  induction H as [|a r assets built Ha _ IH]; intros built' H';
    inversion H' as [|? r' ? built'' Ha' Hrest]; subst; [done|].
  unfold queue in *. cbn.
  rewrite (assemble_asset_pushed_indep _ _ _ _ _ Ha Ha').
  by rewrite (IH _ Hrest).
Qed.

Lemma queue_from_assets blockHash assets built key tx :
  assemble blockHash assets = Ok built → (key, tx) ∈ queue built →
  ∃ a s, a ∈ assets ∧ checked a = Some true ∧ is_Some (publicKey wallet)
         ∧ swap a = Some s ∧ decode_swap s = Ok tx
         ∧ key = address (token (asset a)).
Proof.
  unfold assemble, queue. intros H%mapR_Ok Hin.
  apply list_elem_of_omap in Hin as (r & Hr & Hp).
  apply list_elem_of_lookup in Hr as [i Hi].
  destruct (Forall2_lookup_r _ _ _ _ _ H Hi) as (a & Ha & Hasm).
  destruct (assemble_asset_pushed _ _ _ _ _ Hasm Hp) as (Hc & Hpk & s & Hs & Hd & ->).
  exists a, s. repeat split; try done. by eapply list_elem_of_lookup_2.
Qed.

(** *** Terminal states are counted by the queue *)

Lemma terminal_states_app id (tr1 tr2 : list (option nat * SEvent)) :
  terminal_states id (tr1 ++ tr2) = terminal_states id tr1 ++ terminal_states id tr2.
Proof. unfold terminal_states, untagged. by rewrite map_app, filter_app. Qed.

Lemma untagged_tagged i (evs : list SEvent) : untagged (tagged i evs) = evs.
Proof. unfold untagged, tagged. rewrite map_map. cbn. apply map_id. Qed.

Lemma untagged_top (evs : list SEvent) : untagged (top evs) = evs.
Proof. unfold untagged, top. rewrite map_map. cbn. apply map_id. Qed.

Lemma length_terminal_cons id e (l : list SEvent) :
  length (filter (λ e, is_terminal_for id e) (e :: l))
  = (if is_terminal_for id e then 1 else 0)
    + length (filter (λ e, is_terminal_for id e) l).
Proof. rewrite filter_cons. by destruct (is_terminal_for id e). Qed.

Lemma is_terminal_scooping id a :
  is_terminal_for id (TransactionStateCallback a "Scooping") = false.
Proof. apply bool_decide_eq_false_2. by intros [_ [?|?]]. Qed.

Lemma is_terminal_scooped id a :
  is_terminal_for id (TransactionStateCallback a "Scooped") = bool_decide (a = id).
Proof. apply bool_decide_ext. split; [by intros [? _]|]. intros. split; [done|by left]. Qed.

Lemma is_terminal_error id a :
  is_terminal_for id (TransactionStateCallback a "Error") = bool_decide (a = id).
Proof. apply bool_decide_ext. split; [by intros [? _]|]. intros. split; [done|by right]. Qed.

Lemma s_continue_terminal id i b evs :
  s_continue i b = Some evs →
  length (filter (λ e, is_terminal_for id e) evs) = awaiting_for id b.
Proof.
  destruct b as [assetId raw|]; [|done]. cbn [s_continue awaiting_for].
  destruct (sendAndConfirmRawTransaction connection i raw); intros [= <-];
    rewrite !length_terminal_cons, filter_nil,
      ?is_terminal_scooped, ?is_terminal_error; cbn;
    destruct (bool_decide (assetId = id)); lia.
Qed.

Lemma s_resume_terminal id i st st' :
  s_resume i st = Some st' →
  length (terminal_states id (s_trace st'))
    + sum_list (awaiting_for id <$> s_branches st')
  = length (terminal_states id (s_trace st))
    + sum_list (awaiting_for id <$> s_branches st).
Proof.
  unfold s_resume. intros Hr.
  destruct (s_branches st !! i) as [b|] eqn:Hb; [|done]. cbn in Hr.
  destruct (s_continue i b) as [evs|] eqn:Hc; [|done]. cbn in Hr.
  injection Hr as <-. cbn [s_trace s_branches].
  rewrite terminal_states_app, length_app. unfold terminal_states at 2.
  rewrite untagged_tagged, (s_continue_terminal id i b evs Hc).
  rewrite list_fmap_insert.
  pose proof (sum_list_insert (awaiting_for id <$> s_branches st) i
                (awaiting_for id b) (awaiting_for id Finished)) as Hs.
  rewrite list_lookup_fmap, Hb in Hs. specialize (Hs eq_refl).
  change (awaiting_for id Finished) with 0 in *. lia.
Qed.

(** A branch starts with its terminal state reported or with its
    submission awaited, never both, and only when the queue has an
    entry for it. *)
Lemma s_start_terminal id transactions k tx :
  length (filter (λ e, is_terminal_for id e) (s_start transactions k tx))
    + awaiting_for id (s_branch transactions k tx)
  = match transactions !! k with
    | Some (assetId, _) => if bool_decide (assetId = id) then 1 else 0
    | None => 0
    end.
Proof.
  unfold s_start, s_branch.
  destruct (transactions !! k) as [[assetId t]|]; [|done].
  destruct (serialize tx) as [raw|err];
    rewrite !length_terminal_cons, filter_nil,
      ?is_terminal_scooping, ?is_terminal_error; cbn;
    destruct (bool_decide (assetId = id)); lia.
Qed.

Lemma s_fan_out_terminal id transactions k signed :
  (length (terminal_states id (fan_out (s_start transactions) k signed))
     + sum_list (awaiting_for id <$> branches_from (s_branch transactions) k signed)
   ≤ length (filter (λ p, p.1 = id) (drop k transactions)))%nat.
Proof.
  revert k. induction signed as [|tx signed IH]; intros k; [cbn; lia|].
  cbn [fan_out branches_from fmap list_fmap].
  change (sum_list (?x :: ?l)) with (x + sum_list l).
  rewrite terminal_states_app, length_app. unfold terminal_states at 1.
  rewrite untagged_tagged. specialize (IH (S k)).
  pose proof (s_start_terminal id transactions k tx) as Hhead.
  destruct (transactions !! k) as [[assetId t]|] eqn:Hk.
  - rewrite (drop_S _ _ _ Hk), filter_cons. cbn [fst].
    destruct (bool_decide (assetId = id)) eqn:Hid.
    + apply bool_decide_eq_true_1 in Hid. rewrite decide_True by done. cbn. lia.
    + apply bool_decide_eq_false_1 in Hid. rewrite decide_False by done. lia.
  - rewrite drop_ge in IH by (apply lookup_ge_None in Hk; lia).
    rewrite drop_ge by (apply lookup_ge_None in Hk; lia). lia.
Qed.

Lemma queue_count id blockHash assets built :
  assemble blockHash assets = Ok built →
  (length (filter (λ p, p.1 = id) (queue built))
   ≤ length (filter (λ a, address (token (asset a)) = id) assets))%nat.
Proof.
  unfold assemble, queue. intros H%mapR_Ok.
  induction H as [|a r assets built Ha _ IH]; [done|].
  rewrite filter_cons. cbn [omap list_omap].
  destruct (pushed r) as [[key tx]|] eqn:Hp.
  - destruct (assemble_asset_pushed _ _ _ _ _ Ha Hp) as (_ & _ & s & _ & _ & ->).
    rewrite filter_cons. cbn [fst]. case_decide; cbn [length]; lia.
  - case_decide; cbn [length]; lia.
Qed.

Lemma terminal_states_top id (evs : list SEvent) :
  terminal_states id (top evs) = filter (λ e, is_terminal_for id e) evs.
Proof. unfold terminal_states. by rewrite untagged_top. Qed.

Lemma s_terminal_bound id assets st :
  rtc s_step (sweepTokens assets) st →
  (length (terminal_states id (s_trace st))
     + sum_list (awaiting_for id <$> s_branches st)
   ≤ length (filter (λ a, address (token (asset a)) = id) assets))%nat.
Proof.
  revert st. apply rtc_ind_r.
  - unfold sweepTokens.
    destruct (getLatestBlockhash connection) as [latest|];
      [destruct (assemble (blockhash latest) assets) as [built|] eqn:Hb;
       [destruct (signAllTransactions wallet) as [sign|];
        [destruct (sign (queue built).*2) as [signed|]|]|]|].
    all: try (pose proof (s_fan_out_terminal id (queue built) 0 signed) as Hf;
              rewrite drop_0 in Hf; unfold s_fan_out; case_decide).
    all: try pose proof (queue_count id _ _ _ Hb) as Hq.
    all: cbn [s_trace s_branches]; unfold signing_failed, caught_signing;
      rewrite ?terminal_states_app, ?length_app, ?terminal_states_top;
      rewrite ?length_terminal_cons, ?filter_nil;
      cbn [is_terminal_for length fmap list_fmap sum_list sum_list_with]; lia.
  - intros st st' _ [i Hi] IH. rewrite (s_resume_terminal id i st st' Hi). exact IH.
Qed.

(** *** The claims about the sweep *)

(** C9.  No state any interleaving of [sweepTokens] can reach has a
    call of [transactionIdCallback] in its trace, whatever the wallet,
    the ledger and the codec answer, a confirmed submission that
    returns a transaction identifier included. *)
Theorem sweepTokens_never_reports_txid assets st :
  rtc s_step (sweepTokens assets) st →
  ∀ o id txid, (o, TransactionIdCallback id txid) ∉ s_trace st.
Proof.
  intros Hreach o id txid Hin.
  destruct (sweep_reachable assets st Hreach)
    as [e _ ->|latest e _ _ ->|latest built _ _ _ ->
        |latest built sign error _ _ _ _ ->|latest built sign signed _ _ _ _ Hinv];
    cbn in Hin; try (set_unfold; naive_solver).
  destruct o as [i|].
  - destruct (s_branch_events _ _ _ _ _ _ Hinv Hin) as (tx & _ & He).
    apply s_script_events in He. naive_solver.
  - apply (s_top_events _ _ _ _ _ Hinv) in Hin. set_unfold; naive_solver.
Qed.

(** C2.  When the batched [signAllTransactions] call is made and
    fails, no transaction is submitted, the error callback is called
    once, with the empty id, no state callback is made, the promise
    of [sweepTokens] is resolved, and nothing further can happen: the
    sweep has no branch. *)
Theorem sweepTokens_signing_fails assets st sign txs error :
  rtc s_step (sweepTokens assets) st →
  signAllTransactions wallet = Some sign →
  (None, SignAllTransactions txs) ∈ s_trace st →
  sign txs = Throw error →
  (∀ o i raw, (o, SendAndConfirmRawTransaction i raw) ∉ s_trace st)
  ∧ filter (λ e, is_error_callback e) (untagged (s_trace st))
    = [SweepErrorCallback "" (Literal "Failed signing transactions!")]
  ∧ (∀ o id state, (o, TransactionStateCallback id state) ∉ s_trace st)
  ∧ s_promise st = Resolved
  ∧ s_branches st = []
  ∧ ∀ st', ¬ s_step st st'.
Proof.
  intros Hreach Hsign Hcall Hfail.
  destruct (sweep_reachable assets st Hreach)
    as [e _ ->|latest e _ _ ->|latest built _ _ _ ->
        |latest built sign' error' _ _ Hsign' Hfail' ->
        |latest built sign' signed _ _ Hsign' Hok Hinv];
    cbn in Hcall; try (set_unfold; naive_solver).
  - cbn. repeat split; try done.
    + intros o i raw H. set_unfold; naive_solver.
    + intros o id state H. set_unfold; naive_solver.
    + intros st'. by apply s_no_branches_stuck.
  - apply (s_top_events _ _ _ _ _ Hinv) in Hcall.
    assert (txs = (queue built).*2) as -> by (set_unfold; naive_solver).
    congruence.
Qed.


(** C8, as the code has it.  [sweepTokens] requests the latest block
    reference once, before anything else.  The reference goes into
    the account-closure transactions, which are built and dropped.
    The transactions handed to the wallet are the decoded swap
    payloads of approved assets: they carry the block reference the
    aggregator put in the payload, and the batch is the same whatever
    reference the ledger returned.  What is submitted by branch [i]
    is the serialization of the transaction the wallet returned in
    place [i] of the signed batch, for a place that has a queue
    entry. *)
Theorem sweepTokens_block_reference assets st :
  rtc s_step (sweepTokens assets) st →
  (∃ rest, s_trace st = (None, GetLatestBlockhash) :: rest
           ∧ ∀ o, (o, GetLatestBlockhash) ∉ rest)
  ∧ (∀ txs, (None, SignAllTransactions txs) ∈ s_trace st →
      ∃ latest built,
        getLatestBlockhash connection = Ok latest
        ∧ assemble (blockhash latest) assets = Ok built
        ∧ txs = (queue built).*2
        ∧ (∀ r tx, r ∈ built → closeAccountTx r = Some tx →
             recentBlockhash (message tx) = blockhash latest)
        ∧ (∀ key tx, (key, tx) ∈ queue built →
             ∃ a s, a ∈ assets ∧ checked a = Some true
                    ∧ swap a = Some s ∧ decode_swap s = Ok tx
                    ∧ key = address (token (asset a)))
        ∧ ∀ blockHash' built',
            assemble blockHash' assets = Ok built' → queue built' = queue built)
  ∧ ∀ o i raw, (o, SendAndConfirmRawTransaction i raw) ∈ s_trace st →
      o = Some i
      ∧ ∃ latest built sign signed tx,
          getLatestBlockhash connection = Ok latest
          ∧ assemble (blockhash latest) assets = Ok built
          ∧ signAllTransactions wallet = Some sign
          ∧ sign (queue built).*2 = Ok signed
          ∧ signed !! i = Some tx
          ∧ serialize tx = Ok raw
          ∧ is_Some (queue built !! i).
Proof.
  intros Hreach.
  assert (∀ latest built txs,
            getLatestBlockhash connection = Ok latest →
            assemble (blockhash latest) assets = Ok built →
            txs = (queue built).*2 →
            ∃ latest built,
              getLatestBlockhash connection = Ok latest
              ∧ assemble (blockhash latest) assets = Ok built
              ∧ txs = (queue built).*2
              ∧ (∀ r tx, r ∈ built → closeAccountTx r = Some tx →
                   recentBlockhash (message tx) = blockhash latest)
              ∧ (∀ key tx, (key, tx) ∈ queue built →
                   ∃ a s, a ∈ assets ∧ checked a = Some true
                          ∧ swap a = Some s ∧ decode_swap s = Ok tx
                          ∧ key = address (token (asset a)))
              ∧ ∀ blockHash' built',
                  assemble blockHash' assets = Ok built' →
                  queue built' = queue built) as Hbatch.
  { intros latest built txs Hl Hb ->. exists latest, built.
    repeat split; try done.
    - intros r tx Hr Hc. apply list_elem_of_lookup in Hr as [i Hi].
      pose proof Hb as Hb'. unfold assemble in Hb'. apply mapR_Ok in Hb'.
      destruct (Forall2_lookup_r _ _ _ _ _ Hb' Hi) as (a & _ & Hasm).
      by destruct (assemble_asset_closure _ _ _ _ Hasm Hc).
    - intros key tx Hin.
      destruct (queue_from_assets _ _ _ _ _ Hb Hin) as (a & s & ? & ? & _ & ? & ? & ?).
      by exists a, s.
    - intros blockHash' built' Hb'. by eapply queue_indep. }
  destruct (sweep_reachable assets st Hreach)
    as [e _ ->|latest e _ _ ->|latest built _ _ _ ->
        |latest built sign error Hl Hb _ _ ->
        |latest built sign signed Hl Hb Hsign Hsigned Hinv].
  1-3: split; [eexists; split; [done|]; intros o H; by apply elem_of_nil in H
              |split; [intros txs H|intros o i raw H];
               cbn in H; set_unfold; naive_solver].
  - split; [|split].
    + eexists. split; [done|]. intros o H. set_unfold; naive_solver.
    + intros txs H. eapply Hbatch; [done..|]. cbn in H. set_unfold; naive_solver.
    + intros o i raw H. cbn in H. set_unfold; naive_solver.
  - split; [|split].
    + pose proof (s_inv_top _ _ _ _ Hinv) as Htop.
      destruct (s_inv_head _ _ _ _ Hinv) as [rest Hrest].
      exists ((None, SignAllTransactions (queue built).*2) :: rest).
      split; [by rewrite Hrest|]. intros [i|] Hin.
      * assert ((Some i, GetLatestBlockhash) ∈ s_trace st) as Hin'
          by (rewrite Hrest; set_solver).
        destruct (s_branch_events _ _ _ _ _ _ Hinv Hin') as (tx & _ & He).
        apply s_script_events in He. naive_solver.
      * rewrite Hrest, of_top_app, of_top_top in Htop.
        apply app_inv_head in Htop.
        assert ((None, GetLatestBlockhash) ∈ rest) as Hin' by set_solver.
        apply elem_of_of_top in Hin'. rewrite Htop in Hin'.
        case_decide; set_unfold; naive_solver.
    + intros txs H. eapply Hbatch; [done..|].
      apply (s_top_events _ _ _ _ _ Hinv) in H. set_unfold; naive_solver.
    + intros [k|] i raw H.
      * destruct (s_branch_events _ _ _ _ _ _ Hinv H) as (tx & Htx & He).
        apply s_script_events in He as (assetId & t & Ht & He).
        assert (i = k ∧ serialize tx = Ok raw) as [-> Hser] by naive_solver.
        split; [done|]. exists latest, built, sign, signed, tx.
        repeat split; try done; by eexists.
      * apply (s_top_events _ _ _ _ _ Hinv) in H.
        unfold caught_signing in H. set_unfold; naive_solver.
Qed.


(** C3.  Let the [i]-th signed transaction have been submitted.  Then
    the callbacks of its branch are, in this order: state "Scooping";
    after it, once the submission has settled, exactly one terminal
    state, "Scooped" when it was confirmed, or "Error" followed by
    one error callback when it failed; and nothing after that.  While
    the submission is awaited the branch can be resumed whatever the
    other submissions did, resuming it ends it and leaves the others
    where they are.  For every id, the terminal states reported for
    it are at most as many as the assets of the input that carry it:
    an asset that appears once gets at most one. *)
Theorem sweepTokens_lifecycle assets st i k raw :
  rtc s_step (sweepTokens assets) st →
  (Some i, SendAndConfirmRawTransaction k raw) ∈ s_trace st →
  let mine := filter (λ e, is_sweep_callback e) (of_branch i (s_trace st)) in
  ∃ assetId,
    ((s_branches st !! i = Some (AwaitConfirm assetId raw)
      ∧ mine = [TransactionStateCallback assetId "Scooping"])
     ∨ (s_branches st !! i = Some Finished
        ∧ (∃ txid, sendAndConfirmRawTransaction connection i raw = Ok txid)
        ∧ mine = [TransactionStateCallback assetId "Scooping";
                  TransactionStateCallback assetId "Scooped"])
     ∨ (s_branches st !! i = Some Finished
        ∧ ∃ err, sendAndConfirmRawTransaction connection i raw = Throw err
                 ∧ mine = [TransactionStateCallback assetId "Scooping";
                           TransactionStateCallback assetId "Error";
                           SweepErrorCallback assetId (Caught err)]))
    ∧ (s_branches st !! i = Some (AwaitConfirm assetId raw) →
         ∃ st', s_resume i st = Some st'
                ∧ s_branches st' !! i = Some Finished
                ∧ ∀ j, j ≠ i → s_branches st' !! j = s_branches st !! j)
    ∧ s_branches (s_run [i] st) !! i = Some Finished
    ∧ ∀ id, (length (terminal_states id (s_trace st))
             ≤ length (filter (λ a, address (token (asset a)) = id) assets))%nat.
Proof.
  intros Hreach Hsub mine.
  destruct (sweep_reachable assets st Hreach)
    as [e _ ->|latest e _ _ ->|latest built _ _ _ ->
        |latest built sign error _ _ _ _ ->|latest built sign signed _ _ _ _ Hinv];
    cbn in Hsub; try (set_unfold; naive_solver).
  destruct (s_branch_events _ _ _ _ _ _ Hinv Hsub) as (tx & Hi & He).
  apply s_script_events in He as (assetId & t & Ht & He).
  assert (k = i ∧ serialize tx = Ok raw) as [-> Hser] by naive_solver.
  clear He.
  destruct (lookup_lt_is_Some_2 (s_branches st) i) as [b Hb].
  { rewrite (s_inv_length _ _ _ _ Hinv). by eapply lookup_lt_Some. }
  destruct (s_inv_branch _ _ _ _ Hinv i tx b Hi Hb) as [Hview Hawait].
  assert (∀ id' raw', b = AwaitConfirm id' raw' → id' = assetId ∧ raw' = raw)
    as Hsame.
  { intros id' raw' ->. destruct (Hawait id' raw' eq_refl) as [[t' Ht'] Hser'].
    rewrite Ht in Ht'. rewrite Hser in Hser'. by simplify_eq. }
  exists assetId. split; [|split; [|split]].
  - unfold mine. rewrite Hview, Hb.
    destruct b as [id' raw'|]; cbn [s_view].
    + destruct (Hsame id' raw' eq_refl) as [-> ->]. left. split; [done|].
      unfold s_start. by rewrite Ht, Hser.
    + right. unfold s_script, s_start. rewrite Ht, Hser.
      destruct (sendAndConfirmRawTransaction connection i raw) as [txid|err].
      * left. split; [done|]. split; [by eexists|done].
      * right. split; [done|]. by exists err.
  - intros Hb'. unfold s_resume. rewrite Hb'. cbn.
    destruct (sendAndConfirmRawTransaction connection i raw); cbn;
      eexists; (split; [done|]); cbn;
      (split; [apply list_lookup_insert_eq; by eapply lookup_lt_Some
              |intros j Hj; by apply list_lookup_insert_ne]).
  - cbn. unfold s_resume. rewrite Hb. cbn.
    destruct b as [id' raw'|]; cbn; [|done].
    destruct (sendAndConfirmRawTransaction connection i raw'); cbn;
      apply list_lookup_insert_eq; by eapply lookup_lt_Some.
  - intros id. pose proof (s_terminal_bound id assets st Hreach). lia.
Qed.


(** ** The pipelines end to end *)

Lemma q_continue_no_discovery i asset b evs b' :
  q_continue i asset b = Some (evs, b') → Forall (λ e, is_discovery e = false) evs.
Proof.
  destruct b as [|quote|]; cbn; [| |done].
  - destruct (quoteGet quoteApi i (quoteRequest asset)); intros [= <- <-];
      by repeat constructor.
  - destruct (swapPost quoteApi i (rq quote)); intros [= <- <-];
      by repeat constructor.
Qed.

Lemma q_trace_grows st st' :
  rtc q_step st st' →
  q_assets st' = q_assets st
  ∧ ∃ rest, q_trace st' = q_trace st ++ rest
            ∧ Forall (λ e, is_discovery e = false) (untagged rest).
Proof.
  revert st'. apply rtc_ind_r.
  - split; [done|]. exists []. by rewrite app_nil_r.
  - intros st1 st2 _ [i Hi] (Hassets & rest & Htrace & Hrest).
    unfold q_resume in Hi.
    destruct (q_assets st1 !! i) as [asset|]; [|done]. cbn in Hi.
    destruct (q_branches st1 !! i) as [b|]; [|done]. cbn in Hi.
    destruct (q_continue i asset b) as [[evs b']|] eqn:Hc; [|done]. cbn in Hi.
    injection Hi as <-. cbn. split; [done|].
    exists (rest ++ tagged i evs). rewrite Htrace, <- app_assoc. split; [done|].
    rewrite untagged_app, untagged_of_tagged. apply Forall_app. split; [done|].
    by eapply q_continue_no_discovery.
Qed.

(** X7.  Discovery comes first.  After a scan that returned [assets],
    the events of [findQuotes] begin, in the order of the scan, with
    the found-asset callback and the quote request of every asset, one
    of each per asset whatever its balance; everything that follows is
    the handling of answers.  So no asset is announced after the first
    answer has been handled, and no quote request is ever repeated. *)
Theorem findQuotes_discovery_first conn tokens assets st :
  getTokenAccounts walletAddress conn tokens = Ok assets →
  rtc q_step (findQuotes conn tokens) st →
  q_assets st = assets
  ∧ ∃ rest,
      untagged (q_trace st)
      = flat_map (λ a, [FoundAssetCallback (address_of (token a)) a;
                        QuoteGet (quoteRequest a)]) assets ++ rest
      ∧ Forall (λ e, is_discovery e = false) rest.
Proof.
  intros Hscan Hreach. unfold findQuotes in Hreach. rewrite Hscan in Hreach.
  destruct (q_trace_grows _ _ Hreach) as (Hassets & rest & Htrace & Hrest).
  split; [done|]. exists (untagged rest). split; [|done].
  rewrite Htrace, untagged_app. f_equal. cbn [q_fan_out q_trace].
  rewrite untagged_fan_out. clear. generalize 0.
  induction assets as [|a assets IH]; intros k; [done|].
  cbn. do 2 f_equal. apply (IH (S k)).
Qed.

(** ** The sweep: the batch and its order *)

Lemma assemble_asset_skipped blockHash a :
  enqueued a = false →
  ∃ r, assemble_asset blockHash a = Ok r ∧ pushed r = None.
Proof.
  unfold enqueued, assemble_asset.
  destruct (checked a) as [[]|]; [|by eexists..].
  destruct (publicKey wallet) as [pk|]; [|by eexists].
  destruct (swap a) as [s|]; [|by eexists].
  rewrite !bool_decide_eq_true_2; [done|by eexists..|done].
Qed.

Lemma assemble_asset_decoded blockHash a :
  enqueued a = true →
  ∃ s, swap a = Some s
       ∧ match decode_swap s with
         | Ok tx => ∃ r, assemble_asset blockHash a = Ok r
                         ∧ pushed r = Some (address (token (asset a)), tx)
         | Throw e => assemble_asset blockHash a = Throw e
         end.
Proof.
  unfold enqueued, assemble_asset. rewrite !andb_true_iff, !bool_decide_eq_true.
  intros [[-> [pk ->]] [s ->]]. exists s. split; [done|].
  destruct (decode_swap s) as [tx|e]; cbn; [by eexists|done].
Qed.

Lemma queue_enqueued blockHash assets built :
  assemble blockHash assets = Ok built →
  Forall2 (λ a p, p.1 = address (token (asset a))
                  ∧ ∃ s, swap a = Some s ∧ decode_swap s = Ok p.2)
    (filter (λ a, enqueued a) assets) (queue built).
Proof.
  unfold assemble, queue. intros H%mapR_Ok.
  induction H as [|a r assets built Ha _ IH]; [constructor|].
  rewrite filter_cons. cbn [omap list_omap]. cbn in Ha.
  destruct (enqueued a) eqn:Hen.
  - destruct (assemble_asset_decoded blockHash a Hen) as (s & Hs & Hdec).
    destruct (decode_swap s) as [tx|e] eqn:Hd; [|congruence].
    destruct Hdec as (r' & Hr' & Hp). rewrite Ha in Hr'. injection Hr' as <-.
    rewrite Hp, decide_True by done. constructor; [|done].
    split; [done|]. by exists s.
  - destruct (assemble_asset_skipped blockHash a Hen) as (r' & Hr' & Hp).
    rewrite Ha in Hr'. injection Hr' as <-. rewrite Hp, decide_False by (cbn; tauto). done.
Qed.

(** X9.  The batch is the input, filtered, in order.  What the wallet
    is asked to sign is one decoded swap payload for each asset that
    is approved and has a payload, in the order of the input, when
    the wallet has a public key, and no transaction at all when it
    has none; assets that are not approved contribute nothing.  An id is attached to a
    signed transaction by position alone: every event of branch [i]
    carries the token address of the [i]-th such asset, whatever
    transaction the wallet returned in that place. *)
Theorem sweepTokens_batch_in_order assets st :
  rtc s_step (sweepTokens assets) st →
  (∀ txs, (None, SignAllTransactions txs) ∈ s_trace st →
     Forall2 (λ a tx, ∃ s, swap a = Some s ∧ decode_swap s = Ok tx)
       (filter (λ a, enqueued a) assets) txs)
  ∧ (∀ i e id, (Some i, e) ∈ s_trace st → s_event_id e = Some id →
       ∃ a, filter (λ a, enqueued a) assets !! i = Some a
            ∧ id = address (token (asset a))).
Proof.
  intros Hreach.
  assert (∀ blockHash built, assemble blockHash assets = Ok built →
            Forall2 (λ a tx, ∃ s, swap a = Some s ∧ decode_swap s = Ok tx)
              (filter (λ a, enqueued a) assets) (queue built).*2) as Hbatch.
  { intros blockHash built Hb. apply Forall2_fmap_r.
    eapply Forall2_impl; [by eapply queue_enqueued|]. by intros a p [_ ?]. }
  destruct (sweep_reachable assets st Hreach)
    as [e He ->|latest e Hl Hb ->|latest built Hl Hb _ ->
        |latest built sign error Hl Hb _ _ ->
        |latest built sign signed Hl Hb _ _ Hinv].
  1-3: split; [intros txs H|intros i e' id H]; cbn in H; set_unfold; naive_solver.
  - split.
    + intros txs H. cbn in H. set_unfold.
      destruct H as [[=]|[[= ->]|[[=]|[[=]|[]]]]]. by eapply Hbatch.
    + intros i e' id H. cbn in H. set_unfold. naive_solver.
  - split.
    + intros txs H. apply (s_top_events _ _ _ _ _ Hinv) in H.
      unfold caught_signing in H. set_unfold.
      destruct H as [[[=]|[[= ->]|[]]]|[[=]|[[=]|[]]]]. by eapply Hbatch.
    + intros i e' id H Hid.
      destruct (s_branch_events _ _ _ _ _ _ Hinv H) as (tx & _ & He).
      apply s_script_events in He as (assetId & t & Ht & He).
      assert (id = assetId) as -> by (cbn in *; naive_solver).
      pose proof (queue_enqueued _ _ _ Hb) as Hq.
      destruct (Forall2_lookup_r _ _ _ _ _ Hq Ht) as (a & Ha & Hid' & _).
      exists a. split; [done|]. exact Hid'.
Qed.

(** X10.  A payload that does not decode rejects the sweep before
    anything is signed.  With the block reference fetched, the promise
    of [sweepTokens] is rejected with [e] exactly when the first asset
    of the input whose payload fails to decode (as base64, or as a
    transaction) is approved under a wallet with a public key and
    fails with [e].  Nothing but the block reference has then been
    requested and no callback is made.  Payloads of assets that are
    not approved are never decoded. *)
Theorem sweepTokens_bad_payload assets st latest e :
  getLatestBlockhash connection = Ok latest →
  rtc s_step (sweepTokens assets) st →
  (s_promise st = Rejected e
   ↔ ∃ before a after s,
       assets = before ++ a :: after
       ∧ Forall (λ b, enqueued b = true →
                      ∃ s' tx, swap b = Some s' ∧ decode_swap s' = Ok tx) before
       ∧ enqueued a = true ∧ swap a = Some s ∧ decode_swap s = Throw e)
  ∧ (s_promise st = Rejected e →
     s_trace st = top [GetLatestBlockhash] ∧ ∀ st', ¬ s_step st st').
Proof.
  intros Hlatest Hreach.
  assert (∀ b, (∃ r, assemble_asset (blockhash latest) b = Ok r)
               ↔ (enqueued b = true →
                  ∃ s' tx, swap b = Some s' ∧ decode_swap s' = Ok tx)) as Hok.
  { intros b. destruct (enqueued b) eqn:Hen.
    - destruct (assemble_asset_decoded (blockhash latest) b Hen) as (s & Hs & Hdec).
      destruct (decode_swap s) as [tx|e'] eqn:Hd.
      + destruct Hdec as (r & Hr & _). split; [intros _ _; by exists s, tx|by eexists].
      + split; [intros [r Hr]; congruence|].
        intros H. destruct (H eq_refl) as (s' & tx & Hs' & Hd'). congruence.
    - destruct (assemble_asset_skipped (blockhash latest) b Hen) as (r & Hr & _).
      split; [done|by eexists]. }
  assert (∀ a e', assemble_asset (blockhash latest) a = Throw e' ↔
            enqueued a = true ∧ ∃ s, swap a = Some s ∧ decode_swap s = Throw e')
    as Hthrow.
  { intros a e'. destruct (enqueued a) eqn:Hen.
    - destruct (assemble_asset_decoded (blockhash latest) a Hen) as (s & Hs & Hdec).
      destruct (decode_swap s) as [tx|e''] eqn:Hd.
      + destruct Hdec as (r & Hr & _). split; [congruence|].
        intros [_ (s' & Hs' & Hd')]. congruence.
      + rewrite Hdec. split.
        * intros [= ->]. split; [done|]. by exists s.
        * intros [_ (s' & Hs' & Hd')]. congruence.
    - destruct (assemble_asset_skipped (blockhash latest) a Hen) as (r & Hr & _).
      split; [congruence|]. by intros [[=] _]. }
  assert (s_promise st = Rejected e →
          assemble (blockhash latest) assets = Throw e
          ∧ st = {| s_branches := []; s_trace := top [GetLatestBlockhash];
                    s_promise := Rejected e |}) as Hrej.
  { destruct (sweep_reachable assets st Hreach)
      as [e' He ->|latest' e' Hl Hb ->|latest' built Hl Hb _ ->
          |latest' built sign error Hl Hb _ _ ->
          |latest' built sign signed Hl Hb _ _ Hinv];
      [congruence|..]; rewrite Hlatest in Hl; injection Hl as <-; cbn; try done.
    - by intros [= ->].
    - rewrite (s_inv_promise _ _ _ _ Hinv). by repeat case_match. }
  split; [split|].
  - intros [Hasm _]%Hrej. unfold assemble in Hasm.
    apply mapR_Throw_inv in Hasm as (before & a & after & -> & Hbefore & Ha).
    apply Hthrow in Ha as (Hen & s & Hs & Hd).
    exists before, a, after, s. split; [done|]. split; [|done].
    eapply Forall_impl; [exact Hbefore|]. intros b. apply Hok.
  - intros (before & a & after & s & -> & Hbefore & Hen & Hs & Hd).
    assert (assemble (blockhash latest) (before ++ a :: after) = Throw e) as Hasm.
    { apply mapR_Throw.
      - eapply Forall_impl; [exact Hbefore|]. intros b. apply Hok.
      - apply Hthrow. split; [done|]. by exists s. }
    unfold sweepTokens in Hreach. rewrite Hlatest, Hasm in Hreach.
    by apply s_no_branches_final in Hreach as ->.
  - intros [_ ->]%Hrej. split; [done|]. intros st'. by apply s_no_branches_stuck.
Qed.

(** ** The sweep: when its promise settles *)

Lemma sweep_submitting assets st latest built sign signed :
  getLatestBlockhash connection = Ok latest →
  assemble (blockhash latest) assets = Ok built →
  signAllTransactions wallet = Some sign →
  sign (queue built).*2 = Ok signed →
  rtc s_step (sweepTokens assets) st →
  sweepTokens assets
  = s_fan_out [GetLatestBlockhash; SignAllTransactions (queue built).*2]
      (queue built) signed
  ∧ s_inv [GetLatestBlockhash; SignAllTransactions (queue built).*2]
      (queue built) signed st.
Proof.
  intros Hlatest Hbuilt Hsign Hsigned. unfold sweepTokens.
  rewrite Hlatest, Hbuilt, Hsign, Hsigned. intros Hreach.
  split; [done|]. by apply s_reachable_inv.
Qed.

Lemma s_resume_length i st st' :
  s_resume i st = Some st' → length (s_branches st') = length (s_branches st).
Proof.
  unfold s_resume. destruct (s_branches st !! i) as [b|]; [|done]. cbn.
  destruct (s_continue i b) as [evs|]; [|done]. cbn.
  intros [= <-]. cbn. by rewrite length_insert.
Qed.

Lemma s_resume_keeps_finished i j st :
  s_branches st !! j = Some Finished →
  s_branches (default st (s_resume i st)) !! j = Some Finished.
Proof.
  intros Hj. unfold s_resume. destruct (s_branches st !! i) as [b|] eqn:Hb; [|done].
  cbn. destruct (s_continue i b) as [evs|]; [|done]. cbn.
  destruct (decide (j = i)) as [->|Hne].
  - rewrite list_lookup_insert_eq; [done|]. by eapply lookup_lt_Some.
  - by rewrite list_lookup_insert_ne.
Qed.

Lemma s_resume_finishes j st :
  j < length (s_branches st) →
  s_branches (default st (s_resume j st)) !! j = Some Finished.
Proof.
  intros Hlt. destruct (lookup_lt_is_Some_2 _ _ Hlt) as [b Hb].
  unfold s_resume. rewrite Hb. cbn. destruct b as [assetId raw|]; [|done]. cbn.
  destruct (sendAndConfirmRawTransaction connection j raw); cbn;
    by rewrite list_lookup_insert_eq.
Qed.

Lemma s_run_keeps_finished schedule j st :
  s_branches st !! j = Some Finished →
  s_branches (s_run schedule st) !! j = Some Finished.
Proof.
  revert st. induction schedule as [|i schedule IH]; intros st Hj; [done|].
  cbn. apply IH. by apply s_resume_keeps_finished.
Qed.

Lemma s_run_length schedule st :
  length (s_branches (s_run schedule st)) = length (s_branches st).
Proof.
  revert st. induction schedule as [|i schedule IH]; intros st; [done|].
  change (s_run (i :: schedule) st) with (s_run schedule (default st (s_resume i st))).
  rewrite IH. destruct (s_resume i st) as [st'|] eqn:Hr; [|done].
  by apply s_resume_length in Hr.
Qed.

Lemma s_run_finishes schedule j st :
  j ∈ schedule → j < length (s_branches st) →
  s_branches (s_run schedule st) !! j = Some Finished.
Proof.
  revert st. induction schedule as [|i schedule IH]; intros st Hin Hlt;
    [by apply elem_of_nil in Hin|].
  cbn. apply elem_of_cons in Hin as [->|Hin].
  - apply s_run_keeps_finished. by apply s_resume_finishes.
  - apply IH; [done|]. destruct (s_resume i st) as [st'|] eqn:Hr; [|done].
    cbn. by rewrite (s_resume_length _ _ _ Hr).
Qed.

Lemma s_run_inv before transactions signed schedule st :
  s_inv before transactions signed st →
  s_inv before transactions signed (s_run schedule st).
Proof.
  revert st. induction schedule as [|i schedule IH]; intros st Hinv; [done|].
  cbn. apply IH. destruct (s_resume i st) as [st'|] eqn:Hr; [|done].
  by eapply s_resume_inv.
Qed.

Lemma s_all_finished (branches : list SBranch) :
  forallb s_finished branches = true
  ↔ ∀ i b, branches !! i = Some b → b = Finished.
Proof.
  split.
  - intros Hall i b Hb. pose proof (forallb_true_lookup _ _ _ _ Hall Hb). by destruct b.
  - intros Hall. destruct (forallb s_finished branches) eqn:Hf; [done|].
    apply forallb_false_lookup in Hf as (i & b & Hb & Hfin).
    by rewrite (Hall i b Hb) in Hfin.
Qed.

(** X11.  With a wallet that returns no more transactions than it was
    given, the promise of [sweepTokens] is never rejected once the
    batch is signed; it is resolved exactly when every submission has
    settled, and then every branch has run its whole script; until
    then a submission can still settle, and any order of answers that
    settles each submission resolves the promise. *)
Theorem sweepTokens_promise_resolves assets st latest built sign signed :
  getLatestBlockhash connection = Ok latest →
  assemble (blockhash latest) assets = Ok built →
  signAllTransactions wallet = Some sign →
  sign (queue built).*2 = Ok signed →
  (length signed ≤ length (queue built))%nat →
  rtc s_step (sweepTokens assets) st →
  (∀ e, s_promise st ≠ Rejected e)
  ∧ (s_promise st = Resolved ↔ ∀ i b, s_branches st !! i = Some b → b = Finished)
  ∧ (s_promise st = Resolved → ∀ i tx, signed !! i = Some tx →
       of_branch i (s_trace st) = s_script (queue built) i tx)
  ∧ (s_promise st ≠ Resolved → ∃ st', s_step st st')
  ∧ ∀ schedule, (∀ j, j < length signed → j ∈ schedule) →
      s_promise (s_run schedule st) = Resolved.
Proof.
  intros Hlatest Hbuilt Hsign Hsigned Hlen Hreach.
  destruct (sweep_submitting _ _ _ _ _ _ Hlatest Hbuilt Hsign Hsigned Hreach)
    as [_ Hinv].
  assert (∀ st1, s_inv [GetLatestBlockhash; SignAllTransactions (queue built).*2]
                   (queue built) signed st1 →
            s_promise st1
            = if forallb s_finished (s_branches st1) then Resolved else Pending)
    as Hpromise.
  { intros st1 H1. rewrite (s_inv_promise _ _ _ _ H1). by rewrite decide_False by lia. }
  assert (s_promise st = Resolved ↔ ∀ i b, s_branches st !! i = Some b → b = Finished)
    as Hres.
  { rewrite (Hpromise st Hinv), <- s_all_finished.
    by destruct (forallb s_finished (s_branches st)). }
  split; [|split; [exact Hres|split; [|split]]].
  - intros e. rewrite (Hpromise st Hinv). by case_match.
  - intros Hr i tx Hi.
    destruct (lookup_lt_is_Some_2 (s_branches st) i) as [b Hb].
    { rewrite (s_inv_length _ _ _ _ Hinv). by eapply lookup_lt_Some. }
    destruct (s_inv_branch _ _ _ _ Hinv i tx b Hi Hb) as [-> _].
    by rewrite (proj1 Hres Hr i b Hb).
  - intros Hnot. rewrite (Hpromise st Hinv) in Hnot.
    destruct (forallb s_finished (s_branches st)) eqn:Hf; [done|].
    apply forallb_false_lookup in Hf as (i & b & Hb & Hfin).
    destruct b as [assetId raw|]; [|done].
    destruct (s_resume i st) as [st1|] eqn:Hr; [by exists st1, i|].
    unfold s_resume in Hr. rewrite Hb in Hr. cbn in Hr.
    by destruct (sendAndConfirmRawTransaction connection i raw).
  - intros schedule Hfair.
    pose proof (s_run_inv _ _ _ schedule st Hinv) as Hrun.
    rewrite (Hpromise _ Hrun).
    assert (forallb s_finished (s_branches (s_run schedule st)) = true) as ->; [|done].
    apply s_all_finished. intros i b Hb.
    assert (i < length (s_branches st)) as Hlt.
    { rewrite <- (s_run_length schedule). by eapply lookup_lt_Some. }
    rewrite s_run_finishes in Hb; [congruence| |done].
    apply Hfair. by rewrite <- (s_inv_length _ _ _ _ Hinv).
Qed.

(** ** The sweep: a wallet that returns another number of transactions *)

(** X12.  When the wallet returns more transactions than it was
    given, the branch of the first surplus transaction throws before
    any callback, and the signing error handler runs: the caller gets
    the error callback with the empty id and the promise is resolved
    at once, although every transaction that has a queue entry and
    serializes has been announced and submitted, and is still awaited.
    The surplus transactions themselves produce no event. *)
Theorem sweepTokens_surplus_signed assets st latest built sign signed :
  getLatestBlockhash connection = Ok latest →
  assemble (blockhash latest) assets = Ok built →
  signAllTransactions wallet = Some sign →
  sign (queue built).*2 = Ok signed →
  length (queue built) < length signed →
  rtc s_step (sweepTokens assets) st →
  s_promise st = Resolved
  ∧ of_top (s_trace st)
    = [GetLatestBlockhash; SignAllTransactions (queue built).*2;
       SweepConsoleError TypeError;
       SweepErrorCallback "" (Literal "Failed signing transactions!")]
  ∧ (∀ i, (length (queue built) ≤ i)%nat → of_branch i (s_trace st) = [])
  ∧ ∀ i id t tx raw,
      queue built !! i = Some (id, t) → signed !! i = Some tx →
      serialize tx = Ok raw →
      s_branches (sweepTokens assets) !! i = Some (AwaitConfirm id raw)
      ∧ (Some i, TransactionStateCallback id "Scooping") ∈ s_trace st
      ∧ (Some i, SendAndConfirmRawTransaction i raw) ∈ s_trace st.
Proof.
  intros Hlatest Hbuilt Hsign Hsigned Hlen Hreach.
  destruct (sweep_submitting _ _ _ _ _ _ Hlatest Hbuilt Hsign Hsigned Hreach)
    as [Hstart Hinv].
  split; [|split; [|split]].
  - rewrite (s_inv_promise _ _ _ _ Hinv). by rewrite decide_True.
  - rewrite (s_inv_top _ _ _ _ Hinv). by rewrite decide_True.
  - intros i Hi. destruct (signed !! i) as [tx|] eqn:Htx;
      [|by apply (s_inv_outside _ _ _ _ Hinv)].
    destruct (lookup_lt_is_Some_2 (s_branches st) i) as [b Hb].
    { rewrite (s_inv_length _ _ _ _ Hinv). by eapply lookup_lt_Some. }
    destruct (s_inv_branch _ _ _ _ Hinv i tx b Htx Hb) as [-> _].
    assert (queue built !! i = None) as Hnone by (by apply lookup_ge_None).
    destruct b; cbn; unfold s_script, s_start; by rewrite Hnone.
  - intros i id t tx raw Hq Htx Hser. split.
    + rewrite Hstart. unfold s_fan_out. rewrite decide_True by done. cbn.
      rewrite lookup_branches_from, Htx. cbn. unfold s_branch. by rewrite Hq, Hser.
    + destruct (lookup_lt_is_Some_2 (s_branches st) i) as [b Hb].
      { rewrite (s_inv_length _ _ _ _ Hinv). by eapply lookup_lt_Some. }
      destruct (s_inv_branch _ _ _ _ Hinv i tx b Htx Hb) as [Hview _].
      rewrite <- !elem_of_of_branch, Hview.
      assert (s_start (queue built) i tx
              = [TransactionStateCallback id "Scooping";
                 SendAndConfirmRawTransaction i raw]) as Hs
        by (unfold s_start; by rewrite Hq, Hser).
      destruct b; cbn; unfold s_script; rewrite Hs; set_solver.
Qed.

(** ** The sweep: announcements *)

Lemma s_continue_no_start i b evs :
  s_continue i b = Some evs → Forall (λ e, is_submission_start e = false) evs.
Proof.
  destruct b as [assetId raw|]; [|done]. cbn.
  destruct (sendAndConfirmRawTransaction connection i raw); intros [= <-];
    by repeat constructor.
Qed.

Lemma s_trace_grows st st' :
  rtc s_step st st' →
  ∃ rest, s_trace st' = s_trace st ++ rest
          ∧ Forall (λ e, is_submission_start e = false) (untagged rest).
Proof.
  revert st'. apply rtc_ind_r.
  - exists []. by rewrite app_nil_r.
  - intros st1 st2 _ [i Hi] (rest & Htrace & Hrest). unfold s_resume in Hi.
    destruct (s_branches st1 !! i) as [b|]; [|done]. cbn in Hi.
    destruct (s_continue i b) as [evs|] eqn:Hc; [|done]. cbn in Hi.
    injection Hi as <-. cbn.
    exists (rest ++ tagged i evs). rewrite Htrace, <- app_assoc. split; [done|].
    rewrite untagged_app, untagged_of_tagged. apply Forall_app. split; [done|].
    by eapply s_continue_no_start.
Qed.

Lemma filter_none {A} (f : A → bool) (l : list A) :
  Forall (λ x, f x = false) l → filter (λ x, f x) l = [].
Proof.
  induction 1 as [|x l Hx _ IH]; [done|].
  rewrite filter_cons, decide_False by (rewrite Hx; cbn; tauto). exact IH.
Qed.

Lemma s_start_scooping transactions k tx :
  filter (λ e, is_scooping e) (s_start transactions k tx)
  = match transactions !! k with
    | Some (assetId, _) => [TransactionStateCallback assetId "Scooping"]
    | None => []
    end.
Proof.
  unfold s_start. destruct (transactions !! k) as [[assetId t]|]; [|done].
  by destruct (serialize tx).
Qed.

Lemma s_fan_out_scooping transactions k signed :
  filter (λ e, is_scooping e) (untagged (fan_out (s_start transactions) k signed))
  = (λ p, TransactionStateCallback p.1 "Scooping")
      <$> take (length signed) (drop k transactions).
Proof.
  revert k. induction signed as [|tx signed IH]; intros k; [done|].
  cbn [fan_out length]. rewrite untagged_app, untagged_of_tagged, filter_app.
  rewrite s_start_scooping, IH.
  destruct (transactions !! k) as [[assetId t]|] eqn:Hk.
  - by rewrite (drop_S _ _ _ Hk).
  - apply lookup_ge_None in Hk. by rewrite !drop_ge, !take_nil by lia.
Qed.

(** X13.  Every "Scooping" callback and every submission is issued
    before the first answer of the ledger is handled.  The "Scooping"
    callbacks are, in the order of the batch, those of the queue
    entries for which the wallet returned a transaction: an entry
    beyond the end of the signed list is never announced, and no
    announcement is repeated. *)
Theorem sweepTokens_announces_in_order assets st latest built sign signed :
  getLatestBlockhash connection = Ok latest →
  assemble (blockhash latest) assets = Ok built →
  signAllTransactions wallet = Some sign →
  sign (queue built).*2 = Ok signed →
  rtc s_step (sweepTokens assets) st →
  filter (λ e, is_scooping e) (untagged (s_trace st))
  = (λ p, TransactionStateCallback p.1 "Scooping")
      <$> take (length signed) (queue built)
  ∧ ∃ rest, s_trace st = s_trace (sweepTokens assets) ++ rest
            ∧ Forall (λ e, is_submission_start e = false) (untagged rest).
Proof.
  intros Hlatest Hbuilt Hsign Hsigned Hreach.
  destruct (sweep_submitting _ _ _ _ _ _ Hlatest Hbuilt Hsign Hsigned Hreach)
    as [Hstart _].
  destruct (s_trace_grows _ _ Hreach) as (rest & Htrace & Hrest).
  split; [|by exists rest].
  assert (filter (λ e, is_scooping e) (untagged rest) = []) as Hnone.
  { apply filter_none. eapply Forall_impl; [exact Hrest|].
    intros e. by destruct e. }
  rewrite Htrace, untagged_app, filter_app, Hnone, app_nil_r, Hstart.
  pose proof (s_fan_out_scooping (queue built) 0 signed) as Hf.
  rewrite drop_0 in Hf. unfold s_fan_out.
  case_decide; cbn [s_trace]; unfold signing_failed;
    rewrite !untagged_app, !untagged_of_top, !filter_app, Hf; cbn;
    by rewrite ?app_nil_r.
Qed.

(** X14.  A signed transaction that cannot be serialized is reported
    as failed without being submitted: its branch calls "Scooping",
    "Error" and the error callback with the caught error one after
    the other, never awaits, and nothing is sent to the ledger for
    it. *)
Theorem sweepTokens_serialize_failure assets st latest built sign signed
    i id t tx err :
  getLatestBlockhash connection = Ok latest →
  assemble (blockhash latest) assets = Ok built →
  signAllTransactions wallet = Some sign →
  sign (queue built).*2 = Ok signed →
  queue built !! i = Some (id, t) → signed !! i = Some tx →
  serialize tx = Throw err →
  rtc s_step (sweepTokens assets) st →
  of_branch i (s_trace st)
  = [TransactionStateCallback id "Scooping";
     TransactionStateCallback id "Error";
     SweepErrorCallback id (Caught err)]
  ∧ s_branches st !! i = Some Finished
  ∧ s_resume i st = None
  ∧ ∀ k raw, (Some i, SendAndConfirmRawTransaction k raw) ∉ s_trace st.
Proof.
  intros Hlatest Hbuilt Hsign Hsigned Hq Htx Hser Hreach.
  destruct (sweep_submitting _ _ _ _ _ _ Hlatest Hbuilt Hsign Hsigned Hreach)
    as [_ Hinv].
  destruct (lookup_lt_is_Some_2 (s_branches st) i) as [b Hb].
  { rewrite (s_inv_length _ _ _ _ Hinv). by eapply lookup_lt_Some. }
  destruct (s_inv_branch _ _ _ _ Hinv i tx b Htx Hb) as [Hview Hawait].
  destruct b as [assetId raw|].
  { destruct (Hawait assetId raw eq_refl) as [_ Hraw]. congruence. }
  assert (of_branch i (s_trace st)
          = [TransactionStateCallback id "Scooping";
             TransactionStateCallback id "Error";
             SweepErrorCallback id (Caught err)]) as Hmine.
  { rewrite Hview. cbn. unfold s_script, s_start. by rewrite Hq, Hser. }
  split; [done|]. split; [done|]. split.
  - unfold s_resume. by rewrite Hb.
  - intros k raw Hin. apply elem_of_of_branch in Hin. rewrite Hmine in Hin.
    set_unfold. naive_solver.
Qed.

(** ** The sweep: every announcement is answered *)

Lemma is_scooping_for_terminal id e :
  is_scooping_for id e = true → is_terminal_for id e = false.
Proof.
  destruct e as [id' state| | | | | |]; try done. cbn.
  rewrite bool_decide_eq_true, bool_decide_eq_false. by intros [_ ->] [_ [?|?]].
Qed.

Lemma length_scooping_cons id e (l : list SEvent) :
  length (filter (λ e, is_scooping_for id e) (e :: l))
  = (if is_scooping_for id e then 1 else 0)
    + length (filter (λ e, is_scooping_for id e) l).
Proof. rewrite filter_cons. by destruct (is_scooping_for id e). Qed.

Lemma is_scooping_for_scooping id a :
  is_scooping_for id (TransactionStateCallback a "Scooping") = bool_decide (a = id).
Proof. apply bool_decide_ext. split; [by intros [? _]|done]. Qed.

Lemma is_scooping_for_error id a :
  is_scooping_for id (TransactionStateCallback a "Error") = false.
Proof. apply bool_decide_eq_false_2. by intros [_ ?]. Qed.

Lemma s_start_announced id transactions k tx :
  length (filter (λ e, is_scooping_for id e) (s_start transactions k tx))
  = match transactions !! k with
    | Some (assetId, _) => if bool_decide (assetId = id) then 1 else 0
    | None => 0
    end.
Proof.
  unfold s_start. destruct (transactions !! k) as [[assetId t]|]; [|done].
  rewrite length_scooping_cons, is_scooping_for_scooping.
  destruct (serialize tx);
    rewrite !length_scooping_cons, filter_nil, ?is_scooping_for_error; cbn; lia.
Qed.

Lemma s_fan_out_announced id transactions k signed :
  length (filter (λ e, is_scooping_for id e)
            (untagged (fan_out (s_start transactions) k signed)))
  = length (terminal_states id (fan_out (s_start transactions) k signed))
    + sum_list (awaiting_for id <$> branches_from (s_branch transactions) k signed).
Proof.
  revert k. induction signed as [|tx signed IH]; intros k; [done|].
  cbn [fan_out branches_from fmap list_fmap].
  change (sum_list (?x :: ?l)) with (x + sum_list l).
  rewrite terminal_states_app, untagged_app, filter_app, !length_app.
  unfold terminal_states at 1. rewrite untagged_of_tagged, IH.
  pose proof (s_start_terminal id transactions k tx) as Ht.
  pose proof (s_start_announced id transactions k tx) as Ha. lia.
Qed.

Lemma s_continue_announces_nothing id i b evs :
  s_continue i b = Some evs → filter (λ e, is_scooping_for id e) evs = [].
Proof.
  destruct b as [assetId raw|]; [|done]. cbn.
  destruct (sendAndConfirmRawTransaction connection i raw); intros [= <-];
    apply filter_none; repeat constructor; cbn;
    apply bool_decide_eq_false_2; by intros [_ ?].
Qed.

(** X15.  Every announcement is answered, once.  In every state the
    sweep can reach, and for every id, the "Scooping" callbacks given
    that id are as many as the terminal states ("Scooped" or "Error")
    given it plus the submissions for it that are still awaited; so
    when every submission has settled, each "Scooping" has been
    followed by exactly one terminal state for the same id. *)
Theorem sweepTokens_announcements_answered assets st id :
  rtc s_step (sweepTokens assets) st →
  length (filter (λ e, is_scooping_for id e) (untagged (s_trace st)))
  = length (terminal_states id (s_trace st))
    + sum_list (awaiting_for id <$> s_branches st)
  ∧ ((∀ i b, s_branches st !! i = Some b → b = Finished) →
     length (filter (λ e, is_scooping_for id e) (untagged (s_trace st)))
     = length (terminal_states id (s_trace st))).
Proof.
  intros Hreach.
  assert (length (filter (λ e, is_scooping_for id e) (untagged (s_trace st)))
          = length (terminal_states id (s_trace st))
            + sum_list (awaiting_for id <$> s_branches st)) as Hcount.
  { revert st Hreach. apply rtc_ind_r.
    - unfold sweepTokens.
      destruct (getLatestBlockhash connection) as [latest|];
        [destruct (assemble (blockhash latest) assets) as [built|];
         [destruct (signAllTransactions wallet) as [sign|];
          [destruct (sign (queue built).*2) as [signed|]|]|]|].
      all: try (pose proof (s_fan_out_announced id (queue built) 0 signed) as Hf;
                unfold s_fan_out; case_decide).
      all: cbn [s_trace s_branches]; unfold signing_failed, caught_signing;
        rewrite ?terminal_states_app, ?untagged_app, ?filter_app, ?length_app,
          ?terminal_states_top, ?untagged_of_top;
        rewrite ?length_terminal_cons, ?length_scooping_cons, ?filter_nil;
        cbn [is_terminal_for is_scooping_for length fmap list_fmap sum_list
             sum_list_with]; lia.
    - intros st1 st2 _ [i Hi] IH.
      pose proof (s_resume_terminal id i st1 st2 Hi) as Hkeep.
      unfold s_resume in Hi.
      destruct (s_branches st1 !! i) as [b|]; [|done]. cbn in Hi.
      destruct (s_continue i b) as [evs|] eqn:Hc; [|done]. cbn in Hi.
      injection Hi as <-. cbn [s_trace s_branches] in *.
      rewrite untagged_app, filter_app, length_app, untagged_of_tagged.
      rewrite (s_continue_announces_nothing id i b evs Hc). cbn [length]. lia. }
  split; [exact Hcount|]. intros Hall. rewrite Hcount.
  assert (sum_list (awaiting_for id <$> s_branches st) = 0) as ->; [|lia].
  assert (Forall (λ b, b = Finished) (s_branches st)) as Hfin.
  { apply Forall_lookup. exact Hall. }
  clear Hcount Hall. induction Hfin as [|b l -> _ IH]; [done|]. exact IH.
Qed.

(** ** The sweep: the account closure *)

(** X16.  The account-closure transaction the loop builds does not
    depend on the asset it is built for: its one instruction names
    the token program as the account to close and the wallet's key as
    destination and authority, it carries the fetched block reference
    and one signature slot, unsigned.  The token account of the asset appears nowhere
    in it, and two assets of one sweep get the same transaction. *)
Theorem sweepTokens_closure_ignores_asset blockHash a r tx :
  assemble_asset blockHash a = Ok r → closeAccountTx r = Some tx →
  (∃ pk, publicKey wallet = Some pk
         ∧ payerKey (message tx) = pk
         ∧ instructions (message tx)
           = [createCloseAccountInstruction TOKEN_PROGRAM_ID pk pk]
         ∧ meta_pubkey <$> flat_map keys (instructions (message tx))
           = [TOKEN_PROGRAM_ID; pk; pk])
  ∧ recentBlockhash (message tx) = blockHash
  ∧ signatures tx = [unsigned_slot]
  ∧ ∀ a' r' tx', assemble_asset blockHash a' = Ok r' →
      closeAccountTx r' = Some tx' → tx' = tx.
Proof.
  intros Ha Hc.
  destruct (assemble_asset_closure _ _ _ _ Ha Hc) as (Hb & _ & pk & Hpk & ->).
  split; [by exists pk|]. split; [done|]. split; [done|].
  intros a' r' tx' Ha' Hc'.
  destruct (assemble_asset_closure _ _ _ _ Ha' Hc') as (_ & _ & pk' & Hpk' & ->).
  congruence.
Qed.
End Scooper.

(** ** The account scan: what is returned *)


Section BigIntFacts.









End BigIntFacts.

Lemma scan_account_Ok tokenList acc o :
  scan_account tokenList acc = Ok o →
  if kept tokenList acc
  then ∃ t, o = Some t ∧ account t = acc ∧ scanned tokenList t
  else o = None.
Proof.
  unfold scan_account, kept, scanned, BigInt.
  destruct (data acc) as [info|] eqn:Hdata; [|done].
  destruct (StringToBigInt (tokenAmount info)) as [z|] eqn:Hz; [|done]. cbn.
  destruct (truthy (get tokenList (mint info))) eqn:Hv; intros [= <-]; [|done].
  eexists. split; [done|]. split; [done|]. cbn. by exists info, z.
Qed.

Lemma scan_accounts tokenList accounts r :
  Forall2 (λ acc o, scan_account tokenList acc = Ok o) accounts r →
  account <$> omap id r = filter (λ acc, kept tokenList acc) accounts
  ∧ Forall (scanned tokenList) (omap id r).
Proof.
  induction 1 as [|acc o accounts r Hacc _ [IH1 IH2]]; [done|].
  apply scan_account_Ok in Hacc. rewrite filter_cons.
  destruct (kept tokenList acc).
  - destruct Hacc as (t & -> & <- & Ht). cbn.
    rewrite decide_True by done. split; [by f_equal|by constructor].
  - subst o. cbn. by case_decide.
Qed.



(** Reads of plain names. *)

Lemma field_plain t k : plain k = true → field t k = None.
Proof.
  unfold plain, TOKEN_FIELDS. rewrite !andb_true_iff, !negb_true_iff.
  intros [_ Hk%bool_decide_eq_false_1]. unfold field.
  repeat case_decide; try done; subst k; destruct Hk; set_solver.
Qed.

Lemma object_prototype_plain polluted k :
  plain k = true → object_prototype polluted k = Undefined.
Proof.
  unfold plain, TOKEN_FIELDS. rewrite !andb_true_iff, !negb_true_iff.
  intros [[Hf _] Hk%bool_decide_eq_false_1]. unfold object_prototype.
  rewrite Hf. rewrite (bool_decide_eq_false_2 (k = "strict")); [done|].
  intros ->. destruct Hk. set_solver.
Qed.

Lemma get_plain tokenList k :
  plain k = true →
  get tokenList k
  = match own tokenList !! k with Some t => Descriptor t | None => Undefined end.
Proof.
  intros Hk. unfold get. destruct (own tokenList !! k) as [t|]; [done|].
  rewrite decide_False.
  - destruct (prototype tokenList) as [t0|];
      by rewrite ?field_plain, object_prototype_plain.
  - intros ->. revert Hk. unfold plain.
    rewrite (bool_decide_eq_true_2 ("__proto__" = "__proto__")) by done.
    by rewrite andb_false_r.
Qed.


(** The scan returns whenever the ledger answers both queries with
    parsed accounts whose amounts are integers. *)
Lemma getTokenAccounts_returns wallet solanaConnection tokenList accountsOld accountsNew :
  getParsedProgramAccounts solanaConnection TOKEN_PROGRAM_ID
    [dataSize 165; memcmp 32 wallet] = Ok accountsOld →
  getParsedProgramAccounts solanaConnection TOKEN_2022_PROGRAM_ID
    [dataSize 182; memcmp 32 wallet] = Ok accountsNew →
  Forall (λ acc, ∃ info z, data acc = Some info
                           ∧ StringToBigInt (tokenAmount info) = Some z)
    (accountsOld ++ accountsNew) →
  ∃ tokens, getTokenAccounts wallet solanaConnection tokenList = Ok tokens.
Proof.
  intros Hold Hnew Hall. unfold getTokenAccounts. rewrite Hold, Hnew. cbn.
  destruct (mapR_returns (scan_account tokenList) (accountsOld ++ accountsNew))
    as [r ->]; [|by eexists].
  eapply Forall_impl; [exact Hall|]. intros acc (info & z & Hd & Hz).
  unfold scan_account, BigInt. rewrite Hd, Hz. cbn. destruct (truthy _); by eexists.
Qed.
(** ** The token directory: what loadJupyterApi builds *)

Lemma set_strict_idemp t : set_strict (set_strict t) = set_strict t.
Proof. done. Qed.

Lemma last_filter_address (allList : list TokenInfo) k t :
  last (filter (λ t, address t = k) allList) = Some t → t ∈ allList ∧ address t = k.
Proof. intros H%last_Some_elem_of. by apply list_elem_of_filter in H as [? ?]. Qed.

Lemma last_filter_is_Some (allList : list TokenInfo) k :
  is_Some (last (filter (λ t, address t = k) allList)) ↔ k ∈ address <$> allList.
Proof.
  split.
  - intros [t [Hin <-]%last_filter_address]. by apply list_elem_of_fmap_2.
  - intros (t & -> & Hin)%list_elem_of_fmap.
    assert (t ∈ filter (λ t', address t' = address t) allList) as Hf
      by (by apply list_elem_of_filter).
    destruct (filter _ allList) as [|x l] eqn:Hl using rev_ind;
      [by apply elem_of_nil in Hf|].
    rewrite last_snoc. by eexists.
Qed.

(** *** Filing *)

(** The entry of an address is the last descriptor listed with it;
    the descriptor listed under [__proto__] is filed as the
    prototype. *)
Lemma file_all (tokenMap : TokenDirectory) allList :
  own tokenMap !! "__proto__" = None →
  (∀ k, own (foldl file tokenMap allList) !! k
        = if decide (k = "__proto__") then None
          else match last (filter (λ t, address t = k) allList) with
               | Some t => Some t
               | None => own tokenMap !! k
               end)
  ∧ prototype (foldl file tokenMap allList)
    = match last (filter (λ t, address t = "__proto__") allList) with
      | Some t => Some t
      | None => prototype tokenMap
      end
  ∧ inherited_strict (foldl file tokenMap allList) = inherited_strict tokenMap.
Proof.
  revert tokenMap. induction allList as [|t allList IH]; intros tokenMap Hnone.
  - cbn. split; [|done]. intros k. by case_decide; subst.
  - cbn [foldl]. unfold file at 2 4 6. rewrite Hnone.
    rewrite (bool_decide_eq_true_2 (None = None)) by done. rewrite andb_true_r.
    rewrite !filter_cons. destruct (decide (address t = "__proto__")) as [Ht|Ht].
    + rewrite bool_decide_eq_true_2 by done.
      destruct (IH {| own := own tokenMap; prototype := Some t;
                      inherited_strict := inherited_strict tokenMap |} Hnone)
        as (Hown & Hproto & Hstrict).
      split; [|split; [|done]].
      * intros k. rewrite Hown. case_decide as Hk; [done|]. cbn.
        case_decide as Hkt; [congruence|done].
      * rewrite Hproto, last_cons.
        by destruct (last (filter (λ t0, address t0 = "__proto__") allList)).
    + rewrite bool_decide_eq_false_2 by done.
      destruct (IH {| own := <[address t := t]> (own tokenMap);
                      prototype := prototype tokenMap;
                      inherited_strict := inherited_strict tokenMap |})
        as (Hown & Hproto & Hstrict); [cbn; by rewrite lookup_insert_ne|].
      split; [|split; [|done]].
      * intros k. rewrite Hown. case_decide as Hk; [done|]. cbn.
        case_decide as Hkt.
        -- rewrite last_cons.
           destruct (last (filter (λ t0, address t0 = k) allList)); [done|].
           subst k. apply lookup_insert_eq.
        -- destruct (last (filter (λ t0, address t0 = k) allList)); [done|].
           by apply lookup_insert_ne.
      * by rewrite Hproto.
Qed.

Lemma index_tokens_own allList k :
  own (index_tokens allList) !! k
  = if decide (k = "__proto__") then None
    else last (filter (λ t, address t = k) allList).
Proof.
  unfold index_tokens. destruct (file_all empty_object allList) as (H & _); [done|].
  rewrite H. case_decide; [done|]. by destruct (last _).
Qed.

Lemma index_tokens_prototype allList :
  prototype (index_tokens allList)
  = last (filter (λ t, address t = "__proto__") allList).
Proof.
  unfold index_tokens. destruct (file_all empty_object allList) as (_ & H & _); [done|].
  rewrite H. by destruct (last _).
Qed.

(** *** Marking *)

Lemma mark_own tokenMap token tokenMap' k :
  mark tokenMap token = Ok tokenMap' →
  own tokenMap' !! k
  = if decide (k = address token) then set_strict <$> own tokenMap !! k
    else own tokenMap !! k.
Proof.
  unfold mark. destruct (own tokenMap !! address token) as [t|] eqn:Ht.
  - intros [= <-]. cbn. case_decide as Hk.
    + subst k. by rewrite lookup_insert_eq, Ht.
    + by rewrite lookup_insert_ne.
  - intros H. assert (own tokenMap' = own tokenMap) as ->
      by (destruct (get tokenMap (address token)); by simplify_eq).
    case_decide; [|done]. subst k. by rewrite Ht.
Qed.

Lemma field_not_object t k v :
  field t k = Some v →
  match v with Descriptor _ | ObjectPrototype => False | _ => True end.
Proof.
  unfold field. repeat case_decide; try (by intros [= <-]).
  destruct (strict t); by intros [= <-].
Qed.

Lemma get_inherited_not_object tokenMap k :
  own tokenMap !! k = None → k ≠ "__proto__" →
  match get tokenMap k with Descriptor _ | ObjectPrototype => False | _ => True end.
Proof.
  intros Hnone Hk. unfold get. rewrite Hnone, decide_False by done.
  assert (∀ polluted,
            match object_prototype polluted k with
            | Descriptor _ | ObjectPrototype => False
            | _ => True
            end) as Hop
    by (intros polluted; unfold object_prototype; by repeat case_match).
  destruct (prototype tokenMap) as [t0|]; [|apply Hop].
  destruct (field t0 k) as [v|] eqn:Hv; [|apply Hop].
  cbn. by eapply field_not_object.
Qed.

Lemma mark_prototype tokenMap token tokenMap' :
  own tokenMap !! "__proto__" = None →
  mark tokenMap token = Ok tokenMap' →
  prototype tokenMap'
  = if decide (address token = "__proto__") then set_strict <$> prototype tokenMap
    else prototype tokenMap.
Proof.
  intros Hnone. unfold mark.
  destruct (own tokenMap !! address token) as [t|] eqn:Ht.
  - intros [= <-]. cbn. case_decide as Hk; [|done]. rewrite Hk in Ht. congruence.
  - case_decide as Hk.
    + unfold get. rewrite Ht, decide_True by done.
      destruct (prototype tokenMap) as [t0|]; by intros [= <-].
    + pose proof (get_inherited_not_object _ _ Ht Hk) as Hv.
      destruct (get tokenMap (address token)); try done; by intros [= <-].
Qed.

(** Marking changes the [strict] member of the listed entries, and
    nothing else of them. *)
Lemma mark_strict_own strictList tokenMap tokenMap' k :
  mark_strict strictList tokenMap = Ok tokenMap' →
  own tokenMap' !! k
  = if decide (k ∈ address <$> strictList)
    then set_strict <$> own tokenMap !! k else own tokenMap !! k.
Proof.
  revert tokenMap. induction strictList as [|s strictList IH]; intros tokenMap; cbn.
  - intros [= <-]. case_decide as H; [|done]. by apply elem_of_nil in H.
  - destruct (mark tokenMap s) as [m1|] eqn:Hm; [|done]. cbn.
    intros H%IH. rewrite H, (mark_own _ _ _ k Hm).
    destruct (decide (k = address s)) as [->|Hne].
    + rewrite (decide_True (P := address s ∈ address s :: _)) by left.
      case_decide; [|done]. destruct (own tokenMap !! address s); [|done].
      cbn. by rewrite set_strict_idemp.
    + repeat case_decide; try done; set_solver.
Qed.

Lemma mark_strict_prototype strictList tokenMap tokenMap' :
  own tokenMap !! "__proto__" = None →
  mark_strict strictList tokenMap = Ok tokenMap' →
  prototype tokenMap'
  = if decide ("__proto__" ∈ address <$> strictList)
    then set_strict <$> prototype tokenMap else prototype tokenMap.
Proof.
  revert tokenMap. induction strictList as [|s strictList IH]; intros tokenMap Hnone;
    cbn.
  - intros [= <-]. case_decide as H; [|done]. by apply elem_of_nil in H.
  - destruct (mark tokenMap s) as [m1|] eqn:Hm; [|done]. cbn. intros H.
    assert (own m1 !! "__proto__" = None) as Hnone1.
    { rewrite (mark_own _ _ _ _ Hm), Hnone. by destruct (decide (_ = address s)). }
    rewrite (IH m1 Hnone1 H), (mark_prototype _ _ _ Hnone Hm).
    destruct (decide (address s = "__proto__")) as [Hs|Hs].
    + rewrite (decide_True (P := "__proto__" ∈ address s :: _))
        by (rewrite Hs; left).
      case_decide; [|done]. destruct (prototype tokenMap); [|done].
      cbn. by rewrite set_strict_idemp.
    + repeat case_decide; try done; set_solver.
Qed.




Lemma loadJupyterApi_Ok createJupiterApiClient fetch_json allList strictList
    urls quoteApi tokenMap :
  fetch_json ALL_TOKENS = Ok allList →
  fetch_json STRICT_TOKENS = Ok strictList →
  loadJupyterApi createJupiterApiClient fetch_json = (urls, Ok (quoteApi, tokenMap)) →
  urls = [ALL_TOKENS; STRICT_TOKENS] ∧ quoteApi = createJupiterApiClient
  ∧ mark_strict strictList (index_tokens allList) = Ok tokenMap.
Proof.
  unfold loadJupyterApi. intros -> ->.
  destruct (mark_strict _ _) as [m|]; cbn; [|by intros [=]].
  by intros [= <- <- <-].
Qed.

Lemma loaded_own allList strictList tokenMap k :
  mark_strict strictList (index_tokens allList) = Ok tokenMap →
  own tokenMap !! k
  = if decide (k = "__proto__") then None
    else (λ t, if decide (k ∈ address <$> strictList) then set_strict t else t)
           <$> last (filter (λ t, address t = k) allList).
Proof.
  intros H. rewrite (mark_strict_own _ _ _ k H), index_tokens_own.
  repeat case_decide; try done; by destruct (last _).
Qed.

Lemma loaded_prototype allList strictList tokenMap :
  mark_strict strictList (index_tokens allList) = Ok tokenMap →
  prototype tokenMap
  = (λ t, if decide ("__proto__" ∈ address <$> strictList) then set_strict t else t)
      <$> last (filter (λ t, address t = "__proto__") allList).
Proof.
  intros H. rewrite (mark_strict_prototype _ _ _ (index_tokens_own _ _) H).
  - rewrite index_tokens_prototype. case_decide; by destruct (last _).
Qed.

(** X1.  In the directory [loadJupyterApi] returns, every descriptor
    is filed under its own address, and the keys are the addresses of
    the full list other than [__proto__], no more and no fewer; a
    descriptor listed with the address [__proto__] is no key: it has
    become the prototype of the directory.  The client returned is
    the one the library created. *)
Theorem loadJupyterApi_keys createJupiterApiClient fetch_json allList strictList
    urls quoteApi tokenMap :
  fetch_json ALL_TOKENS = Ok allList →
  fetch_json STRICT_TOKENS = Ok strictList →
  loadJupyterApi createJupiterApiClient fetch_json = (urls, Ok (quoteApi, tokenMap)) →
  quoteApi = createJupiterApiClient
  ∧ (∀ k t, own tokenMap !! k = Some t → address t = k)
  ∧ (∀ k, is_Some (own tokenMap !! k)
          ↔ k ∈ address <$> allList ∧ k ≠ "__proto__")
  ∧ (is_Some (prototype tokenMap) ↔ "__proto__" ∈ address <$> allList)
  ∧ (∀ t, prototype tokenMap = Some t → address t = "__proto__").
Proof.
  intros Hall Hstrict Hload.
  destruct (loadJupyterApi_Ok _ _ _ _ _ _ _ Hall Hstrict Hload) as (_ & -> & Hm).
  split; [done|]. split; [|split; [|split]].
  - intros k t. rewrite (loaded_own _ _ _ k Hm). case_decide; [done|].
    destruct (last _) as [t0|] eqn:Hlast; [|done]. cbn. intros [= <-].
    apply last_filter_address in Hlast as [_ <-]. by case_decide.
  - intros k. rewrite (loaded_own _ _ _ k Hm). case_decide as Hk.
    + split; [by intros [? ?]|by intros [_ ?]].
    + rewrite fmap_is_Some, last_filter_is_Some. by split; [|intros [? _]].
  - rewrite (loaded_prototype _ _ _ Hm), fmap_is_Some. apply last_filter_is_Some.
  - intros t. rewrite (loaded_prototype _ _ _ Hm).
    destruct (last _) as [t0|] eqn:Hlast; [|done]. cbn. intros [= <-].
    apply last_filter_address in Hlast as [_ <-]. by case_decide.
Qed.

(** X2.  The descriptor filed under an address is the last one the full
    list has for it, with [strict] set to true when the address is on
    the strict list and left as fetched when it is not. *)
Theorem loadJupyterApi_last_wins createJupiterApiClient fetch_json allList strictList
    urls quoteApi tokenMap k t :
  fetch_json ALL_TOKENS = Ok allList →
  fetch_json STRICT_TOKENS = Ok strictList →
  loadJupyterApi createJupiterApiClient fetch_json = (urls, Ok (quoteApi, tokenMap)) →
  own tokenMap !! k = Some t →
  ∃ t0, last (filter (λ t, address t = k) allList) = Some t0
        ∧ t = (if decide (k ∈ address <$> strictList) then set_strict t0 else t0)
        ∧ (k ∈ address <$> strictList → strict t = Some true)
        ∧ (k ∉ address <$> strictList → strict t = strict t0).
Proof.
  intros Hall Hstrict Hload.
  destruct (loadJupyterApi_Ok _ _ _ _ _ _ _ Hall Hstrict Hload) as (_ & _ & Hm).
  rewrite (loaded_own _ _ _ k Hm). case_decide; [done|].
  destruct (last _) as [t0|]; [|done]. cbn. intros [= <-].
  exists t0. split; [done|]. split; [done|]. by case_decide.
Qed.


(** ** The scan as a whole *)

Lemma scan_account_readable tokenList acc :
  if readable acc then ∃ o, scan_account tokenList acc = Ok o
  else scan_account tokenList acc = Throw (scan_error acc).
Proof.
  unfold readable, scan_account, scan_error, BigInt.
  destruct (data acc) as [info|]; [|done].
  destruct (StringToBigInt (tokenAmount info)) as [z|].
  - rewrite bool_decide_eq_true_2 by done. cbn. destruct (truthy _); by eexists.
  - rewrite bool_decide_eq_false_2; [done|]. by intros [? ?].
Qed.

(** X4.  The scan is all or nothing.  [getTokenAccounts] returns
    exactly when the ledger answers both queries and every fetched
    account, of a known token or not, has parsed data and an amount
    that converts to a BigInt.  The first account that has not makes
    the whole scan throw, a TypeError when its data is not parsed and
    a SyntaxError when its amount is no integer, whatever the
    directory holds. *)
Theorem getTokenAccounts_all_or_nothing wallet solanaConnection tokenList :
  ((∃ tokens, getTokenAccounts wallet solanaConnection tokenList = Ok tokens)
   ↔ ∃ accountsOld accountsNew,
       getParsedProgramAccounts solanaConnection TOKEN_PROGRAM_ID
         [dataSize 165; memcmp 32 wallet] = Ok accountsOld
       ∧ getParsedProgramAccounts solanaConnection TOKEN_2022_PROGRAM_ID
           [dataSize 182; memcmp 32 wallet] = Ok accountsNew
       ∧ forallb readable (accountsOld ++ accountsNew) = true)
  ∧ ∀ accountsOld accountsNew before acc after,
      getParsedProgramAccounts solanaConnection TOKEN_PROGRAM_ID
        [dataSize 165; memcmp 32 wallet] = Ok accountsOld →
      getParsedProgramAccounts solanaConnection TOKEN_2022_PROGRAM_ID
        [dataSize 182; memcmp 32 wallet] = Ok accountsNew →
      accountsOld ++ accountsNew = before ++ acc :: after →
      forallb readable before = true → readable acc = false →
      getTokenAccounts wallet solanaConnection tokenList = Throw (scan_error acc).
Proof.
  unfold getTokenAccounts. split; [split|].
  - intros [tokens H].
    destruct (getParsedProgramAccounts _ TOKEN_PROGRAM_ID _) as [accountsOld|]; [|done].
    destruct (getParsedProgramAccounts _ TOKEN_2022_PROGRAM_ID _) as [accountsNew|];
      [|done].
    exists accountsOld, accountsNew. split; [done|]. split; [done|].
    cbn in H. destruct (mapR _ _) as [r|] eqn:Hr; [|done].
    apply mapR_Ok in Hr. apply forallb_true_Forall, Forall_forall. intros acc Hacc.
    apply list_elem_of_lookup in Hacc as [i Hi].
    destruct (Forall2_lookup_l _ _ _ _ _ Hr Hi) as (o & _ & Ho).
    pose proof (scan_account_readable tokenList acc) as Hread.
    destruct (readable acc); [done|]. by rewrite Ho in Hread.
  - intros (accountsOld & accountsNew & -> & -> & Hall). cbn.
    destruct (mapR_returns (scan_account tokenList) (accountsOld ++ accountsNew))
      as [r ->]; [|by eexists].
    apply forallb_true_Forall in Hall. rewrite Forall_forall in Hall. apply Forall_forall. intros acc Hacc.
    pose proof (scan_account_readable tokenList acc) as Hread.
    specialize (Hall acc Hacc). by destruct (readable acc).
  - intros accountsOld accountsNew before acc after -> -> Happ Hbefore Hacc. cbn.
    rewrite Happ.
    rewrite (mapR_Throw _ before acc after (scan_error acc)); [done| |].
    + apply forallb_true_Forall in Hbefore. rewrite Forall_forall in Hbefore. apply Forall_forall.
      intros y Hy. pose proof (scan_account_readable tokenList y) as Hread.
      specialize (Hbefore y Hy). by destruct (readable y).
    + pose proof (scan_account_readable tokenList acc) as Hread.
      by rewrite Hacc in Hread.
Qed.

(** ** From the token service to the scan *)

Lemma loaded_get_listed allList strictList tokenMap k :
  mark_strict strictList (index_tokens allList) = Ok tokenMap →
  k ∈ address <$> allList →
  ∃ d, get tokenMap k = Descriptor d ∧ address d = k
       ∧ (k ∈ address <$> strictList → strict d = Some true).
Proof.
  intros Hm Hk. apply last_filter_is_Some in Hk as [t0 Hlast].
  pose proof (last_filter_address _ _ _ Hlast) as [_ Haddr].
  unfold get. rewrite (loaded_own _ _ _ k Hm).
  destruct (decide (k = "__proto__")) as [->|Hne].
  - rewrite (loaded_prototype _ _ _ Hm), Hlast. cbn. eexists. split; [done|].
    case_decide; [|done]. by split.
  - rewrite Hlast. cbn. eexists. split; [done|]. case_decide; [|done]. by split.
Qed.

Lemma loaded_get_plain allList strictList tokenMap k :
  mark_strict strictList (index_tokens allList) = Ok tokenMap →
  plain k = true → truthy (get tokenMap k) = true → k ∈ address <$> allList.
Proof.
  intros Hm Hplain. rewrite (get_plain _ _ Hplain), (loaded_own _ _ _ k Hm).
  case_decide; [done|]. destruct (last _) as [t0|] eqn:Hlast; [|done].
  intros _. apply last_filter_is_Some. by eexists.
Qed.

(** X5.  Scanning with the directory [loadJupyterApi] built keeps, in
    the ledger's order, the accounts at whose mint address the read of
    the directory is truthy.  Every account whose mint is an address
    of the full token list is among them, and its record carries a
    descriptor whose address is the mint, so that the id the
    callbacks of [findQuotes] are given is the mint, and which is
    marked strict when the mint is on the strict list.  An account
    whose mint is a plain name, as a base58 address is, is kept only
    if the mint is an address of the full list. *)
Theorem getTokenAccounts_with_loaded_directory createJupiterApiClient fetch_json
    allList strictList urls quoteApi tokenMap wallet solanaConnection tokens :
  fetch_json ALL_TOKENS = Ok allList →
  fetch_json STRICT_TOKENS = Ok strictList →
  loadJupyterApi createJupiterApiClient fetch_json = (urls, Ok (quoteApi, tokenMap)) →
  getTokenAccounts wallet solanaConnection tokenMap = Ok tokens →
  (∃ accountsOld accountsNew,
     getParsedProgramAccounts solanaConnection TOKEN_PROGRAM_ID
       [dataSize 165; memcmp 32 wallet] = Ok accountsOld
     ∧ getParsedProgramAccounts solanaConnection TOKEN_2022_PROGRAM_ID
         [dataSize 182; memcmp 32 wallet] = Ok accountsNew
     ∧ account <$> tokens
       = filter (λ acc, kept tokenMap acc) (accountsOld ++ accountsNew))
  ∧ (∀ acc, listed allList acc = true → kept tokenMap acc = true)
  ∧ (∀ acc info, data acc = Some info → plain (mint info) = true →
       kept tokenMap acc = true → listed allList acc = true)
  ∧ Forall (λ t, ∃ info,
              data (account t) = Some info
              ∧ (mint info ∈ address <$> allList →
                 ∃ d, token t = Descriptor d
                      ∧ address d = mint info
                      ∧ address_of (token t) = Some (mint info)
                      ∧ (mint info ∈ address <$> strictList →
                         strict d = Some true)))
      tokens.
Proof.
  intros Hall Hstrict Hload.
  destruct (loadJupyterApi_Ok _ _ _ _ _ _ _ Hall Hstrict Hload) as (_ & _ & Hm).
  unfold getTokenAccounts.
  destruct (getParsedProgramAccounts _ TOKEN_PROGRAM_ID _) as [accountsOld|]; [|done].
  destruct (getParsedProgramAccounts _ TOKEN_2022_PROGRAM_ID _) as [accountsNew|]; [|done].
  cbn. destruct (mapR _ _) as [r|] eqn:Hr; [|done]. cbn. intros [= <-].
  apply mapR_Ok, scan_accounts in Hr as [Hacc Hbal].
  split; [by exists accountsOld, accountsNew|]. split; [|split].
  - intros acc. unfold listed, kept. destruct (data acc) as [info|]; [|done].
    intros Hk%bool_decide_eq_true_1.
    destruct (loaded_get_listed _ _ _ _ Hm Hk) as (d & -> & _). done.
  - intros acc info Hd Hplain. unfold listed, kept. rewrite Hd.
    intros Hk. apply bool_decide_eq_true_2. by eapply loaded_get_plain.
  - eapply Forall_impl; [exact Hbal|]. intros t (info & z & Hd & Ht & _).
    exists info. split; [done|]. intros Hk.
    destruct (loaded_get_listed _ _ _ _ Hm Hk) as (d & Hget & Haddr & Hs).
    exists d. rewrite Ht, Hget. cbn. by rewrite Haddr.
Qed.

(** ** From the scan to the sweep *)


Lemma getTokenAccounts_scanned wallet solanaConnection tokenList tokens :
  getTokenAccounts wallet solanaConnection tokenList = Ok tokens →
  Forall (scanned tokenList) tokens.
Proof.
  unfold getTokenAccounts.
  destruct (getParsedProgramAccounts _ TOKEN_PROGRAM_ID _) as [accountsOld|]; [|done].
  destruct (getParsedProgramAccounts _ TOKEN_2022_PROGRAM_ID _) as [accountsNew|]; [|done].
  cbn. destruct (mapR _ _) as [r|] eqn:Hr; [|done]. cbn. intros [= <-].
  by apply mapR_Ok, scan_accounts in Hr as [_ ?].
Qed.


(** ** From the scan to the quotes *)

(** X17.  Every quote request [findQuotes] makes belongs to the branch
    of a scanned asset.  It names the output mint given, and as
    amount the number [Number] makes of the decimal rendering of the
    integer that asset's account holds on the ledger.  Its input
    mint is the address of the descriptor the directory gave, and is
    undefined when the directory gave no descriptor; it is the mint
    of the account when that mint is a key of a directory that files
    descriptors under their own address, as the directory of
    [loadJupyterApi] does. *)
Theorem findQuotes_requests_what_is_held outputMint' walletAddress quoteApi js
    conn tokens st o r :
  rtc (q_step outputMint' walletAddress quoteApi js)
      (findQuotes outputMint' walletAddress js conn tokens) st →
  (o, QuoteGet r) ∈ q_trace st →
  ∃ i t info z,
    o = Some i ∧ q_assets st !! i = Some t
    ∧ data (account t) = Some info
    ∧ token t = get tokens (mint info)
    ∧ StringToBigInt (tokenAmount info) = Some z
    ∧ r = {| inputMint := address_of (token t);
             outputMint := outputMint';
             amount := Number js (toString z) |}
    ∧ ((∀ k d, own tokens !! k = Some d → address d = k) →
       is_Some (own tokens !! mint info) → inputMint r = Some (mint info)).
Proof.
  intros Hreach Hin.
  destruct (findQuotes_reachable _ _ _ _ _ _ _ Hreach)
    as [(assets & Hscan & Hinv)|(error & Hscan & ->)].
  2:{ unfold findQuotes in Hin. rewrite Hscan in Hin. cbn in Hin.
      apply elem_of_cons in Hin as [[=]|Hin]. by apply elem_of_nil in Hin. }
  destruct o as [i|]; [|by destruct (q_inv_top _ _ _ _ _ _ Hinv _ Hin)].
  apply elem_of_of_branch in Hin.
  destruct (assets !! i) as [t|] eqn:Ht;
    [|rewrite (q_inv_outside _ _ _ _ _ _ Hinv i Ht) in Hin; by apply elem_of_nil in Hin].
  destruct (lookup_lt_is_Some_2 (q_branches st) i) as [b Hb].
  { rewrite (q_inv_length _ _ _ _ _ _ Hinv). by eapply lookup_lt_Some. }
  destruct (q_inv_branch _ _ _ _ _ _ Hinv i t b Ht Hb) as [Hview Hquote].
  rewrite Hview in Hin.
  assert (QuoteGet r ∈ q_script outputMint' walletAddress quoteApi js i t)
    as Hscript.
  { destruct (q_view_prefix outputMint' walletAddress quoteApi js i t b Hquote)
      as [k ->].
    set_solver. }
  clear Hin.
  assert (r = quoteRequest outputMint' js t) as ->.
  { unfold q_script, q_start in Hscript.
    destruct (quoteGet quoteApi i _) as [quote|];
      [destruct (swapPost quoteApi i _)|]; cbn in Hscript;
      repeat (apply elem_of_cons in Hscript as [Hscript|Hscript];
              [try discriminate Hscript|]);
      try (by apply elem_of_nil in Hscript); by injection Hscript. }
  pose proof (getTokenAccounts_scanned _ _ _ _ Hscan) as Hall.
  rewrite Forall_lookup in Hall.
  destruct (Hall i t Ht) as (info & z & Hd & Htok & _ & Hz & Hbal).
  exists i, t, info, z. rewrite (q_inv_assets _ _ _ _ _ _ Hinv).
  split; [done|]. split; [done|]. split; [done|]. split; [done|]. split; [done|].
  split; [unfold quoteRequest; by rewrite Hbal|].
  intros Hkeys [d Hown]. cbn. rewrite Htok. unfold get. rewrite Hown. cbn.
  f_equal. by apply Hkeys.
Qed.
(** * Worked examples, continued *)




Lemma findQuotes_branches_isolated_witness :
  let failed := q_run "USDC" "Wallet" Demo.quoteApi Demo.js [1]
                  (findQuotes "USDC" "Wallet" Demo.js Demo.connection Demo.tokens) in
  rtc (q_step "USDC" "Wallet" Demo.quoteApi Demo.js)
      (findQuotes "USDC" "Wallet" Demo.js Demo.connection Demo.tokens) failed
  ∧ q_assets failed !! 0 = Some Demo.scannedX
  ∧ (Some 1, ErrorCallback (Some "MintY") "Couldn't get quote") ∈ q_trace failed
  ∧ of_branch 0 (q_trace (q_run "USDC" "Wallet" Demo.quoteApi Demo.js [0; 0] failed))
    = q_script "USDC" "Wallet" Demo.quoteApi Demo.js 0 Demo.scannedX
  ∧ FoundSwapCallback (Some "MintX") Demo.swapX
    ∈ q_script "USDC" "Wallet" Demo.quoteApi Demo.js 0 Demo.scannedX.
Proof.
  intros failed.
  assert (rtc (q_step "USDC" "Wallet" Demo.quoteApi Demo.js)
              (findQuotes "USDC" "Wallet" Demo.js Demo.connection Demo.tokens) failed)
    as Hreach by apply q_run_reachable.
  assert (q_assets failed !! 0 = Some Demo.scannedX) as Hasset
    by (vm_compute; reflexivity).
  split; [exact Hreach|]. split; [exact Hasset|].
  split; [vm_compute; do 4 apply list_elem_of_further; apply list_elem_of_here|].
  destruct (findQuotes_branches_isolated _ _ _ _ _ _ _ _ _ Hreach Hasset)
    as (_ & _ & Hrun & _ & Hcalls).
  split; [exact Hrun|].
  destruct (Hcalls Demo.quote) as [_ Hswap]; [vm_compute; reflexivity|].
  apply Hswap. vm_compute. reflexivity.
Defined.

Lemma findQuotes_promise_resolves_witness :
  let started := findQuotes "USDC" "Wallet" Demo.js Demo.connection Demo.tokens in
  let quoted := q_run "USDC" "Wallet" Demo.quoteApi Demo.js [1; 0; 0] started in
  let failed := findQuotes "USDC" "Wallet" Demo.js Demo.offline Demo.tokens in
  getTokenAccounts "Wallet" Demo.connection Demo.tokens
    = Ok [Demo.scannedX; Demo.scannedY]
  ∧ q_promise started = Pending
  ∧ q_promise (q_run "USDC" "Wallet" Demo.quoteApi Demo.js [1; 0] started)
    = Pending
  ∧ q_promise quoted = Resolved
  ∧ q_assets quoted = [Demo.scannedX; Demo.scannedY]
  ∧ of_branch 0 (q_trace quoted)
    = q_script "USDC" "Wallet" Demo.quoteApi Demo.js 0 Demo.scannedX
  ∧ getTokenAccounts "Wallet" Demo.offline Demo.tokens = Throw (Reason "fetch failed")
  ∧ q_trace failed = top [ConsoleError (Reason "fetch failed")]
  ∧ q_promise failed = Resolved
  ∧ callbacks (q_trace failed) = []
  ∧ caller_view failed
    = caller_view (findQuotes "USDC" "Wallet" Demo.js Demo.empty Demo.tokens).
Proof.
  intros started quoted failed.
  assert (getTokenAccounts "Wallet" Demo.connection Demo.tokens
          = Ok [Demo.scannedX; Demo.scannedY]) as Hfound by (vm_compute; reflexivity).
  assert (rtc (q_step "USDC" "Wallet" Demo.quoteApi Demo.js) started quoted)
    as Hquoted by apply q_run_reachable.
  assert (rtc (q_step "USDC" "Wallet" Demo.quoteApi Demo.js) failed failed) as Hreach
    by apply rtc_refl.
  assert (getTokenAccounts "Wallet" Demo.offline Demo.tokens
          = Throw (Reason "fetch failed")) as Hscan by (vm_compute; reflexivity).
  destruct (findQuotes_promise_resolves _ _ _ _ _ _ _ Hquoted)
    as (_ & _ & _ & _ & _ & _ & _ & Htie).
  destruct (Htie _ Hfound) as (Hassets & _ & Hpending & Hdone).
  assert (q_promise quoted = Resolved) as Hresolved by (vm_compute; reflexivity).
  split; [exact Hfound|]. split; [by apply Hpending|].
  split; [vm_compute; reflexivity|]. split; [exact Hresolved|].
  split; [exact Hassets|].
  split; [exact (proj2 (Hdone Hresolved 0 Demo.scannedX eq_refl))|].
  split; [exact Hscan|].
  destruct (findQuotes_promise_resolves _ _ _ _ _ _ _ Hreach)
    as (_ & _ & _ & _ & _ & _ & Hfailed & _).
  destruct (Hfailed _ Hscan) as (Htrace & Hpromise & Hcalls & _ & Hsame).
  split; [exact Htrace|]. split; [exact Hpromise|]. split; [exact Hcalls|].
  apply (Hsame Demo.empty); [vm_compute; reflexivity|apply rtc_refl].
Defined.

Lemma sweepTokens_signing_fails_witness :
  let refused :=
    sweepTokens Demo.deserialize Demo.serialize Demo.refusing Demo.connection
      Demo.assets in
  rtc (s_step Demo.connection) refused refused
  ∧ (None, SignAllTransactions [Demo.payloadTx]) ∈ s_trace refused
  ∧ filter (λ e, is_error_callback e) (untagged (s_trace refused))
    = [SweepErrorCallback "" (Literal "Failed signing transactions!")]
  ∧ (∀ o i raw, (o, SendAndConfirmRawTransaction i raw) ∉ s_trace refused)
  ∧ (∀ o id state, (o, TransactionStateCallback id state) ∉ s_trace refused)
  ∧ s_promise refused = Resolved.
Proof.
  intros refused.
  assert (rtc (s_step Demo.connection) refused refused) as Hreach by apply rtc_refl.
  assert ((None, SignAllTransactions [Demo.payloadTx]) ∈ s_trace refused) as Hcall
    by (vm_compute; apply list_elem_of_further, list_elem_of_here).
  split; [exact Hreach|]. split; [exact Hcall|].
  destruct (sweepTokens_signing_fails Demo.deserialize Demo.serialize Demo.refusing
              Demo.connection Demo.assets refused
              (λ _, Throw (Reason "User rejected the request"))
              [Demo.payloadTx] (Reason "User rejected the request")
              Hreach eq_refl Hcall eq_refl)
    as (Hsend & Herr & Hstate & Hpromise & _).
  repeat split; assumption.
Defined.

Lemma sweepTokens_lifecycle_witness :
  let swept := s_run Demo.connection [0]
                 (sweepTokens Demo.deserialize Demo.serialize Demo.wallet
                    Demo.connection Demo.assets) in
  rtc (s_step Demo.connection)
      (sweepTokens Demo.deserialize Demo.serialize Demo.wallet Demo.connection
         Demo.assets) swept
  ∧ (Some 0, SendAndConfirmRawTransaction 0 (char_codes "Payload"))
    ∈ s_trace swept
  ∧ (length (terminal_states "MintX" (s_trace swept))
     ≤ length (filter (λ a, address (token (asset a)) = "MintX") Demo.assets))%nat
  ∧ s_branches (s_run Demo.connection [0] swept) !! 0 = Some Finished.
Proof.
  intros swept.
  assert (rtc (s_step Demo.connection)
              (sweepTokens Demo.deserialize Demo.serialize Demo.wallet Demo.connection
                 Demo.assets) swept) as Hreach by apply s_run_reachable.
  assert ((Some 0, SendAndConfirmRawTransaction 0 (char_codes "Payload"))
          ∈ s_trace swept) as Hsub
    by (vm_compute; do 3 apply list_elem_of_further; apply list_elem_of_here).
  split; [exact Hreach|]. split; [exact Hsub|].
  destruct (sweepTokens_lifecycle _ _ _ _ _ _ _ _ _ Hreach Hsub)
    as (assetId & _ & _ & Hrun & Hcount).
  split; [apply Hcount|exact Hrun].
Defined.


Lemma sweepTokens_block_reference_witness :
  let swept := s_run Demo.connection [0]
                 (sweepTokens Demo.deserialize Demo.serialize Demo.wallet
                    Demo.connection Demo.assets) in
  rtc (s_step Demo.connection)
      (sweepTokens Demo.deserialize Demo.serialize Demo.wallet Demo.connection
         Demo.assets) swept
  ∧ (∃ rest, s_trace swept = (None, GetLatestBlockhash) :: rest
             ∧ ∀ o, (o, GetLatestBlockhash) ∉ rest)
  ∧ (Some 0, SendAndConfirmRawTransaction 0 (char_codes "Payload")) ∈ s_trace swept
  ∧ ∃ latest built sign signed tx,
      getLatestBlockhash Demo.connection = Ok latest
      ∧ assemble Demo.deserialize Demo.wallet (blockhash latest) Demo.assets = Ok built
      ∧ signAllTransactions Demo.wallet = Some sign
      ∧ sign (queue built).*2 = Ok signed
      ∧ signed !! 0 = Some tx
      ∧ Demo.serialize tx = Ok (char_codes "Payload")
      ∧ is_Some (queue built !! 0).
Proof.
  intros swept.
  assert (rtc (s_step Demo.connection)
              (sweepTokens Demo.deserialize Demo.serialize Demo.wallet Demo.connection
                 Demo.assets) swept) as Hreach by apply s_run_reachable.
  assert ((Some 0, SendAndConfirmRawTransaction 0 (char_codes "Payload"))
          ∈ s_trace swept) as Hsub
    by (vm_compute; do 3 apply list_elem_of_further; apply list_elem_of_here).
  destruct (sweepTokens_block_reference _ _ _ _ _ _ Hreach) as (Honce & _ & Hsent).
  split; [exact Hreach|]. split; [exact Honce|]. split; [exact Hsub|].
  exact (proj2 (Hsent _ _ _ Hsub)).
Defined.

Lemma sweepTokens_never_reports_txid_witness :
  let swept := s_run Demo.connection [0]
                 (sweepTokens Demo.deserialize Demo.serialize Demo.wallet
                    Demo.connection Demo.assets) in
  rtc (s_step Demo.connection)
      (sweepTokens Demo.deserialize Demo.serialize Demo.wallet Demo.connection
         Demo.assets) swept
  ∧ sendAndConfirmRawTransaction Demo.connection 0 (char_codes "Payload")
    = Ok "Signature0"
  ∧ ∀ o id txid, (o, TransactionIdCallback id txid) ∉ s_trace swept.
Proof.
  intros swept.
  assert (rtc (s_step Demo.connection)
              (sweepTokens Demo.deserialize Demo.serialize Demo.wallet Demo.connection
                 Demo.assets) swept) as Hreach by apply s_run_reachable.
  split; [exact Hreach|]. split; [reflexivity|].
  exact (sweepTokens_never_reports_txid _ _ _ _ _ _ Hreach).
Defined.


(** ** Where the code departs from the claims *)




(** C8 as stated fails: the transaction that is signed and submitted
    for X carries the block reference of the aggregator's payload, not
    the one [sweepTokens] fetched. *)
Lemma sweepTokens_submits_payload_reference :
  let swept := s_run Demo.connection [0]
                 (sweepTokens Demo.deserialize Demo.serialize Demo.wallet
                    Demo.connection Demo.assets) in
  getLatestBlockhash Demo.connection = Ok Demo.latest
  ∧ (None, SignAllTransactions [Demo.payloadTx]) ∈ s_trace swept
  ∧ (Some 0, SendAndConfirmRawTransaction 0 (char_codes "Payload"))
    ∈ s_trace swept
  ∧ (Some 0, TransactionStateCallback "MintX" "Scooped") ∈ s_trace swept
  ∧ recentBlockhash (message Demo.payloadTx) ≠ blockhash Demo.latest.
Proof.
  intros swept.
  split; [reflexivity|].
  split; [vm_compute; apply list_elem_of_further, list_elem_of_here|].
  split; [vm_compute; do 3 apply list_elem_of_further; apply list_elem_of_here|].
  split; [vm_compute; do 4 apply list_elem_of_further; apply list_elem_of_here|].
  vm_compute. discriminate.
Qed.



(** ** The token directory and the scan *)

Lemma loadJupyterApi_keys_witness :
  loadJupyterApi Demo.quoteApi Market.fetch_json
    = ([ALL_TOKENS; STRICT_TOKENS], Ok (Demo.quoteApi, Demo.tokens))
  ∧ (∀ k t, own Demo.tokens !! k = Some t → address t = k)
  ∧ (∀ k, is_Some (own Demo.tokens !! k)
          ↔ k ∈ ["MintX"; "MintY"] ∧ k ≠ "__proto__")
  ∧ own (index_tokens [Market.listedX; Market.proto]) = {["MintX" := Market.listedX]}
  ∧ prototype (index_tokens [Market.listedX; Market.proto]) = Some Market.proto.
Proof.
  assert (loadJupyterApi Demo.quoteApi Market.fetch_json
          = ([ALL_TOKENS; STRICT_TOKENS], Ok (Demo.quoteApi, Demo.tokens))) as Hload
    by (vm_compute; reflexivity).
  split; [exact Hload|].
  destruct (loadJupyterApi_keys Demo.quoteApi Market.fetch_json
              [Market.listedX; Demo.tokenY] [Market.listedX] _ _ _
              eq_refl eq_refl Hload) as (_ & Hkey & Hdom & _).
  split; [exact Hkey|]. split; [exact Hdom|].
  split; vm_compute; reflexivity.
Defined.

Lemma loadJupyterApi_last_wins_witness :
  loadJupyterApi Demo.quoteApi Market.fetch_json
    = ([ALL_TOKENS; STRICT_TOKENS], Ok (Demo.quoteApi, Demo.tokens))
  ∧ own Demo.tokens !! "MintX" = Some Demo.tokenX
  ∧ ∃ t0, last (filter (λ t, address t = "MintX") [Market.listedX; Demo.tokenY])
          = Some t0
          ∧ strict t0 = None
          ∧ Demo.tokenX = set_strict t0.
Proof.
  assert (loadJupyterApi Demo.quoteApi Market.fetch_json
          = ([ALL_TOKENS; STRICT_TOKENS], Ok (Demo.quoteApi, Demo.tokens))) as Hload
    by (vm_compute; reflexivity).
  assert (own Demo.tokens !! "MintX" = Some Demo.tokenX) as Hx
    by (vm_compute; reflexivity).
  split; [exact Hload|]. split; [exact Hx|].
  destruct (loadJupyterApi_last_wins Demo.quoteApi Market.fetch_json
              [Market.listedX; Demo.tokenY] [Market.listedX] _ _ _ "MintX" Demo.tokenX
              eq_refl eq_refl Hload Hx) as (t0 & Hlast & Ht & _).
  exists t0. split; [exact Hlast|].
  vm_compute in Hlast. injection Hlast as <-. split; reflexivity.
Defined.


Lemma getTokenAccounts_all_or_nothing_witness :
  getTokenAccounts "Wallet" Ledger.unparsed Demo.tokens = Throw TypeError
  ∧ known Demo.tokens Ledger.accountF = false
  ∧ getTokenAccounts "Wallet" Ledger.fractional Demo.tokens = Throw SyntaxError.
Proof.
  destruct (getTokenAccounts_all_or_nothing "Wallet" Ledger.unparsed Demo.tokens)
    as [_ Hraw].
  destruct (getTokenAccounts_all_or_nothing "Wallet" Ledger.fractional Demo.tokens)
    as [_ Hfrac].
  split; [|split; [vm_compute; reflexivity|]].
  - exact (Hraw [Demo.accountX; Ledger.raw] [Demo.accountY] [Demo.accountX] Ledger.raw
             [Demo.accountY] eq_refl eq_refl eq_refl eq_refl eq_refl).
  - exact (Hfrac [Demo.accountX] [Ledger.accountF; Demo.accountY] [Demo.accountX]
             Ledger.accountF [Demo.accountY] eq_refl eq_refl eq_refl eq_refl eq_refl).
Defined.

Lemma getTokenAccounts_with_loaded_directory_witness :
  loadJupyterApi Demo.quoteApi Market.fetch_json
    = ([ALL_TOKENS; STRICT_TOKENS], Ok (Demo.quoteApi, Demo.tokens))
  ∧ getTokenAccounts "Wallet" Demo.connection Demo.tokens
    = Ok [Demo.scannedX; Demo.scannedY]
  ∧ plain "MintU" = true
  ∧ (kept Demo.tokens Demo.accountU = true → listed [Market.listedX; Demo.tokenY] Demo.accountU = true)
  ∧ Forall (λ t, ∃ info,
              data (account t) = Some info
              ∧ (mint info ∈ address <$> [Market.listedX; Demo.tokenY] →
                 ∃ d, token t = Descriptor d
                      ∧ address d = mint info
                      ∧ address_of (token t) = Some (mint info)
                      ∧ (mint info ∈ address <$> [Market.listedX] →
                         strict d = Some true)))
      [Demo.scannedX; Demo.scannedY].
Proof.
  assert (loadJupyterApi Demo.quoteApi Market.fetch_json
          = ([ALL_TOKENS; STRICT_TOKENS], Ok (Demo.quoteApi, Demo.tokens))) as Hload
    by (vm_compute; reflexivity).
  assert (getTokenAccounts "Wallet" Demo.connection Demo.tokens
          = Ok [Demo.scannedX; Demo.scannedY]) as Hscan by (vm_compute; reflexivity).
  split; [exact Hload|]. split; [exact Hscan|]. split; [vm_compute; reflexivity|].
  destruct (getTokenAccounts_with_loaded_directory Demo.quoteApi Market.fetch_json
              [Market.listedX; Demo.tokenY] [Market.listedX] _ _ _
              "Wallet" Demo.connection _ eq_refl eq_refl Hload Hscan)
    as (_ & _ & Hplain & Hall).
  split; [|exact Hall].
  apply (Hplain Demo.accountU {| mint := "MintU"; tokenAmount := "7" |} eq_refl).
  vm_compute. reflexivity.
Defined.


(** ** The pipelines end to end *)

Lemma findQuotes_discovery_first_witness :
  let quoted := q_run "USDC" "Wallet" Demo.quoteApi Demo.js [1; 0; 0]
                  (findQuotes "USDC" "Wallet" Demo.js Demo.connection Demo.tokens) in
  getTokenAccounts "Wallet" Demo.connection Demo.tokens
    = Ok [Demo.scannedX; Demo.scannedY]
  ∧ ∃ rest,
      untagged (q_trace quoted)
      = flat_map (λ a, [FoundAssetCallback (address_of (token a)) a;
                        QuoteGet (quoteRequest "USDC" Demo.js a)])
          [Demo.scannedX; Demo.scannedY] ++ rest
      ∧ Forall (λ e, is_discovery e = false) rest.
Proof.
  intros quoted.
  assert (getTokenAccounts "Wallet" Demo.connection Demo.tokens
          = Ok [Demo.scannedX; Demo.scannedY]) as Hscan by (vm_compute; reflexivity).
  assert (rtc (q_step "USDC" "Wallet" Demo.quoteApi Demo.js)
              (findQuotes "USDC" "Wallet" Demo.js Demo.connection Demo.tokens) quoted)
    as Hreach by apply q_run_reachable.
  split; [exact Hscan|].
  exact (proj2 (findQuotes_discovery_first _ _ _ _ _ _ _ _ Hscan Hreach)).
Defined.

Lemma findQuotes_requests_what_is_held_witness :
  let quoted := q_run "USDC" "Wallet" Demo.quoteApi Demo.js [1; 0; 0]
                  (findQuotes "USDC" "Wallet" Demo.js Demo.connection Demo.tokens) in
  let r := {| inputMint := Some "MintX"; outputMint := "USDC";
              amount := Number Demo.js "50" |} in
  (Some 0, QuoteGet r) ∈ q_trace quoted
  ∧ ∃ i t info z,
      Some 0 = Some i ∧ q_assets quoted !! i = Some t
      ∧ data (account t) = Some info
      ∧ token t = get Demo.tokens (mint info)
      ∧ StringToBigInt (tokenAmount info) = Some z
      ∧ r = {| inputMint := address_of (token t); outputMint := "USDC";
               amount := Number Demo.js (toString z) |}
      ∧ ((∀ k d, own Demo.tokens !! k = Some d → address d = k) →
         is_Some (own Demo.tokens !! mint info) → inputMint r = Some (mint info)).
Proof.
  intros quoted r.
  assert (rtc (q_step "USDC" "Wallet" Demo.quoteApi Demo.js)
              (findQuotes "USDC" "Wallet" Demo.js Demo.connection Demo.tokens) quoted)
    as Hreach by apply q_run_reachable.
  assert ((Some 0, QuoteGet r) ∈ q_trace quoted) as Hin
    by (vm_compute; apply list_elem_of_further, list_elem_of_here).
  split; [exact Hin|].
  exact (findQuotes_requests_what_is_held _ _ _ _ _ _ _ _ _ Hreach Hin).
Defined.

(** ** The sweep, continued *)

Lemma sweepTokens_batch_in_order_witness :
  let swept := s_run Demo.connection [0]
                 (sweepTokens Demo.deserialize Demo.serialize Demo.wallet
                    Demo.connection Batch.assets) in
  (None, SignAllTransactions [Demo.payloadTx; Batch.otherTx]) ∈ s_trace swept
  ∧ filter (λ a, enqueued Demo.wallet a) Batch.assets = [Demo.assetX; Batch.assetZ]
  ∧ Forall2 (λ a tx, ∃ s, swap a = Some s ∧ decode_swap Demo.deserialize s = Ok tx)
      (filter (λ a, enqueued Demo.wallet a) Batch.assets)
      [Demo.payloadTx; Batch.otherTx]
  ∧ ∀ i e id, (Some i, e) ∈ s_trace swept → s_event_id e = Some id →
      ∃ a, filter (λ a, enqueued Demo.wallet a) Batch.assets !! i = Some a
           ∧ id = address (token (asset a)).
Proof.
  intros swept.
  assert (rtc (s_step Demo.connection)
              (sweepTokens Demo.deserialize Demo.serialize Demo.wallet Demo.connection
                 Batch.assets) swept) as Hreach by apply s_run_reachable.
  assert ((None, SignAllTransactions [Demo.payloadTx; Batch.otherTx]) ∈ s_trace swept)
    as Hin by (vm_compute; apply list_elem_of_further, list_elem_of_here).
  split; [exact Hin|]. split; [vm_compute; reflexivity|].
  destruct (sweepTokens_batch_in_order Demo.deserialize Demo.serialize Demo.wallet
              Demo.connection Batch.assets swept Hreach) as [Hbatch Hids].
  split; [exact (Hbatch _ Hin)|exact Hids].
Defined.

Lemma sweepTokens_bad_payload_witness :
  let rejected := sweepTokens Demo.deserialize Demo.serialize Demo.wallet
                    Demo.connection Batch.with_garbled in
  atob (swapTransaction Batch.garbled) = Throw DOMException
  ∧ enqueued Demo.wallet Batch.ignoredG = false
  ∧ s_promise rejected = Rejected DOMException
  ∧ s_trace rejected = top [GetLatestBlockhash].
Proof.
  intros rejected.
  split; [vm_compute; reflexivity|]. split; [vm_compute; reflexivity|].
  destruct (sweepTokens_bad_payload Demo.deserialize Demo.serialize Demo.wallet
              Demo.connection Batch.with_garbled rejected Demo.latest DOMException
              eq_refl (rtc_refl _ _)) as [Hiff Hthen].
  assert (s_promise rejected = Rejected DOMException) as Hrej.
  { apply Hiff.
    exists [Batch.ignoredG; Demo.assetX], Batch.assetG, [Batch.assetZ], Batch.garbled.
    split; [reflexivity|]. split; [|repeat split; vm_compute; reflexivity].
    repeat constructor.
    - intros Hen. vm_compute in Hen. discriminate Hen.
    - intros _. exists Demo.swapX, Demo.payloadTx.
      split; [reflexivity|vm_compute; reflexivity]. }
  split; [exact Hrej|]. exact (proj1 (Hthen Hrej)).
Defined.

Lemma sweepTokens_promise_resolves_witness :
  let started := sweepTokens Demo.deserialize Demo.serialize Demo.wallet
                   Demo.connection Batch.assets in
  s_promise started = Pending
  ∧ s_promise (s_run Demo.connection [1] started) = Pending
  ∧ s_promise (s_run Demo.connection [1; 0] started) = Resolved.
Proof.
  intros started.
  split; [vm_compute; reflexivity|]. split; [vm_compute; reflexivity|].
  assert (assemble Demo.deserialize Demo.wallet (blockhash Demo.latest) Batch.assets
          = Ok Batch.built) as Hbuilt by (vm_compute; reflexivity).
  destruct (sweepTokens_promise_resolves Demo.deserialize Demo.serialize Demo.wallet
              Demo.connection Batch.assets started Demo.latest Batch.built
              (λ txs, Ok (Demo.sign <$> txs))
              (Demo.sign <$> [Demo.payloadTx; Batch.otherTx])
              eq_refl Hbuilt eq_refl eq_refl) as (_ & _ & _ & _ & Hfair).
  - vm_compute. lia.
  - apply rtc_refl.
  - apply Hfair. intros j Hj. vm_compute in Hj.
    destruct j as [|[|j]]; [|apply list_elem_of_here|lia].
    apply list_elem_of_further, list_elem_of_here.
Defined.

Lemma sweepTokens_surplus_signed_witness :
  let started := sweepTokens Demo.deserialize Demo.serialize Batch.generous
                   Demo.connection Demo.assets in
  s_promise started = Resolved
  ∧ s_branches started !! 0 = Some (AwaitConfirm "MintX" (char_codes "Payload"))
  ∧ of_branch 1 (s_trace started) = []
  ∧ of_top (s_trace started)
    = [GetLatestBlockhash; SignAllTransactions [Demo.payloadTx];
       SweepConsoleError TypeError;
       SweepErrorCallback "" (Literal "Failed signing transactions!")].
Proof.
  intros started.
  assert (assemble Demo.deserialize Batch.generous (blockhash Demo.latest) Demo.assets
          = Ok Demo.built) as Hbuilt by (vm_compute; reflexivity).
  destruct (sweepTokens_surplus_signed Demo.deserialize Demo.serialize Batch.generous
              Demo.connection Demo.assets started Demo.latest Demo.built
              (λ txs, Ok (Demo.sign <$> txs ++ [Demo.payloadTx]))
              (Demo.sign <$> [Demo.payloadTx; Demo.payloadTx])
              eq_refl Hbuilt eq_refl eq_refl) as (Hpromise & Htop & Hnone & Hflight).
  - vm_compute. lia.
  - apply rtc_refl.
  - split; [exact Hpromise|]. split; [|split; [|exact Htop]].
    + exact (proj1 (Hflight 0 "MintX" Demo.payloadTx (Demo.sign Demo.payloadTx)
                      (char_codes "Payload") eq_refl eq_refl eq_refl)).
    + apply Hnone. vm_compute. lia.
Defined.

Lemma sweepTokens_announces_in_order_witness :
  let swept := s_run Demo.connection [0]
                 (sweepTokens Demo.deserialize Demo.serialize Batch.partial
                    Demo.connection Batch.assets) in
  queue Batch.built = [("MintX", Demo.payloadTx); ("MintZ", Batch.otherTx)]
  ∧ filter (λ e, is_scooping e) (untagged (s_trace swept))
    = [TransactionStateCallback "MintX" "Scooping"].
Proof.
  intros swept. split; [reflexivity|].
  assert (assemble Demo.deserialize Batch.partial (blockhash Demo.latest) Batch.assets
          = Ok Batch.built) as Hbuilt by (vm_compute; reflexivity).
  assert (rtc (s_step Demo.connection)
              (sweepTokens Demo.deserialize Demo.serialize Batch.partial
                 Demo.connection Batch.assets) swept) as Hreach
    by apply s_run_reachable.
  exact (proj1 (sweepTokens_announces_in_order Demo.deserialize Demo.serialize
                  Batch.partial Demo.connection Batch.assets swept Demo.latest
                  Batch.built (λ txs, Ok (Demo.sign <$> take 1 txs))
                  [Demo.sign Demo.payloadTx] eq_refl Hbuilt eq_refl eq_refl Hreach)).
Defined.

Lemma sweepTokens_serialize_failure_witness :
  let started := sweepTokens Demo.deserialize Batch.serialize Batch.lazy
                   Demo.connection Demo.assets in
  of_branch 0 (s_trace started)
  = [TransactionStateCallback "MintX" "Scooping";
     TransactionStateCallback "MintX" "Error";
     SweepErrorCallback "MintX" (Caught (Reason "Signature verification failed"))]
  ∧ s_branches started !! 0 = Some Finished
  ∧ s_promise started = Resolved
  ∧ ∀ k raw, (Some 0, SendAndConfirmRawTransaction k raw) ∉ s_trace started.
Proof.
  intros started.
  assert (assemble Demo.deserialize Batch.lazy (blockhash Demo.latest) Demo.assets
          = Ok Demo.built) as Hbuilt by (vm_compute; reflexivity).
  destruct (sweepTokens_serialize_failure Demo.deserialize Batch.serialize Batch.lazy
              Demo.connection Demo.assets started Demo.latest Demo.built
              (λ txs, Ok txs) [Demo.payloadTx] 0 "MintX" Demo.payloadTx
              Demo.payloadTx (Reason "Signature verification failed")
              eq_refl Hbuilt eq_refl eq_refl eq_refl eq_refl eq_refl (rtc_refl _ _))
    as (Hmine & Hfin & _ & Hsend).
  split; [exact Hmine|]. split; [exact Hfin|]. split; [vm_compute; reflexivity|].
  exact Hsend.
Defined.

Lemma sweepTokens_announcements_answered_witness :
  let swept := s_run Demo.connection [1; 0]
                 (sweepTokens Demo.deserialize Demo.serialize Demo.wallet
                    Demo.connection Batch.assets) in
  s_branches swept = [Finished; Finished]
  ∧ length (filter (λ e, is_scooping_for "MintZ" e) (untagged (s_trace swept)))
    = length (terminal_states "MintZ" (s_trace swept))
  ∧ terminal_states "MintZ" (s_trace swept)
    = [TransactionStateCallback "MintZ" "Error"].
Proof.
  intros swept.
  assert (s_branches swept = [Finished; Finished]) as Hb by (vm_compute; reflexivity).
  assert (rtc (s_step Demo.connection)
              (sweepTokens Demo.deserialize Demo.serialize Demo.wallet
                 Demo.connection Batch.assets) swept) as Hreach
    by apply s_run_reachable.
  split; [exact Hb|]. split; [|vm_compute; reflexivity].
  apply (sweepTokens_announcements_answered Demo.deserialize Demo.serialize
           Demo.wallet Demo.connection Batch.assets swept "MintZ" Hreach).
  rewrite Hb. intros [|[|i]] b [= <-]; reflexivity.
Defined.

Lemma sweepTokens_closure_ignores_asset_witness :
  let closure := build_closeAccountTx "Wallet" "Fetched" in
  assemble_asset Demo.deserialize Demo.wallet "Fetched" Demo.assetY
    = Ok {| closeAccountTx := Some closure; pushed := None |}
  ∧ pubkey (account (asset Demo.assetY)) = "AccountY"
  ∧ meta_pubkey <$> flat_map keys (instructions (message closure))
    = [TOKEN_PROGRAM_ID; "Wallet"; "Wallet"]
  ∧ ∀ r' tx', assemble_asset Demo.deserialize Demo.wallet "Fetched" Demo.assetX = Ok r' →
      closeAccountTx r' = Some tx' → tx' = closure.
Proof.
  intros closure.
  assert (assemble_asset Demo.deserialize Demo.wallet "Fetched" Demo.assetY
          = Ok {| closeAccountTx := Some closure; pushed := None |}) as Hy
    by (vm_compute; reflexivity).
  split; [exact Hy|]. split; [reflexivity|].
  destruct (sweepTokens_closure_ignores_asset Demo.deserialize Demo.wallet "Fetched"
              Demo.assetY _ closure Hy eq_refl) as ((pk & Hpk & _ & _ & Hkeys) & _ & _ & Hsame).
  split.
  - injection Hpk as <-. exact Hkeys.
  - intros r' tx'. apply Hsame.
Defined.
